(** * Walkie daemon: channel registry, blocking reads, peer routing

    A shallow embedding of [WalkieDaemon] (daemon.js).  The daemon runs on
    one event loop, so every handler is a function from the daemon state
    to a new state and the list of calls it made on its collaborators
    (control sockets, peer connections, the swarm, the topic derivation).

    - JavaScript objects that are shared by reference are kept in stores:
      a channel object is reached from [this.channels] and from the timer
      closures of its suspended reads; a peer object is reached from
      [this.peers] and from the handlers of its connection.
    - An [async] method runs up to its first pending [await]; the rest of
      it is parked in the state and runs when the event loop reports the
      promise settled, so other events can come in between.
    - Timers are armed with a deadline on a millisecond clock and fire
      when the clock, which moves by events of its own, reaches it.
    - Text is held as the bytes of its UTF-8 encoding, so that
      [Buffer.byteLength] is the number of bytes and
      [String.prototype.length] the number of UTF-16 code units those
      bytes decode to; a chunk is taken to hold whole characters.
    - [deriveTopic] and [JSON.parse] belong to the platform and are
      parameters.  Calls to [log] only append to the log file and are left
      out, as is the bookkeeping of [start] and [shutdown] on the file
      system. *)

From Stdlib Require Import ZArith String Ascii Bool Lia List.
From stdpp Require Import base list.
Import ListNotations.

Local Open Scope string_scope.
Local Open Scope nat_scope.
Local Open Scope list_scope.

(** ** Constants of daemon.js *)

Definition MAX_IPC_BUFFER : Z := 1024 * 1024.
Definition MAX_PEER_BUFFER : Z := 1024 * 1024.
Definition MAX_MESSAGE_SIZE : Z := 256 * 1024.

(** Largest delay [setTimeout] honours; any delay outside
    [1 .. TIMEOUT_MAX] is replaced by 1 ms by the timers of the platform. *)
Definition TIMEOUT_MAX : Z := 2147483647.

(** ** crypto.js *)

Definition SCRYPT_SALT_PREFIX : string := "walkie-hardened:v1".
Definition SCRYPT_KEYLEN : Z := 32.
Definition SCRYPT_COST : Z := 16384.
Definition SCRYPT_BLOCK : Z := 8.
Definition SCRYPT_PARALLEL : Z := 1.

Section Crypto.

(** [crypto.scryptSync(password, salt, keylen, { N, r, p })] of the
    platform; the derived key is held as its hex text. *)
Variable scryptSync : string -> string -> Z -> Z -> Z -> Z -> string.

(** [deriveTopic(channel, secret)], as the hex text the daemon keeps in
    [topicHex] *)
Definition deriveTopic (channel secret : string) : string :=
  scryptSync secret (SCRYPT_SALT_PREFIX ++ ":" ++ channel)
    SCRYPT_KEYLEN SCRYPT_COST SCRYPT_BLOCK SCRYPT_PARALLEL.

End Crypto.

(** [buf.toString('hex')]: two lower-case digits for each byte *)
Definition hex_digit (n : N) : ascii :=
  match String.get (N.to_nat n) "0123456789abcdef" with
  | Some c => c
  | None => "0"%char
  end.

Definition hex_of_byte (b : Byte.byte) : string :=
  let n := Byte.to_N b in
  String (hex_digit (n / 16)) (String (hex_digit (n mod 16)) EmptyString).

Fixpoint toString_hex (bytes : list Byte.byte) : string :=
  match bytes with
  | [] => EmptyString
  | b :: rest => (hex_of_byte b ++ toString_hex rest)%string
  end.

(** A digit of the lower-case hexadecimal alphabet: [0-9a-f] *)
Definition is_hex (c : ascii) : bool :=
  let n := N_of_ascii c in
  ((48 <=? n) && (n <=? 57) || (97 <=? n) && (n <=? 102))%N.

Fixpoint all_hex (s : string) : bool :=
  match s with
  | EmptyString => true
  | String c r => is_hex c && all_hex r
  end.

Section Random.

(** [crypto.randomBytes(size)] of the platform: the bytes it returns
    when asked for [size] of them *)
Variable randomBytes : nat -> list Byte.byte.

(** [generateSecret()] *)
Definition generateSecret : string := toString_hex (randomBytes 16).

(** [agentId()] *)
Definition agentId : string := toString_hex (randomBytes 4).

End Random.

(** ** crypto.js, with the topic taken from a SHA-256 digest *)

Module Digest.
Section Hash.

(** [crypto.createHash('sha256').update(text).digest()] of the platform *)
Variable sha256 : string -> string.

(** [deriveTopic(channel, secret)] *)
Definition deriveTopic (channel secret : string) : string :=
  sha256 ("walkie:" ++ channel ++ ":" ++ secret)%string.

End Hash.
End Digest.

(** ** Text *)

Fixpoint byteLength_from (acc : Z) (s : string) : Z :=
  match s with
  | EmptyString => acc
  | String _ r => byteLength_from (acc + 1) r
  end.

(** [Buffer.byteLength(s)] *)
Definition byteLength (s : string) : Z := byteLength_from 0 s.

(** UTF-16 code units contributed by one byte of UTF-8: a continuation
    byte contributes none, the lead byte of a 4-byte sequence two. *)
Definition utf16_units (c : ascii) : Z :=
  let n := Z.of_N (N_of_ascii c) in
  if (n <? 128)%Z then 1
  else if (n <? 192)%Z then 0
  else if (n <? 240)%Z then 1
  else 2.

Fixpoint js_length_from (acc : Z) (s : string) : Z :=
  match s with
  | EmptyString => acc
  | String c r => js_length_from (acc + utf16_units c) r
  end.

(** [s.length] *)
Definition js_length (s : string) : Z := js_length_from 0 s.

(** [s.slice(0, n)] *)
Definition slice0 (n : nat) (s : string) : string := substring 0 n s.

Definition is_space (c : ascii) : bool :=
  let n := N_of_ascii c in
  ((9 <=? n) && (n <=? 13))%N || (n =? 32)%N.

(** [line.trim()] is the empty string.  Only the ASCII white space is
    looked at; a line of other white space is not a record either, as
    [JSON.parse] rejects it. *)
Fixpoint is_blank (s : string) : bool :=
  match s with
  | EmptyString => true
  | String c r => is_space c && is_blank r
  end.

Definition newline : ascii := ascii_of_nat 10.

(** The framing loop of the data handlers:
    [while ((idx = buf.indexOf('\n')) !== -1) { line = buf.slice(0, idx);
    buf = buf.slice(idx + 1); ... }].  Returns the complete lines in order
    and the unterminated rest that stays in the buffer. *)
Fixpoint split_lines (buf : string) : list string * string :=
  match buf with
  | EmptyString => ([], EmptyString)
  | String c r =>
      let '(ls, rest) := split_lines r in
      if Ascii.eqb c newline then (EmptyString :: ls, rest)
      else match ls with
           | [] => ([], String c rest)
           | l :: ls' => (String c l :: ls', rest)
           end
  end.

(** The white space [String.prototype.trim] removes that lies outside
    ASCII, as the bytes of its UTF-8 encoding: U+00A0; U+1680,
    U+2000 .. U+200A, U+2028, U+2029, U+202F, U+205F, U+3000, U+FEFF. *)
Definition white2 (a b : ascii) : bool :=
  ((N_of_ascii a =? 194) && (N_of_ascii b =? 160))%N.

Definition white3 (a b c : ascii) : bool :=
  let x := N_of_ascii a in
  let y := N_of_ascii b in
  let z := N_of_ascii c in
  ((x =? 225) && (y =? 154) && (z =? 128)
   || (x =? 226) && (y =? 128)
      && ((128 <=? z) && (z <=? 138) || (z =? 168) || (z =? 169) || (z =? 175))
   || (x =? 226) && (y =? 129) && (z =? 159)
   || (x =? 227) && (y =? 128) && (z =? 128)
   || (x =? 239) && (y =? 187) && (z =? 191))%N.

(** [!line.trim()]: the line holds white space only *)
Fixpoint trim_is_empty (s : string) : bool :=
  match s with
  | EmptyString => true
  | String a r =>
      if is_space a then trim_is_empty r
      else
        match r with
        | String b r2 =>
            if white2 a b then trim_is_empty r2
            else
              match r2 with
              | String c r3 => white3 a b c && trim_is_empty r3
              | EmptyString => false
              end
        | EmptyString => false
        end
  end.

(** The text a list of complete lines and an unterminated rest were
    framed from: each line followed by a newline, then the rest. *)
Fixpoint unsplit (lines : list string) (rest : string) : string :=
  match lines with
  | [] => rest
  | l :: ls => (l ++ String newline (unsplit ls rest))%string
  end.

(** [s.indexOf('\n') === -1] *)
Fixpoint no_newline (s : string) : bool :=
  match s with
  | EmptyString => true
  | String c r => negb (Ascii.eqb c newline) && no_newline r
  end.

(** ** crypto.js: secrets *)

(** [{ valid, message }] as returned by [validateSecret] *)
Record Validation := { valid : bool; message : option string }.

Definition SECRET_TOO_SHORT : string :=
  "Secret must be at least 16 characters. Use `walkie keygen` to generate one.".

(** [validateSecret(secret)]; [None] is a secret that was not given.
    [!secret] holds of a missing and of an empty secret. *)
Definition validateSecret (secret : option string) : Validation :=
  let missing := match secret with
                 | Some s => String.eqb s ""
                 | None => true
                 end in
  let short := match secret with
               | Some s => (js_length s <? 16)%Z
               | None => true
               end in
  if missing || short
  then {| valid := false; message := Some SECRET_TOO_SHORT |}
  else {| valid := true; message := None |}.

(** ** JavaScript [Map] and [Set], in insertion order *)

Section JsMap.
Context {V : Type}.

Fixpoint map_get (k : string) (m : list (string * V)) : option V :=
  match m with
  | [] => None
  | (k', v) :: r => if String.eqb k k' then Some v else map_get k r
  end.

Definition map_has (k : string) (m : list (string * V)) : bool :=
  match map_get k m with Some _ => true | None => false end.

(** [m.set(k, v)]: an existing key keeps its place, a new one goes last *)
Fixpoint map_set (k : string) (v : V) (m : list (string * V)) : list (string * V) :=
  match m with
  | [] => [(k, v)]
  | (k', v') :: r =>
      if String.eqb k k' then (k', v) :: r else (k', v') :: map_set k v r
  end.

Definition map_delete (k : string) (m : list (string * V)) : list (string * V) :=
  List.filter (fun kv => negb (String.eqb k (fst kv))) m.
End JsMap.

Definition set_has (x : string) (s : list string) : bool :=
  existsb (String.eqb x) s.

Definition set_add (x : string) (s : list string) : list string :=
  if set_has x s then s else s ++ [x].

Definition set_delete (x : string) (s : list string) : list string :=
  List.filter (fun y => negb (String.eqb x y)) s.

(** ** Data model *)

(** Control sockets, channel objects and peer objects (with the
    connection each wraps) are known by their identity, a number. *)
#[warnings="-notation-for-abbreviation"]
Notation Socket := nat (only parsing).
#[warnings="-notation-for-abbreviation"]
Notation Ref := nat (only parsing).
#[warnings="-notation-for-abbreviation"]
Notation ConnId := nat (only parsing).

(** [{ from, data, ts }] as built in [_onPeerMsg] *)
Record Entry := { from : string; data : option string; ts : option Z }.

(** The [waiter] closure of a suspended read.  [wid] is its identity;
    the timer created by the same read carries the same number. *)
Record Waiter := { wid : nat; wsock : Socket }.

(** The object stored by [this.channels.set(name, {...})] *)
Record Channel := {
  topicHex : string;
  discovery : nat;
  ch_peers : list string;
  messages : list Entry;
  waiters : list Waiter }.

(** [{ conn, channels, buf, knownTopics }] of [_onPeer], with the
    [remoteKey] its handlers close over.  [writable] is [conn.writable];
    [closed] records that the connection has emitted ['close']. *)
Record Peer := {
  remoteKey : string;
  writable : bool;
  closed : bool;
  peer_channels : list string;
  buf : string;
  knownTopics : option (list string) }.

(** An armed timer of a suspended read: it closes over the channel
    object, the waiter and the reply socket. *)
Record Timer := { tid : nat; deadline : Z; tch : Ref; tsock : Socket }.

(** Replies written to a control socket *)
Inductive Response :=
| RJoined (channel : string)                         (* {ok:true, channel} *)
| RDelivered (count : nat)                           (* {ok:true, delivered} *)
| RMessages (msgs : list Entry)                      (* {ok:true, messages} *)
| ROk                                                (* {ok:true} *)
| RStatus (chs : list (string * (nat * nat))) (daemonId : string)
| RError (error : string).                           (* {ok:false, error} *)

(** Records written to a peer connection *)
Inductive Wire :=
| WHello (topics : list string) (sender : string)
| WMsg (topic : string) (payload : option string) (sender : string) (sent : Z).

(** What [JSON.parse(line)] hands to [_onPeerMsg] *)
Inductive PeerRecord :=
| PHello (topics : list string)
| PMsg (topic : option string) (payload : option string)
       (sender : option string) (sent : option Z)
| POther.

(** The commands [_exec] switches on, with the fields it reads:
    [cmd.wait] as its truth value, [cmd.timeout] as a whole number of
    seconds when present. *)
Inductive Command :=
| Join (channel secret : string)
| Send (channel : string) (message : option string)
| Read (channel : string) (wait : bool) (timeout : option Z)
| Leave (channel : string)
| Status
| Ping
| Stop
| Unknown (action : string).

(** Calls the daemon makes on its collaborators *)
Inductive Effect :=
| EReply (sock : Socket) (r : Response)
| EDeriveTopic (channel secret : string)
| ESwarmJoin (topic : string)
| EDiscoveryDestroy (handle : nat)
| EPeerWrite (c : ConnId) (w : Wire)
| EConnDestroy (c : ConnId)
| EShutdown.

(** An [_exec] call parked at its [await] *)
Inductive Cont :=
| KJoin (name topic : string) (handle : nat) (sock : Socket)
| KLeave (name : string) (sock : Socket)
| KStop (sock : Socket).

(** The daemon: the fields of [WalkieDaemon] ([id], [channels], [peers]),
    the stores of the channel and peer objects they point to, and what
    the handlers leave with the event loop: the armed timers, the [_exec]
    calls waiting at an [await], the counter that identities are drawn
    from, the clock in milliseconds, and whether [process.exit] has been
    reached. *)
Record Daemon := {
  id : string;
  channels : list (string * Ref);
  peers : list (string * ConnId);
  chan_store : list Channel;
  conn_store : list Peer;
  timers : list Timer;
  suspended : list (nat * Cont);
  next_id : nat;
  now : Z;
  exited : bool }.

(** What the event loop hands to the daemon: a command line read from a
    control socket, the settling of an awaited promise, the events of the
    swarm and of a peer connection, and the passing of a millisecond. *)
Inductive Event :=
| Exec (cmd : Command) (sock : Socket)
| Resume (k : nat)
| Reject (k : nat) (error : string)
| PeerConnect (key : string)
| PeerData (c : ConnId) (chunk : string)
| PeerClose (c : ConnId)
| PeerError (c : ConnId)
| Tick.

(** What the ['data'] handler of a control socket leaves: the daemon,
    the [buf] of its closure, whether it destroyed the socket, and the
    calls it made, those of the microtasks it queued last. *)
Record IpcResult := {
  ipc_daemon : Daemon;
  ipc_buf : string;
  ipc_destroyed : bool;
  ipc_effects : list Effect }.

(** *** Field updates *)

Definition set_ch_peers (v : list string) (ch : Channel) : Channel :=
  {| topicHex := topicHex ch; discovery := discovery ch; ch_peers := v;
     messages := messages ch; waiters := waiters ch |}.

Definition set_messages (v : list Entry) (ch : Channel) : Channel :=
  {| topicHex := topicHex ch; discovery := discovery ch; ch_peers := ch_peers ch;
     messages := v; waiters := waiters ch |}.

Definition set_waiters (v : list Waiter) (ch : Channel) : Channel :=
  {| topicHex := topicHex ch; discovery := discovery ch; ch_peers := ch_peers ch;
     messages := messages ch; waiters := v |}.

Definition set_writable (v : bool) (p : Peer) : Peer :=
  {| remoteKey := remoteKey p; writable := v; closed := closed p;
     peer_channels := peer_channels p; buf := buf p; knownTopics := knownTopics p |}.

Definition set_closed (v : bool) (p : Peer) : Peer :=
  {| remoteKey := remoteKey p; writable := writable p; closed := v;
     peer_channels := peer_channels p; buf := buf p; knownTopics := knownTopics p |}.

Definition set_peer_channels (v : list string) (p : Peer) : Peer :=
  {| remoteKey := remoteKey p; writable := writable p; closed := closed p;
     peer_channels := v; buf := buf p; knownTopics := knownTopics p |}.

Definition set_buf (v : string) (p : Peer) : Peer :=
  {| remoteKey := remoteKey p; writable := writable p; closed := closed p;
     peer_channels := peer_channels p; buf := v; knownTopics := knownTopics p |}.

Definition set_knownTopics (v : option (list string)) (p : Peer) : Peer :=
  {| remoteKey := remoteKey p; writable := writable p; closed := closed p;
     peer_channels := peer_channels p; buf := buf p; knownTopics := v |}.

Definition with_channels (v : list (string * Ref)) (st : Daemon) : Daemon :=
  {| id := id st; channels := v; peers := peers st; chan_store := chan_store st;
     conn_store := conn_store st; timers := timers st; suspended := suspended st;
     next_id := next_id st; now := now st; exited := exited st |}.

Definition with_peers (v : list (string * ConnId)) (st : Daemon) : Daemon :=
  {| id := id st; channels := channels st; peers := v; chan_store := chan_store st;
     conn_store := conn_store st; timers := timers st; suspended := suspended st;
     next_id := next_id st; now := now st; exited := exited st |}.

Definition with_chan_store (v : list Channel) (st : Daemon) : Daemon :=
  {| id := id st; channels := channels st; peers := peers st; chan_store := v;
     conn_store := conn_store st; timers := timers st; suspended := suspended st;
     next_id := next_id st; now := now st; exited := exited st |}.

Definition with_conn_store (v : list Peer) (st : Daemon) : Daemon :=
  {| id := id st; channels := channels st; peers := peers st; chan_store := chan_store st;
     conn_store := v; timers := timers st; suspended := suspended st;
     next_id := next_id st; now := now st; exited := exited st |}.

Definition with_timers (v : list Timer) (st : Daemon) : Daemon :=
  {| id := id st; channels := channels st; peers := peers st; chan_store := chan_store st;
     conn_store := conn_store st; timers := v; suspended := suspended st;
     next_id := next_id st; now := now st; exited := exited st |}.

Definition with_suspended (v : list (nat * Cont)) (st : Daemon) : Daemon :=
  {| id := id st; channels := channels st; peers := peers st; chan_store := chan_store st;
     conn_store := conn_store st; timers := timers st; suspended := v;
     next_id := next_id st; now := now st; exited := exited st |}.

Definition with_next_id (v : nat) (st : Daemon) : Daemon :=
  {| id := id st; channels := channels st; peers := peers st; chan_store := chan_store st;
     conn_store := conn_store st; timers := timers st; suspended := suspended st;
     next_id := v; now := now st; exited := exited st |}.

Definition with_now (v : Z) (st : Daemon) : Daemon :=
  {| id := id st; channels := channels st; peers := peers st; chan_store := chan_store st;
     conn_store := conn_store st; timers := timers st; suspended := suspended st;
     next_id := next_id st; now := v; exited := exited st |}.

Definition with_exited (v : bool) (st : Daemon) : Daemon :=
  {| id := id st; channels := channels st; peers := peers st; chan_store := chan_store st;
     conn_store := conn_store st; timers := timers st; suspended := suspended st;
     next_id := next_id st; now := now st; exited := v |}.

(** In-place mutation of a channel or peer object *)
Definition upd_chan (r : Ref) (f : Channel -> Channel) (st : Daemon) : Daemon :=
  with_chan_store (alter f r (chan_store st)) st.

Definition upd_peer (c : ConnId) (f : Peer -> Peer) (st : Daemon) : Daemon :=
  with_conn_store (alter f c (conn_store st)) st.

(** [new WalkieDaemon()] with [agentId()] having returned [i] *)
Definition init (i : string) : Daemon :=
  {| id := i; channels := []; peers := []; chan_store := []; conn_store := [];
     timers := []; suspended := []; next_id := 0; now := 0; exited := false |}.

(** [this.channels.get(name)] *)
Definition get_channel (st : Daemon) (name : string) : option (Ref * Channel) :=
  match map_get name (channels st) with
  | Some r => match chan_store st !! r with
              | Some ch => Some (r, ch)
              | None => None
              end
  | None => None
  end.

(** [Array.from(this.channels.values()).map(ch => ch.topicHex)] *)
Definition topics_of (st : Daemon) : list string :=
  flat_map (fun nr => match chan_store st !! snd nr with
                      | Some ch => [topicHex ch]
                      | None => []
                      end) (channels st).

(** ** Observations and invariants *)

(** The replies written to one control socket, in order *)
Fixpoint replies_to (sock : Socket) (eff : list Effect) : list Response :=
  match eff with
  | [] => []
  | EReply s r :: rest =>
      if s =? sock then r :: replies_to sock rest else replies_to sock rest
  | _ :: rest => replies_to sock rest
  end.

(** A channel never holds buffered entries and suspended readers at once *)
Definition quiet (ch : Channel) : Prop :=
  messages ch = [] \/ waiters ch = [].

Definition store_ok (st : Daemon) : Prop := Forall quiet (chan_store st).

(** Identities handed out so far are below the counter *)
Definition ids_fresh (st : Daemon) : Prop :=
  Forall (fun t => tid t < next_id st) (timers st) /\
  Forall (fun kc => fst kc < next_id st) (suspended st).

(** The waiter [w], queued on channel object [r], is the one some timer
    of [l] removes when it fires *)
Definition fired_by (l : list Timer) (r : Ref) (w : Waiter) : bool :=
  existsb (fun t => (tch t =? r) && (wid w =? tid t)) l.

(** No suspended read of the state replies to [sock] *)
Definition sock_unused (sock : Socket) (st : Daemon) : Prop :=
  Forall (fun t => tsock t <> sock) (timers st) /\
  Forall (fun ch => Forall (fun w => wsock w <> sock) (waiters ch)) (chan_store st).

(** [w] is in the waiter queue of channel object [r] *)
Definition queued (st : Daemon) (r : Ref) (w : Waiter) : Prop :=
  exists ch, chan_store st !! r = Some ch /\ In w (waiters ch).

(** [t] is the armed timer of the read that queued [w] on channel
    object [r] *)
Definition armed_for (st : Daemon) (r : Ref) (w : Waiter) (t : Timer) : Prop :=
  In t (timers st) /\ tid t = wid w /\ tch t = r /\ tsock t = wsock w /\
  (now st < deadline t)%Z.

(** Every queued waiter has its timer armed, and no two queued waiters
    and no two armed timers share an identity *)
Definition waiters_ok (st : Daemon) : Prop :=
  (forall r w, queued st r w -> exists t, armed_for st r w t) /\
  (forall r w, queued st r w -> wid w < next_id st) /\
  (forall r ch, chan_store st !! r = Some ch -> NoDup (map wid (waiters ch))) /\
  (forall r1 r2 w1 w2,
     queued st r1 w1 -> queued st r2 w2 -> wid w1 = wid w2 -> r1 = r2) /\
  NoDup (map tid (timers st)) /\
  Forall (fun t => tid t < next_id st) (timers st).

(** [st'] has the timers, the clock and the waiter queues of [st] *)
Definition same_waiting (st st' : Daemon) : Prop :=
  timers st' = timers st /\ now st' = now st /\ next_id st <= next_id st' /\
  forall r, (waiters <$> chan_store st' !! r) = (waiters <$> chan_store st !! r).

(** Every registry entry points to a stored channel object *)
Definition refs_valid (st : Daemon) : Prop :=
  Forall (fun nr => snd nr < length (chan_store st)) (channels st).

(** [st'] has the registry of [st] and as many channel objects *)
Definition same_registry (st st' : Daemon) : Prop :=
  channels st' = channels st /\ length (chan_store st') = length (chan_store st).

Definition is_reply (e : Effect) : Prop :=
  match e with EReply _ _ => True | _ => False end.

(** The peer registry of [st'] is that of [st], and every connection is
    writable in [st'] exactly if it is in [st] *)
Definition conns_open_as (st st' : Daemon) : Prop :=
  peers st' = peers st /\
  forall c, (writable <$> conn_store st' !! c) = (writable <$> conn_store st !! c).

(** The part of a peer object that belongs to its connection: what the
    hello and message records of a peer never change *)
Definition conn_of (p : Peer) : string * bool * bool * string :=
  (remoteKey p, writable p, closed p, buf p).

(** [st'] has the peer registry of [st] and, for every peer object, the
    same connection *)
Definition same_conns (st st' : Daemon) : Prop :=
  peers st' = peers st /\
  forall c, (conn_of <$> conn_store st' !! c) = (conn_of <$> conn_store st !! c).

(** [r] is one of the channel objects [this.channels] holds *)
Definition registered (st : Daemon) (r : Ref) : bool :=
  existsb (Nat.eqb r) (map snd (channels st)).

(** The key of a registered peer, if its last hello listed [topic] *)
Definition announces (st : Daemon) (topic : string) (kc : string * ConnId)
    : list string :=
  match conn_store st !! snd kc with
  | Some p => match knownTopics p with
              | Some known => if set_has topic known then [fst kc] else []
              | None => []
              end
  | None => []
  end.

(** The keys of the registered peers whose last hello listed [topic],
    in registry order *)
Definition announcers (st : Daemon) (topic : string) : list string :=
  flat_map (announces st topic) (peers st).

(** The connection of a registered peer, if it is writable *)
Definition writes_to (st : Daemon) (kc : string * ConnId) : list ConnId :=
  match conn_store st !! snd kc with
  | Some p => if writable p then [snd kc] else []
  | None => []
  end.

(** The registered connections that are writable, in registry order *)
Definition writable_peers (st : Daemon) : list ConnId :=
  flat_map (writes_to st) (peers st).

(** [ch'] is [ch] with, possibly, more matched peers *)
Definition grown (ch ch' : Channel) : Prop :=
  topicHex ch' = topicHex ch /\ discovery ch' = discovery ch /\
  messages ch' = messages ch /\ waiters ch' = waiters ch /\
  forall key, In key (ch_peers ch) -> In key (ch_peers ch').

(** Every key of the peer registry points to a stored peer object that
    carries it *)
Definition peers_valid (st : Daemon) : Prop :=
  forall key c, map_get key (peers st) = Some c ->
    exists p, conn_store st !! c = Some p /\ remoteKey p = key.

(** The peer set of a channel object lists no key twice *)
Definition peers_dedup (st : Daemon) : Prop :=
  Forall (fun ch => NoDup (ch_peers ch)) (chan_store st).

(** The matched peers of a registered channel are keys of the peer
    registry *)
Definition matched_known (st : Daemon) : Prop :=
  forall name r ch key,
    get_channel st name = Some (r, ch) -> In key (ch_peers ch) ->
    map_has key (peers st) = true.

Definition matching_ok (st : Daemon) : Prop :=
  refs_valid st /\ peers_valid st /\ peers_dedup st /\ matched_known st.

(** [st'] has the registries of [st], the same peer set in every
    channel object and the same key in every peer object *)
Definition same_matching (st st' : Daemon) : Prop :=
  channels st' = channels st /\ peers st' = peers st /\
  length (chan_store st') = length (chan_store st) /\
  (forall r, (ch_peers <$> chan_store st' !! r) = (ch_peers <$> chan_store st !! r)) /\
  (forall c, (remoteKey <$> conn_store st' !! c) = (remoteKey <$> conn_store st !! c)).

(** ** Instances used by the examples *)

(** A stand-in for the key derivation: the salt and the password, as
    they are *)
Definition sample_scrypt (password salt : string) (keylen N r p : Z) : string :=
  (salt ++ ":" ++ password)%string.

Definition sample_topic (name secret : string) : string :=
  deriveTopic sample_scrypt name secret.

Definition chars (n : positive) : string :=
  Pos.iter (String "a"%char) EmptyString n.

Definition payload_at_limit : string := chars 262144.
Definition payload_over_limit : string := chars 262145.

(** A decoder for the few lines the examples use *)
Definition sample_parse (line : string) : option PeerRecord :=
  if String.eqb line "hello" then Some (PHello [sample_topic "room" "s1"])
  else if String.eqb line "hi" then
    Some (PMsg (Some (sample_topic "room" "s1")) (Some "hi") (Some "b2b2b2b2") (Some 7%Z))
  else if String.eqb line "big" then
    Some (PMsg (Some (sample_topic "room" "s1")) (Some payload_over_limit)
               (Some "b2b2b2b2") (Some 8%Z))
  else None.

Definition nl : string := String newline EmptyString.

(** A daemon that has joined "room" with secret "s1" *)
Definition joined_room : list Event :=
  [Exec (Join "room" "s1") 1; Resume 0].

(** ... then one peer connects and announces the topic of "room" *)
Definition peer_matched : list Event :=
  joined_room ++ [PeerConnect "b2b2b2b2c3c3c3c3"; PeerData 0 ("hello" ++ nl)%string].

(** ... or a reader on socket 7 waits on "room" for two seconds *)
Definition reader_waiting : list Event :=
  joined_room ++ [Exec (Read "room" true (Some 2%Z)) 7].

(** The channel object of "room" right after the join *)
Definition room : Channel :=
  {| topicHex := sample_topic "room" "s1"; discovery := 0; ch_peers := [];
     messages := []; waiters := [] |}.

(** A decoder for the control lines the examples use *)
Definition sample_parse_command (line : string) : string + Command :=
  if String.eqb line "J" then inr (Join "room" "s2")
  else if String.eqb line "P" then inr Ping
  else inl "Unexpected token"%string.

(** A source of bytes that draws the same byte every time *)
Definition sample_randomBytes (size : nat) : list Byte.byte :=
  repeat Byte.xa7 size.

(** The key of the peer of the examples, and its peer object once it
    has announced the topic of "room" *)
Definition peer_key : string := "b2b2b2b2c3c3c3c3".

Definition matched_peer : Peer :=
  {| remoteKey := peer_key; writable := true; closed := false;
     peer_channels := [slice0 8 (sample_topic "room" "s1")]; buf := "";
     knownTopics := Some [sample_topic "room" "s1"] |}.

(** A peer that connects and announces the topic of "room" to a daemon
    that has joined nothing *)
Definition peer_announced : list Event :=
  [PeerConnect peer_key; PeerData 0 ("hello" ++ nl)%string].

(** ** Handlers *)

Section Handlers.

(** [crypto.scryptSync] of the platform, behind [deriveTopic] *)
Variable scryptSync : string -> string -> Z -> Z -> Z -> Z -> string.

(** [JSON.parse(line)] as seen by [_onPeerMsg]; [None] when the line
    makes the parser or the handler throw, which the data handler
    swallows. *)
Variable JSON_parse : string -> option PeerRecord.

(** *** Topic matching *)

(** Body of the loops over [this.channels] in the hello branch and in
    [_reannounce]: [if (topics.has(ch.topicHex) && !ch.peers.has(remoteKey))
    { ch.peers.add(remoteKey); peer.channels.add(ch.topicHex.slice(0, 8)) }] *)
Definition match_one (key : string) (c : ConnId) (topics : list string)
    (st : Daemon) (r : Ref) : Daemon :=
  match chan_store st !! r with
  | Some ch =>
      if set_has (topicHex ch) topics && negb (set_has key (ch_peers ch)) then
        upd_peer c (fun p => set_peer_channels
                               (set_add (slice0 8 (topicHex ch)) (peer_channels p)) p)
          (upd_chan r (fun ch' => set_ch_peers (set_add key (ch_peers ch')) ch') st)
      else st
  | None => st
  end.

Definition match_topics (key : string) (c : ConnId) (topics : list string)
    (st : Daemon) : Daemon :=
  fold_left (match_one key c topics) (map snd (channels st)) st.

(** One round of the loop over [this.peers] in [_reannounce] *)
Definition reannounce_peer (hello : Wire) (acc : Daemon * list Effect)
    (kc : string * ConnId) : Daemon * list Effect :=
  let '(st, eff) := acc in
  match conn_store st !! snd kc with
  | Some p =>
      let eff' := if writable p then eff ++ [EPeerWrite (snd kc) hello] else eff in
      match knownTopics p with
      | Some known => (match_topics (fst kc) (snd kc) known st, eff')
      | None => (st, eff')
      end
  | None => (st, eff)
  end.

(** [_reannounce()] *)
Definition _reannounce (st : Daemon) : Daemon * list Effect :=
  fold_left (reannounce_peer (WHello (topics_of st) (id st))) (peers st) (st, []).

(** *** Inbound routing *)

(** [x && Buffer.byteLength(x) > MAX_MESSAGE_SIZE] *)
Definition too_large (x : option string) : bool :=
  match x with
  | Some s => negb (String.eqb s "") && (MAX_MESSAGE_SIZE <? byteLength s)%Z
  | None => false
  end.

(** [x || d] on an optional string *)
Definition or_default (x : option string) (d : string) : string :=
  match x with
  | Some s => if String.eqb s "" then d else s
  | None => d
  end.

(** First channel, in registry order, with [ch.topicHex === topic] *)
Fixpoint find_topic (store : list Channel) (topic : string)
    (m : list (string * Ref)) : option Ref :=
  match m with
  | [] => None
  | (_, r) :: rest =>
      match store !! r with
      | Some ch => if String.eqb (topicHex ch) topic then Some r
                   else find_topic store topic rest
      | None => find_topic store topic rest
      end
  end.

(** [waiter(msgs)]: [clearTimeout(timer); reply({ ok: true, messages: msgs })] *)
Definition call_waiter (w : Waiter) (msgs : list Entry) (st : Daemon)
    : Daemon * list Effect :=
  (with_timers (List.filter (fun t => negb (tid t =? wid w)) (timers st)) st,
   [EReply (wsock w) (RMessages msgs)]).

(** [if (ch.waiters.length > 0) { waiter = ch.waiters.shift(); waiter([entry]) }
    else { ch.messages.push(entry) }] *)
Definition route (st : Daemon) (r : Ref) (entry : Entry) : Daemon * list Effect :=
  match chan_store st !! r with
  | Some ch =>
      match waiters ch with
      | w :: _ =>
          call_waiter w [entry]
            (upd_chan r (fun ch' => set_waiters (tl (waiters ch')) ch') st)
      | [] =>
          (upd_chan r (fun ch' => set_messages (messages ch' ++ [entry]) ch') st, [])
      end
  | None => (st, [])
  end.

(** [_onPeerMsg(remoteKey, msg)] *)
Definition _onPeerMsg (st : Daemon) (key : string) (msg : PeerRecord)
    : Daemon * list Effect :=
  match map_get key (peers st) with
  | None => (st, [])
  | Some c =>
      match msg with
      | PHello topics =>
          (match_topics key c topics
             (upd_peer c (set_knownTopics (Some topics)) st), [])
      | PMsg topic payload sender sent =>
          if too_large payload then (st, [])
          else
            match topic with
            | Some t =>
                match find_topic (chan_store st) t (channels st) with
                | Some r =>
                    route st r {| from := or_default sender (slice0 8 key);
                                  data := payload; ts := sent |}
                | None => (st, [])
                end
            | None => (st, [])
            end
      | POther => (st, [])
      end
  end.

(** *** Peer connections *)

(** [_onPeer(conn, info)] up to the registration of the handlers *)
Definition _onPeer (st : Daemon) (key : string) : Daemon * list Effect :=
  let c := length (conn_store st) in
  let peer := {| remoteKey := key; writable := true; closed := false;
                 peer_channels := []; buf := ""; knownTopics := None |} in
  (with_peers (map_set key c (peers st))
     (with_conn_store (conn_store st ++ [peer]) st),
   [EPeerWrite c (WHello (topics_of st) (id st))]).

(** [try { this._onPeerMsg(remoteKey, JSON.parse(line)) } catch {}]
    for one non-blank line *)
Definition onPeerLine (key : string) (acc : Daemon * list Effect) (line : string)
    : Daemon * list Effect :=
  let '(st, eff) := acc in
  if is_blank line then (st, eff)
  else match JSON_parse line with
       | Some msg => let '(st', eff') := _onPeerMsg st key msg in (st', eff ++ eff')
       | None => (st, eff)
       end.

(** A line that decodes to a [msg] record whose data is over the limit *)
Definition oversized_line (line : string) : bool :=
  match JSON_parse line with
  | Some (PMsg _ payload _ _) => too_large payload
  | _ => false
  end.

(** The ['data'] handler of connection [c].  A destroyed connection
    emits no further data.  [_onPeerMsg] neither reads nor writes
    [peer.buf], so the rest of the buffer is stored before the complete
    lines are dispatched. *)
Definition onPeerData (st : Daemon) (c : ConnId) (chunk : string)
    : Daemon * list Effect :=
  match conn_store st !! c with
  | Some p =>
      if negb (writable p) then (st, [])
      else
        let b := (buf p ++ chunk)%string in
        if (MAX_PEER_BUFFER <? js_length b)%Z then
          (upd_peer c (fun p' => set_writable false (set_buf b p')) st,
           [EConnDestroy c])
        else
          let '(lines, rest) := split_lines b in
          fold_left (onPeerLine (remoteKey p)) lines
            (upd_peer c (set_buf rest) st, [])
  | None => (st, [])
  end.

(** The ['close'] handler of connection [c] *)
Definition onPeerClose (st : Daemon) (c : ConnId) : Daemon * list Effect :=
  match conn_store st !! c with
  | Some p =>
      if closed p then (st, [])
      else
        let st1 := upd_peer c (fun p' => set_closed true (set_writable false p')) st in
        let st2 := fold_left
                     (fun s r => upd_chan r (fun ch => set_ch_peers
                                    (set_delete (remoteKey p) (ch_peers ch)) ch) s)
                     (map snd (channels st1)) st1 in
        (with_peers (map_delete (remoteKey p) (peers st2)) st2, [])
  | None => (st, [])
  end.

(** The ['error'] handler of connection [c]: [conn.destroy()] *)
Definition onPeerError (st : Daemon) (c : ConnId) : Daemon * list Effect :=
  match conn_store st !! c with
  | Some p =>
      if writable p then (upd_peer c (set_writable false) st, [EConnDestroy c])
      else (st, [])
  | None => (st, [])
  end.

(** *** Sending *)

(** Connections the loop of [_send] writes to: for each key of
    [ch.peers], in order, the peer registered under it if
    [peer?.conn?.writable] *)
Definition send_targets (st : Daemon) (ch : Channel) : list ConnId :=
  flat_map (fun key => match map_get key (peers st) with
                       | Some c => match conn_store st !! c with
                                   | Some p => if writable p then [c] else []
                                   | None => []
                                   end
                       | None => []
                       end) (ch_peers ch).

(** [_send(channelName, message)]: the thrown error message, or the
    count with the writes made *)
Definition _send (st : Daemon) (channelName : string) (message : option string)
    : string + (nat * list Effect) :=
  match get_channel st channelName with
  | None => inl ("Not in channel: " ++ channelName)%string
  | Some (_, ch) =>
      let payload := WMsg (topicHex ch) message (id st) (now st) in
      let targets := send_targets st ch in
      inr (length targets, map (fun c => EPeerWrite c payload) targets)
  end.

(** *** Control commands *)

(** [cmd.timeout || 30] *)
Definition timeout_or_default (t : option Z) : Z :=
  match t with
  | Some v => if (v =? 0)%Z then 30%Z else v
  | None => 30%Z
  end.

(** Delay [setTimeout] arms for a requested delay *)
Definition setTimeout_delay (ms : Z) : Z :=
  if ((1 <=? ms) && (ms <=? TIMEOUT_MAX))%Z then ms else 1%Z.

Definition nonempty {A} (l : list A) : bool :=
  match l with [] => false | _ :: _ => true end.

Definition suspend (k : Cont) (st : Daemon) : Daemon :=
  with_next_id (S (next_id st))
    (with_suspended (suspended st ++ [(next_id st, k)]) st).

(** [_joinChannel(name, secret)] up to [await discovery.flushed()]:
    [None] when it returns at once, otherwise the topic and the discovery
    handle it waits on *)
Definition _joinChannel (st : Daemon) (name secret : string)
    : option (string * nat) * list Effect :=
  if map_has name (channels st) then (None, [])
  else
    let topic := deriveTopic scryptSync name secret in
    (Some (topic, next_id st), [EDeriveTopic name secret; ESwarmJoin topic]).

(** [_joinChannel] after the flush:
    [this.channels.set(name, {...}); this._reannounce()] *)
Definition _joinChannel_flushed (st : Daemon) (name topic : string) (handle : nat)
    : Daemon * list Effect :=
  let r := length (chan_store st) in
  let ch := {| topicHex := topic; discovery := handle; ch_peers := [];
               messages := []; waiters := [] |} in
  _reannounce (with_channels (map_set name r (channels st))
                (with_chan_store (chan_store st ++ [ch]) st)).

(** [_leaveChannel(name)] up to [await ch.discovery.destroy()]: whether
    it waits, and the call it made *)
Definition _leaveChannel (st : Daemon) (name : string) : bool * list Effect :=
  match get_channel st name with
  | None => (false, [])
  | Some (_, ch) => (true, [EDiscoveryDestroy (discovery ch)])
  end.

(** [_leaveChannel] after the destroy: [this.channels.delete(name)] *)
Definition _leaveChannel_destroyed (st : Daemon) (name : string) : Daemon :=
  with_channels (map_delete name (channels st)) st.

(** [_exec(cmd, socket)] up to its first pending [await] *)
Definition _exec (st : Daemon) (cmd : Command) (sock : Socket)
    : Daemon * list Effect :=
  match cmd with
  | Join name secret =>
      match _joinChannel st name secret with
      | (None, eff) => (st, eff ++ [EReply sock (RJoined name)])
      | (Some (topic, handle), eff) =>
          (suspend (KJoin name topic handle sock) st, eff)
      end
  | Send name message =>
      if too_large message then
        (st, [EReply sock (RError "Message too large (max 256KB)")])
      else
        match _send st name message with
        | inl err => (st, [EReply sock (RError err)])
        | inr (count, writes) => (st, writes ++ [EReply sock (RDelivered count)])
        end
  | Read name wait timeout =>
      match get_channel st name with
      | None => (st, [EReply sock (RError ("Not in channel: " ++ name)%string)])
      | Some (r, ch) =>
          if nonempty (messages ch) || negb wait then
            (upd_chan r (set_messages []) st, [EReply sock (RMessages (messages ch))])
          else
            let ms := (timeout_or_default timeout * 1000)%Z in
            let i := next_id st in
            let timer := {| tid := i; deadline := (now st + setTimeout_delay ms)%Z;
                            tch := r; tsock := sock |} in
            let waiter := {| wid := i; wsock := sock |} in
            (with_next_id (S i)
               (with_timers (timers st ++ [timer])
                  (upd_chan r (fun ch' => set_waiters (waiters ch' ++ [waiter]) ch') st)),
             [])
      end
  | Leave name =>
      match _leaveChannel st name with
      | (false, eff) => (st, eff ++ [EReply sock ROk])
      | (true, eff) => (suspend (KLeave name sock) st, eff)
      end
  | Status =>
      (st, [EReply sock
              (RStatus
                 (flat_map (fun nr => match chan_store st !! snd nr with
                                      | Some ch => [(fst nr, (length (ch_peers ch),
                                                              length (messages ch)))]
                                      | None => []
                                      end) (channels st))
                 (id st))])
  | Ping => (st, [EReply sock ROk])
  | Stop => (suspend (KStop sock) st, [EReply sock ROk; EShutdown])
  | Unknown action =>
      (st, [EReply sock (RError ("Unknown action: " ++ action)%string)])
  end.

(** The timer and the [waiter] closure a suspending read creates, and
    the state it leaves *)
Definition read_timer (st : Daemon) (r : Ref) (timeout : option Z) (sock : Socket)
    : Timer :=
  {| tid := next_id st;
     deadline := (now st + setTimeout_delay (timeout_or_default timeout * 1000))%Z;
     tch := r; tsock := sock |}.

Definition read_waiter (st : Daemon) (sock : Socket) : Waiter :=
  {| wid := next_id st; wsock := sock |}.

Definition after_read (st : Daemon) (r : Ref) (timeout : option Z) (sock : Socket)
    : Daemon :=
  with_next_id (S (next_id st))
    (with_timers (timers st ++ [read_timer st r timeout sock])
       (upd_chan r (fun ch' => set_waiters (waiters ch' ++ [read_waiter st sock]) ch') st)).

Fixpoint take_cont (k : nat) (l : list (nat * Cont))
    : option (Cont * list (nat * Cont)) :=
  match l with
  | [] => None
  | (k', c) :: r =>
      if k =? k' then Some (c, r)
      else match take_cont k r with
           | Some (c', r') => Some (c', (k', c) :: r')
           | None => None
           end
  end.

(** The rest of an [_exec] call once the promise it awaits is fulfilled *)
Definition resume (st : Daemon) (k : nat) : Daemon * list Effect :=
  match take_cont k (suspended st) with
  | None => (st, [])
  | Some (c, rest) =>
      let st0 := with_suspended rest st in
      match c with
      | KJoin name topic handle sock =>
          let '(st2, eff) := _joinChannel_flushed st0 name topic handle in
          (st2, eff ++ [EReply sock (RJoined name)])
      | KLeave name sock =>
          (_leaveChannel_destroyed st0 name, [EReply sock ROk])
      | KStop _ => (with_exited true st0, [])
      end
  end.

Definition cont_sock (c : Cont) : Socket :=
  match c with
  | KJoin _ _ _ sock => sock
  | KLeave _ sock => sock
  | KStop sock => sock
  end.

(** The awaited promise is rejected: [catch (e) { reply({ ok: false,
    error: e.message }) }] *)
Definition reject (st : Daemon) (k : nat) (err : string) : Daemon * list Effect :=
  match take_cont k (suspended st) with
  | None => (st, [])
  | Some (c, rest) => (with_suspended rest st, [EReply (cont_sock c) (RError err)])
  end.

(** *** Timers *)

(** The callback given to [setTimeout] by a suspended read:
    [ch.waiters = ch.waiters.filter(w => w !== waiter);
     reply({ ok: true, messages: [] })] *)
Definition timer_callback (acc : Daemon * list Effect) (t : Timer)
    : Daemon * list Effect :=
  let '(st, eff) := acc in
  (upd_chan (tch t)
     (fun ch => set_waiters (List.filter (fun w => negb (wid w =? tid t)) (waiters ch)) ch)
     st,
   eff ++ [EReply (tsock t) (RMessages [])]).

Definition is_due (t0 : Z) (t : Timer) : bool := (deadline t <=? t0)%Z.

(** The clock advances by one millisecond and the timers that are due
    run, in the order they were armed. *)
Definition tick (st : Daemon) : Daemon * list Effect :=
  let t0 := (now st + 1)%Z in
  let due := List.filter (is_due t0) (timers st) in
  let st' := with_timers (List.filter (fun t => negb (is_due t0 t)) (timers st))
               (with_now t0 st) in
  fold_left timer_callback due (st', []).

(** ** The event loop *)

Definition step (st : Daemon) (ev : Event) : Daemon * list Effect :=
  if exited st then (st, [])
  else
    match ev with
    | Exec cmd sock => _exec st cmd sock
    | Resume k => resume st k
    | Reject k err => reject st k err
    | PeerConnect key => _onPeer st key
    | PeerData c chunk => onPeerData st c chunk
    | PeerClose c => onPeerClose st c
    | PeerError c => onPeerError st c
    | Tick => tick st
    end.

Fixpoint run (st : Daemon) (evs : list Event) : Daemon * list Effect :=
  match evs with
  | [] => (st, [])
  | ev :: rest =>
      let '(st1, eff1) := step st ev in
      let '(st2, eff2) := run st1 rest in
      (st2, eff1 ++ eff2)
  end.

(** [n] milliseconds pass with no other event *)
Definition ticks (n : nat) (st : Daemon) : Daemon * list Effect :=
  run st (repeat Tick n).

Definition reachable (st : Daemon) : Prop :=
  exists i evs, st = fst (run (init i) evs).

(** [st'] is [st] once the clock has reached [t0] with no other event:
    the timers due by [t0] are gone, their waiters are out of the queues
    of the channel objects the timers close over, and nothing else has
    changed. *)
Definition aged (t0 : Z) (st st' : Daemon) : Prop :=
  id st' = id st /\ channels st' = channels st /\ peers st' = peers st /\
  conn_store st' = conn_store st /\ suspended st' = suspended st /\
  next_id st' = next_id st /\ exited st' = exited st /\ now st' = t0 /\
  timers st' = List.filter (fun t => negb (is_due t0 t)) (timers st) /\
  forall r,
    chan_store st' !! r =
      (fun ch => set_waiters
                   (List.filter
                      (fun w => negb (fired_by (List.filter (is_due t0) (timers st)) r w))
                      (waiters ch)) ch) <$> chan_store st !! r.

(** ** Control sockets *)

(** [JSON.parse(line)] as seen by [_onIPC]: the command object handed
    to [_exec], or the message of the error thrown on the way. *)
Variable JSON_parse_command : string -> string + Command.

(** [_exec] reaches its [await] with a promise that is already settled:
    [_joinChannel] or [_leaveChannel] returned without waiting.  The rest
    of the call, its reply, then runs as a microtask, once the handler
    that called [_exec] has returned. *)
Definition replies_in_microtask (st : Daemon) (cmd : Command) : bool :=
  match cmd with
  | Join name secret =>
      match fst (_joinChannel st name secret) with
      | None => true
      | Some _ => false
      end
  | Leave name => negb (fst (_leaveChannel st name))
  | _ => false
  end.

(** One round of the framing loop of [_onIPC]:
    [if (line.trim()) { try { this._exec(JSON.parse(line), socket) }
     catch (e) { socket.write(JSON.stringify({ ok: false, error: e.message }) + '\n') } }].
    The accumulator holds the daemon, the calls made so far and the
    calls of the microtasks queued so far. *)
Definition onIPCLine (sock : Socket) (acc : Daemon * list Effect * list Effect)
    (line : string) : Daemon * list Effect * list Effect :=
  let '(st, made, later) := acc in
  if trim_is_empty line then acc
  else match JSON_parse_command line with
       | inl err => (st, made ++ [EReply sock (RError err)], later)
       | inr cmd =>
           let '(st', eff) := _exec st cmd sock in
           if replies_in_microtask st cmd then (st', made, later ++ eff)
           else (st', made ++ eff, later)
       end.

(** The ['data'] handler that [_onIPC(socket)] registers, with the [buf]
    of its closure passed in and out.  A socket it destroyed emits no
    further data. *)
Definition onIPCData (st : Daemon) (sock : Socket) (buf0 chunk : string)
    : IpcResult :=
  let b := (buf0 ++ chunk)%string in
  if (MAX_IPC_BUFFER <? js_length b)%Z then
    {| ipc_daemon := st; ipc_buf := b; ipc_destroyed := true;
       ipc_effects := [EReply sock (RError "Request too large")] |}
  else
    let '(lines, rest) := split_lines b in
    let '(st', made, later) := fold_left (onIPCLine sock) lines (st, [], []) in
    {| ipc_daemon := st'; ipc_buf := rest; ipc_destroyed := false;
       ipc_effects := made ++ later |}.

(** The commands of the complete lines of a buffer, in order: the lines
    that are not blank and that parse *)
Definition commands_of (lines : list string) : list Command :=
  flat_map (fun line =>
              if trim_is_empty line then []
              else match JSON_parse_command line with
                   | inr cmd => [cmd]
                   | inl _ => []
                   end) lines.

(** ** Properties *)

(** *** Text *)

Lemma byteLength_from_length (s : string) (acc : Z) :
  byteLength_from acc s = (acc + Z.of_nat (String.length s))%Z.
Proof.
  revert acc; induction s as [|c s IH]; intros acc; simpl.
  - lia.
  - rewrite IH. lia.
Qed.

Lemma too_large_gt (s : string) :
  too_large (Some s) = (MAX_MESSAGE_SIZE <? byteLength s)%Z.
Proof.
  destruct s as [|c s]; simpl.
  - reflexivity.
  - reflexivity.
Qed.

(** *** Registry lookups *)

Lemma get_channel_has (st : Daemon) (name : string) (r : Ref) (ch : Channel) :
  get_channel st name = Some (r, ch) -> map_has name (channels st) = true.
Proof.
  unfold get_channel, map_has.
  destruct (map_get name (channels st)); [reflexivity | discriminate].
Qed.

Lemma get_channel_upd_chan (st : Daemon) (name : string) (r : Ref) (ch : Channel)
    (f : Channel -> Channel) :
  get_channel st name = Some (r, ch) ->
  get_channel (upd_chan r f st) name = Some (r, f ch).
Proof.
  unfold get_channel, upd_chan; simpl.
  destruct (map_get name (channels st)) as [r'|]; [|discriminate].
  destruct (chan_store st !! r') as [ch'|] eqn:E; [|discriminate].
  intros H; injection H as -> ->.
  rewrite list_lookup_alter_eq, E. reflexivity.
Qed.

(** *** Joining a name that is already joined *)

Lemma joinChannel_existing (st : Daemon) (name secret : string) (sock : Socket) :
  map_has name (channels st) = true ->
  _exec st (Join name secret) sock = (st, [EReply sock (RJoined name)]).
Proof. intros H. unfold _exec, _joinChannel. rewrite H. reflexivity. Qed.

(** C4: [_joinChannel] on a name that is already in the registry
    returns at once having called nothing, and the [join] command replies
    [{ok:true, channel}] and does nothing else: no topic is derived, the
    swarm is not asked to join, and the daemon state (registry size, the
    channel's topic, matched peers, buffer and waiters) is what it was. *)
Theorem join_existing_is_noop (st : Daemon) (name secret : string) (sock : Socket) :
  map_has name (channels st) = true ->
  _joinChannel st name secret = (None, []) /\
  let '(st', eff) := _exec st (Join name secret) sock in
  eff = [EReply sock (RJoined name)] /\
  (forall n s, ~ In (EDeriveTopic n s) eff) /\
  (forall t, ~ In (ESwarmJoin t) eff) /\
  length (channels st') = length (channels st) /\
  get_channel st' name = get_channel st name /\
  st' = st.
Proof.
  intros H. split; [unfold _joinChannel; rewrite H; reflexivity|].
  rewrite (joinChannel_existing _ _ _ _ H).
  repeat split.
  - intros n s [E|[]]. discriminate E.
  - intros t [E|[]]. discriminate E.
Qed.

(** C10: when the name is already joined, a join carrying any other
    secret gets the same [{ok:true, channel}] reply; the secret is not
    looked at, and the channel keeps the topic derived from the secret it
    was created with. *)
Theorem join_existing_ignores_secret (st : Daemon) (name s1 s2 : string)
    (sock : Socket) (r : Ref) (ch : Channel) :
  get_channel st name = Some (r, ch) ->
  topicHex ch = deriveTopic scryptSync name s1 ->
  let '(st', eff) := _exec st (Join name s2) sock in
  eff = [EReply sock (RJoined name)] /\
  (exists ch', get_channel st' name = Some (r, ch') /\
               topicHex ch' = deriveTopic scryptSync name s1) /\
  (st', eff) = _exec st (Join name s1) sock.
Proof.
  intros Hget Htopic.
  pose proof (get_channel_has _ _ _ _ Hget) as Hhas.
  rewrite !(joinChannel_existing _ _ _ _ Hhas).
  split; [reflexivity|]. split; [|reflexivity].
  exists ch. split; assumption.
Qed.

(** *** Size check of the [send] command *)

Lemma send_too_large (st : Daemon) (name s : string) (sock : Socket) :
  (MAX_MESSAGE_SIZE < byteLength s)%Z ->
  _exec st (Send name (Some s)) sock =
    (st, [EReply sock (RError "Message too large (max 256KB)")]).
Proof.
  intros H. unfold _exec. rewrite too_large_gt.
  apply Z.ltb_lt in H. rewrite H. reflexivity.
Qed.

Lemma send_not_too_large (st : Daemon) (name : string) (m : option string) (sock : Socket) :
  too_large m = false ->
  _exec st (Send name m) sock =
    match _send st name m with
    | inl err => (st, [EReply sock (RError err)])
    | inr (count, writes) => (st, writes ++ [EReply sock (RDelivered count)])
    end.
Proof. intros H. unfold _exec. rewrite H. reflexivity. Qed.

(** C8: an oversized [send] command is answered with the size error before the
    channel is looked up; on a name that is not joined the reply is the
    size error and not the membership error. *)
Theorem oversized_send_checked_before_membership (st : Daemon) (name s : string)
    (sock : Socket) :
  (MAX_MESSAGE_SIZE < byteLength s)%Z ->
  get_channel st name = None ->
  _exec st (Send name (Some s)) sock =
    (st, [EReply sock (RError "Message too large (max 256KB)")]) /\
  ~ In (EReply sock (RError ("Not in channel: " ++ name)%string))
       (snd (_exec st (Send name (Some s)) sock)).
Proof.
  intros Hbig _. rewrite (send_too_large _ _ _ _ Hbig). split; [reflexivity|].
  simpl. intros [E|[]]. discriminate E.
Qed.

(** *** Immediate reads *)

(** C6: a read of a name that is not joined replies the membership
    error; a read of a joined channel whose buffer is not empty, or that
    did not ask to wait, replies at once with the whole buffer in order
    (possibly the empty list) and leaves the buffer empty. *)
Theorem read_immediate (st : Daemon) (name : string) (wait : bool)
    (timeout : option Z) (sock : Socket) :
  (get_channel st name = None ->
   _exec st (Read name wait timeout) sock =
     (st, [EReply sock (RError ("Not in channel: " ++ name)%string)])) /\
  (forall r ch,
     get_channel st name = Some (r, ch) ->
     messages ch <> [] \/ wait = false ->
     let '(st', eff) := _exec st (Read name wait timeout) sock in
     eff = [EReply sock (RMessages (messages ch))] /\
     st' = upd_chan r (set_messages []) st /\
     exists ch', get_channel st' name = Some (r, ch') /\
                 messages ch' = [] /\
                 waiters ch' = waiters ch /\
                 ch_peers ch' = ch_peers ch /\
                 topicHex ch' = topicHex ch).
Proof.
  split.
  - intros H. unfold _exec. rewrite H. reflexivity.
  - intros r ch Hget Hnow. unfold _exec. rewrite Hget.
    assert (nonempty (messages ch) || negb wait = true) as ->.
    { destruct Hnow as [Hm | ->].
      - destruct (messages ch); [congruence | reflexivity].
      - apply orb_true_r. }
    split; [reflexivity|]. split; [reflexivity|].
    exists (set_messages [] ch). split.
    + apply get_channel_upd_chan. exact Hget.
    + repeat split.
Qed.

(** *** Sending *)

Lemma send_targets_spec (st : Daemon) (ch : Channel) (c : ConnId) :
  In c (send_targets st ch) <->
  exists key p, In key (ch_peers ch) /\ map_get key (peers st) = Some c /\
                conn_store st !! c = Some p /\ writable p = true.
Proof.
  unfold send_targets. rewrite in_flat_map. split.
  - intros (key & Hin & Hc).
    destruct (map_get key (peers st)) as [c'|] eqn:Hk; [|destruct Hc].
    destruct (conn_store st !! c') as [p|] eqn:Hp; [|destruct Hc].
    destruct (writable p) eqn:Hw; [|destruct Hc].
    destruct Hc as [<-|[]]. exists key, p. auto.
  - intros (key & p & Hin & Hk & Hp & Hw).
    exists key. split; [exact Hin|]. rewrite Hk, Hp, Hw. left. reflexivity.
Qed.

Lemma send_unjoined (st : Daemon) (name : string) (m : option string) :
  get_channel st name = None ->
  _send st name m = inl ("Not in channel: " ++ name)%string.
Proof. intros H. unfold _send. rewrite H. reflexivity. Qed.

Lemma send_joined (st : Daemon) (name : string) (m : option string) (r : Ref)
    (ch : Channel) :
  get_channel st name = Some (r, ch) ->
  _send st name m =
    inr (length (send_targets st ch),
         map (fun c => EPeerWrite c (WMsg (topicHex ch) m (id st) (now st)))
             (send_targets st ch)).
Proof. intros H. unfold _send. rewrite H. reflexivity. Qed.

(** C5: [_send] on a name that is not joined throws the membership
    error whatever the peer registry holds; on a joined channel it writes
    the message to the writable connections registered for the channel's
    matched peers and returns how many it wrote to, which is 0, and not an
    error, when no peer is matched.  The [_send] command replies
    accordingly when the message is within the size limit. *)
Theorem send_result (st : Daemon) (name : string) (m : option string) (sock : Socket) :
  (get_channel st name = None ->
   (forall ps cs, _send (with_peers ps (with_conn_store cs st)) name m =
                  inl ("Not in channel: " ++ name)%string) /\
   (too_large m = false ->
    _exec st (Send name m) sock =
      (st, [EReply sock (RError ("Not in channel: " ++ name)%string)]))) /\
  (forall r ch,
     get_channel st name = Some (r, ch) ->
     let targets := send_targets st ch in
     let writes := map (fun c => EPeerWrite c (WMsg (topicHex ch) m (id st) (now st)))
                       targets in
     _send st name m = inr (length targets, writes) /\
     (forall c, In c targets <->
                exists key p, In key (ch_peers ch) /\ map_get key (peers st) = Some c /\
                              conn_store st !! c = Some p /\ writable p = true) /\
     (too_large m = false ->
      _exec st (Send name m) sock =
        (st, writes ++ [EReply sock (RDelivered (length targets))])) /\
     (ch_peers ch = [] ->
      _send st name m = inr (0, []) /\
      (too_large m = false ->
       _exec st (Send name m) sock = (st, [EReply sock (RDelivered 0)])))).
Proof.
  split.
  - intros Hnone. split.
    + intros ps cs. apply send_unjoined.
      unfold get_channel in *; simpl.
      destruct (map_get name (channels st)) as [r|]; [|reflexivity].
      (* the store of channels is not part of the peer state *)
      exact Hnone.
    + intros Hfit. rewrite (send_not_too_large _ _ _ _ Hfit).
      rewrite (send_unjoined _ _ _ Hnone). reflexivity.
  - intros r ch Hget targets writes.
    pose proof (send_joined _ _ m _ _ Hget) as Hsend. fold targets in Hsend.
    fold writes in Hsend.
    split; [exact Hsend|]. split; [apply send_targets_spec|]. split.
    + intros Hfit. rewrite (send_not_too_large _ _ _ _ Hfit), Hsend. reflexivity.
    + intros Hnil.
      assert (targets = []) as Ht.
      { unfold targets, send_targets. rewrite Hnil. reflexivity. }
      assert (writes = []) as Hw.
      { unfold writes. rewrite Ht. reflexivity. }
      split.
      * rewrite Hsend, Ht, Hw. reflexivity.
      * intros Hfit. rewrite (send_not_too_large _ _ _ _ Hfit), Hsend, Ht, Hw.
        reflexivity.
Qed.

(** *** Routing of an inbound entry *)

Lemma find_topic_Some (store : list Channel) (t : string) (m : list (string * Ref))
    (r : Ref) :
  find_topic store t m = Some r ->
  exists ch name, In (name, r) m /\ store !! r = Some ch /\ topicHex ch = t.
Proof.
  induction m as [|[n r'] m IH]; simpl; [discriminate|].
  destruct (store !! r') as [ch|] eqn:E.
  - destruct (String.eqb (topicHex ch) t) eqn:Et.
    + intros H; injection H as <-. apply String.eqb_eq in Et.
      exists ch, n. auto.
    + intros H. destruct (IH H) as (ch' & n' & ? & ? & ?). exists ch', n'. auto.
  - intros H. destruct (IH H) as (ch' & n' & ? & ? & ?). exists ch', n'. auto.
Qed.

Lemma route_buffers (st : Daemon) (r : Ref) (entry : Entry) (ch : Channel) :
  chan_store st !! r = Some ch -> waiters ch = [] ->
  route st r entry =
    (upd_chan r (fun ch' => set_messages (messages ch' ++ [entry]) ch') st, []).
Proof. intros H Hw. unfold route. rewrite H, Hw. reflexivity. Qed.

Lemma route_delivers (st : Daemon) (r : Ref) (entry : Entry) (ch : Channel)
    (w : Waiter) (ws : list Waiter) :
  chan_store st !! r = Some ch -> waiters ch = w :: ws ->
  route st r entry =
    (with_timers (List.filter (fun t => negb (tid t =? wid w)) (timers st))
       (upd_chan r (fun ch' => set_waiters (tl (waiters ch')) ch') st),
     [EReply (wsock w) (RMessages [entry])]).
Proof. intros H Hw. unfold route. rewrite H, Hw. reflexivity. Qed.

Lemma onPeerMsg_msg_fits (st : Daemon) (key t : string) (c : ConnId) (r : Ref)
    (payload sender : option string) (sent : option Z) :
  map_get key (peers st) = Some c ->
  too_large payload = false ->
  find_topic (chan_store st) t (channels st) = Some r ->
  _onPeerMsg st key (PMsg (Some t) payload sender sent) =
    route st r {| from := or_default sender (slice0 8 key); data := payload; ts := sent |}.
Proof. intros Hk Hfit Hr. unfold _onPeerMsg. rewrite Hk, Hfit, Hr. reflexivity. Qed.

Lemma onPeerMsg_msg_too_large (st : Daemon) (key : string) (topic : option string)
    (payload sender : option string) (sent : option Z) :
  too_large payload = true ->
  _onPeerMsg st key (PMsg topic payload sender sent) = (st, []).
Proof.
  intros Hbig. unfold _onPeerMsg.
  destruct (map_get key (peers st)); [|reflexivity]. rewrite Hbig. reflexivity.
Qed.

(** C7: a payload of exactly [MAX_MESSAGE_SIZE] bytes passes both size
    checks: the [send] command goes on to [_send], and an inbound [msg]
    record with it is routed to its channel, to the oldest waiter or to
    the end of the buffer.  A payload one byte longer gets the size error
    from the [send] command and is dropped by [_onPeerMsg]; neither
    changes the daemon state. *)
Theorem message_size_boundary (s : string) :
  (byteLength s = MAX_MESSAGE_SIZE ->
   (forall st name sock,
      _exec st (Send name (Some s)) sock =
        match _send st name (Some s) with
        | inl err => (st, [EReply sock (RError err)])
        | inr (count, writes) => (st, writes ++ [EReply sock (RDelivered count)])
        end) /\
   (forall st key c t r sender sent,
      map_get key (peers st) = Some c ->
      find_topic (chan_store st) t (channels st) = Some r ->
      let entry := {| from := or_default sender (slice0 8 key);
                      data := Some s; ts := sent |} in
      let '(st', eff) := _onPeerMsg st key (PMsg (Some t) (Some s) sender sent) in
      exists ch, chan_store st !! r = Some ch /\
        match waiters ch with
        | w :: ws =>
            eff = [EReply (wsock w) (RMessages [entry])] /\
            (waiters <$> chan_store st' !! r) = Some ws /\
            (messages <$> chan_store st' !! r) = Some (messages ch)
        | [] =>
            eff = [] /\
            (messages <$> chan_store st' !! r) = Some (messages ch ++ [entry]) /\
            (waiters <$> chan_store st' !! r) = Some []
        end)) /\
  (byteLength s = (MAX_MESSAGE_SIZE + 1)%Z ->
   (forall st name sock,
      _exec st (Send name (Some s)) sock =
        (st, [EReply sock (RError "Message too large (max 256KB)")])) /\
   (forall st key topic sender sent,
      _onPeerMsg st key (PMsg topic (Some s) sender sent) = (st, []))).
Proof.
  split.
  - intros Hlen.
    assert (too_large (Some s) = false) as Hfit.
    { rewrite too_large_gt. apply Z.ltb_ge. lia. }
    split.
    + intros st name sock. apply send_not_too_large. exact Hfit.
    + intros st key c t r sender sent Hk Hr entry.
      rewrite (onPeerMsg_msg_fits _ _ _ _ _ _ _ _ Hk Hfit Hr). fold entry.
      destruct (find_topic_Some _ _ _ _ Hr) as (ch & n & _ & Hch & _).
      destruct (waiters ch) as [|w ws] eqn:Hw.
      * rewrite (route_buffers _ _ _ _ Hch Hw). exists ch. split; [exact Hch|].
        rewrite Hw. unfold upd_chan; simpl.
        rewrite list_lookup_alter_eq, Hch. simpl. rewrite Hw. auto.
      * rewrite (route_delivers _ _ _ _ _ _ Hch Hw). exists ch. split; [exact Hch|].
        rewrite Hw. unfold upd_chan; simpl.
        rewrite list_lookup_alter_eq, Hch. simpl. rewrite Hw. auto.
  - intros Hlen. split.
    + intros st name sock. apply send_too_large. lia.
    + intros st key topic sender sent. apply onPeerMsg_msg_too_large.
      rewrite too_large_gt. apply Z.ltb_lt. lia.
Qed.

(** *** Buffer and waiters are never both non-empty *)

Lemma fold_left_inv {A B : Type} (P : A -> Prop) (f : A -> B -> A) (l : list B) (a : A) :
  P a -> (forall x b, P x -> P (f x b)) -> P (fold_left f l a).
Proof.
  intros Ha Hf. revert a Ha.
  induction l as [|b l IH]; intros a Ha; simpl; [exact Ha|].
  apply IH, Hf, Ha.
Qed.

Lemma store_ok_upd_chan (st : Daemon) (r : Ref) (f : Channel -> Channel) :
  store_ok st ->
  (forall ch, chan_store st !! r = Some ch -> quiet ch -> quiet (f ch)) ->
  store_ok (upd_chan r f st).
Proof. intros H Hf. unfold store_ok, upd_chan; simpl. apply Forall_alter; assumption. Qed.

Lemma store_ok_upd_peer (st : Daemon) (c : ConnId) (f : Peer -> Peer) :
  store_ok st -> store_ok (upd_peer c f st).
Proof. intros H. exact H. Qed.

Lemma match_one_ok (key : string) (c : ConnId) (topics : list string)
    (st : Daemon) (r : Ref) :
  store_ok st -> store_ok (match_one key c topics st r).
Proof.
  intros H. unfold match_one.
  destruct (chan_store st !! r) as [ch|]; [|exact H].
  destruct (set_has (topicHex ch) topics && negb (set_has key (ch_peers ch))); [|exact H].
  apply store_ok_upd_peer, store_ok_upd_chan; [exact H|].
  intros ch' _ Hq. exact Hq.
Qed.

Lemma match_topics_ok (key : string) (c : ConnId) (topics : list string) (st : Daemon) :
  store_ok st -> store_ok (match_topics key c topics st).
Proof.
  intros H. unfold match_topics. apply fold_left_inv; [exact H|].
  intros x b. apply match_one_ok.
Qed.

Lemma reannounce_ok (st : Daemon) : store_ok st -> store_ok (fst (_reannounce st)).
Proof.
  intros H. unfold _reannounce.
  apply (fold_left_inv (fun acc => store_ok (fst acc))); [exact H|].
  intros [s e] kc Hs; simpl in *.
  destruct (conn_store s !! snd kc) as [p|]; [|exact Hs].
  destruct (knownTopics p); simpl; [|exact Hs].
  apply match_topics_ok, Hs.
Qed.

Lemma route_ok (st : Daemon) (r : Ref) (entry : Entry) :
  store_ok st -> store_ok (fst (route st r entry)).
Proof.
  intros H. unfold route.
  destruct (chan_store st !! r) as [ch|] eqn:Hch; [|exact H].
  destruct (waiters ch) as [|w ws] eqn:Hw; simpl.
  - apply store_ok_upd_chan; [exact H|].
    intros ch' Hch' _. right. simpl. congruence.
  - apply (store_ok_upd_chan st r); [exact H|].
    intros ch' _ [Hm|Hq]; [left; exact Hm | right; simpl; rewrite Hq; reflexivity].
Qed.

Lemma onPeerMsg_ok (st : Daemon) (key : string) (msg : PeerRecord) :
  store_ok st -> store_ok (fst (_onPeerMsg st key msg)).
Proof.
  intros H. unfold _onPeerMsg.
  destruct (map_get key (peers st)) as [c|]; [|exact H].
  destruct msg as [topics | topic payload sender sent |]; simpl; [| |exact H].
  - apply match_topics_ok, store_ok_upd_peer, H.
  - destruct (too_large payload); [exact H|].
    destruct topic as [t|]; [|exact H].
    destruct (find_topic (chan_store st) t (channels st)); [|exact H].
    apply route_ok, H.
Qed.

Lemma onPeerLine_ok (key : string) (acc : Daemon * list Effect) (line : string) :
  store_ok (fst acc) -> store_ok (fst (onPeerLine key acc line)).
Proof.
  destruct acc as [s e]; simpl. intros H.
  destruct (is_blank line); [exact H|].
  destruct (JSON_parse line) as [msg|]; [|exact H].
  pose proof (onPeerMsg_ok s key msg H) as H'.
  destruct (_onPeerMsg s key msg). exact H'.
Qed.

Lemma onPeerData_ok (st : Daemon) (c : ConnId) (chunk : string) :
  store_ok st -> store_ok (fst (onPeerData st c chunk)).
Proof.
  intros H. unfold onPeerData.
  destruct (conn_store st !! c) as [p|]; [|exact H].
  destruct (negb (writable p)); [exact H|].
  destruct (MAX_PEER_BUFFER <? js_length (buf p ++ chunk))%Z; [exact H|].
  destruct (split_lines (buf p ++ chunk)) as [lines rest].
  apply (fold_left_inv (fun acc => store_ok (fst acc))); [exact H|].
  intros x b. apply onPeerLine_ok.
Qed.

Lemma onPeerClose_ok (st : Daemon) (c : ConnId) :
  store_ok st -> store_ok (fst (onPeerClose st c)).
Proof.
  intros H. unfold onPeerClose.
  destruct (conn_store st !! c) as [p|]; [|exact H].
  destruct (closed p); [exact H|]. simpl.
  change (store_ok (fold_left
            (fun s r => upd_chan r (fun ch => set_ch_peers
                           (set_delete (remoteKey p) (ch_peers ch)) ch) s)
            (map snd (channels st))
            (upd_peer c (fun p' => set_closed true (set_writable false p')) st))).
  apply fold_left_inv; [exact H|].
  intros x r Hx. apply store_ok_upd_chan; [exact Hx|]. intros ch _ Hq. exact Hq.
Qed.

Lemma exec_ok (st : Daemon) (cmd : Command) (sock : Socket) :
  store_ok st -> store_ok (fst (_exec st cmd sock)).
Proof.
  intros H. destruct cmd as [name secret | name m | name wait timeout | name | | | | a];
    simpl; try exact H.
  - unfold _joinChannel. destruct (map_has name (channels st)); exact H.
  - destruct (too_large m); [exact H|].
    destruct (_send st name m) as [err|[count writes]]; exact H.
  - destruct (get_channel st name) as [[r ch]|] eqn:Hget; [|exact H].
    assert (chan_store st !! r = Some ch) as Hch.
    { unfold get_channel in Hget. destruct (map_get name (channels st)); [|discriminate].
      destruct (chan_store st !! n) eqn:E; [|discriminate]. congruence. }
    destruct (nonempty (messages ch) || negb wait) eqn:Hnow; simpl.
    + apply store_ok_upd_chan; [exact H|]. intros ch' _ _. left. reflexivity.
    + apply (store_ok_upd_chan st r); [exact H|].
      intros ch' Hch' _. left. simpl.
      apply orb_false_elim in Hnow as [Hne _].
      assert (ch' = ch) as -> by congruence.
      destruct (messages ch); [reflexivity | discriminate].
  - unfold _leaveChannel. destruct (get_channel st name) as [[r ch]|]; exact H.
Qed.

Lemma resume_ok (st : Daemon) (k : nat) : store_ok st -> store_ok (fst (resume st k)).
Proof.
  intros H. unfold resume.
  destruct (take_cont k (suspended st)) as [[c rest]|]; [|exact H].
  destruct c as [name topic handle sock | name sock | sock]; try exact H.
  unfold _joinChannel_flushed.
  match goal with
  | |- context [_reannounce ?s] =>
      assert (store_ok s) as Hs;
      [| pose proof (reannounce_ok s Hs) as Hr; destruct (_reannounce s); exact Hr]
  end.
  unfold store_ok; simpl. apply Forall_app. split; [exact H|].
  constructor; [|constructor]. left. reflexivity.
Qed.

Lemma reject_ok (st : Daemon) (k : nat) (err : string) :
  store_ok st -> store_ok (fst (reject st k err)).
Proof.
  intros H. unfold reject.
  destruct (take_cont k (suspended st)) as [[c rest]|]; exact H.
Qed.

Lemma timer_callback_ok (acc : Daemon * list Effect) (t : Timer) :
  store_ok (fst acc) -> store_ok (fst (timer_callback acc t)).
Proof.
  destruct acc as [s e]; simpl. intros H.
  apply store_ok_upd_chan; [exact H|].
  intros ch _ [Hm|Hw]; [left; exact Hm | right; simpl; rewrite Hw; reflexivity].
Qed.

Lemma tick_ok (st : Daemon) : store_ok st -> store_ok (fst (tick st)).
Proof.
  intros H. unfold tick.
  apply (fold_left_inv (fun acc => store_ok (fst acc))); [exact H|].
  intros x b. apply timer_callback_ok.
Qed.

Lemma step_ok (st : Daemon) (ev : Event) :
  store_ok st -> store_ok (fst (step st ev)).
Proof.
  intros H. unfold step. destruct (exited st); [exact H|].
  destruct ev.
  - apply exec_ok, H.
  - apply resume_ok, H.
  - apply reject_ok, H.
  - exact H.
  - apply onPeerData_ok, H.
  - apply onPeerClose_ok, H.
  - unfold onPeerError. destruct (conn_store st !! c) as [p|]; [|exact H].
    destruct (writable p); exact H.
  - apply tick_ok, H.
Qed.

Lemma run_ok (evs : list Event) (st : Daemon) :
  store_ok st -> store_ok (fst (run st evs)).
Proof.
  revert st. induction evs as [|ev evs IH]; intros st H; simpl; [exact H|].
  pose proof (step_ok st ev H) as H1.
  destruct (step st ev) as [st1 e1]. simpl in H1.
  pose proof (IH st1 H1) as H2.
  destruct (run st1 evs) as [st2 e2]. exact H2.
Qed.

Lemma reachable_store_ok (st : Daemon) :
  reachable st -> store_ok st.
Proof.
  intros (i & evs & ->). apply run_ok. constructor.
Qed.

Lemma get_channel_lookup (st : Daemon) (name : string) (r : Ref) (ch : Channel) :
  get_channel st name = Some (r, ch) ->
  map_get name (channels st) = Some r /\ chan_store st !! r = Some ch.
Proof.
  unfold get_channel.
  destruct (map_get name (channels st)) as [r'|]; [|discriminate].
  destruct (chan_store st !! r') as [ch'|] eqn:E; [|discriminate].
  intros H; injection H as -> ->. auto.
Qed.

(** C2: in every reachable state a channel of the registry has an empty
    buffer or an empty waiter queue, and every event keeps it so.  An
    inbound entry goes to the oldest waiter alone when there is one and
    to the end of the buffer alone when there is none, touching no other
    channel; a read registers a waiter only when the buffer is empty. *)
Theorem buffer_and_waiters_exclusive (st : Daemon) (name : string) (r : Ref)
    (ch : Channel) :
  reachable st ->
  get_channel st name = Some (r, ch) ->
  (messages ch = [] \/ waiters ch = []) /\
  (forall ev, store_ok (fst (step st ev))) /\
  (forall entry,
     let '(st', eff) := route st r entry in
     (forall r', r' <> r -> chan_store st' !! r' = chan_store st !! r') /\
     match waiters ch with
     | w :: ws =>
         eff = [EReply (wsock w) (RMessages [entry])] /\
         chan_store st' !! r = Some (set_waiters ws ch)
     | [] =>
         eff = [] /\
         chan_store st' !! r = Some (set_messages (messages ch ++ [entry]) ch)
     end) /\
  (forall wait timeout sock,
     let '(st', eff) := _exec st (Read name wait timeout) sock in
     (chan_store st' !! r = Some (set_messages [] ch) /\
      eff = [EReply sock (RMessages (messages ch))]) \/
     (messages ch = [] /\ wait = true /\ eff = [] /\
      chan_store st' !! r =
        Some (set_waiters (waiters ch ++ [{| wid := next_id st; wsock := sock |}]) ch))).
Proof.
  intros Hreach Hget.
  pose proof (reachable_store_ok st Hreach) as Hok.
  destruct (get_channel_lookup _ _ _ _ Hget) as [Hname Hch].
  split; [|split; [|split]].
  - unfold store_ok in Hok. rewrite Forall_forall in Hok.
    apply Hok. eapply list_elem_of_lookup_2. exact Hch.
  - intros ev. apply step_ok, Hok.
  - intros entry. destruct (waiters ch) as [|w ws] eqn:Hw.
    + rewrite (route_buffers _ _ _ _ Hch Hw). split.
      * intros r' Hne. unfold upd_chan; simpl. apply list_lookup_alter_ne. congruence.
      * split; [reflexivity|]. unfold upd_chan; simpl.
        rewrite list_lookup_alter_eq, Hch. reflexivity.
    + rewrite (route_delivers _ _ _ _ _ _ Hch Hw). split.
      * intros r' Hne. unfold upd_chan; simpl. apply list_lookup_alter_ne. congruence.
      * split; [reflexivity|]. unfold upd_chan; simpl.
        rewrite list_lookup_alter_eq, Hch. simpl. rewrite Hw. reflexivity.
  - intros wait timeout sock. unfold _exec. rewrite Hget.
    destruct (nonempty (messages ch) || negb wait) eqn:Hnow.
    + left. split; [|reflexivity]. unfold upd_chan; simpl.
      rewrite list_lookup_alter_eq, Hch. reflexivity.
    + right. apply orb_false_elim in Hnow as [Hne Hwait].
      split; [destruct (messages ch); [reflexivity | discriminate]|].
      split; [destruct wait; [reflexivity | discriminate]|].
      split; [reflexivity|]. unfold upd_chan; simpl.
      rewrite list_lookup_alter_eq, Hch. reflexivity.
Qed.

(** *** Identities are fresh *)

Lemma Forall_List_filter {A : Type} (P : A -> Prop) (f : A -> bool) (l : list A) :
  Forall P l -> Forall P (List.filter f l).
Proof.
  induction 1 as [|x l Hx Hl IH]; simpl; [constructor|].
  destruct (f x); [constructor; assumption | assumption].
Qed.

Lemma take_cont_Forall (P : nat * Cont -> Prop) (k : nat) (l rest : list (nat * Cont))
    (c : Cont) :
  take_cont k l = Some (c, rest) -> Forall P l -> Forall P rest.
Proof.
  revert rest. induction l as [|[k' c'] l IH]; intros rest; simpl; [discriminate|].
  destruct (k =? k').
  - intros H; injection H as _ <-. intros HF. inversion HF; assumption.
  - destruct (take_cont k l) as [[c'' r']|]; [|discriminate].
    intros H; injection H as <- <-. intros HF. inversion HF; subst.
    constructor; [assumption|]. apply IH; [reflexivity | assumption].
Qed.

Lemma take_cont_last (k : nat) (l : list (nat * Cont)) (c : Cont) :
  Forall (fun kc => fst kc < k) l -> take_cont k (l ++ [(k, c)]) = Some (c, l).
Proof.
  induction 1 as [|[k' c'] l Hk Hl IH]; simpl.
  - rewrite Nat.eqb_refl. reflexivity.
  - simpl in Hk. destruct (k =? k') eqn:E.
    + apply Nat.eqb_eq in E. lia.
    + rewrite IH. reflexivity.
Qed.

Lemma ids_fresh_bump (st : Daemon) (ts : list Timer) (ks : list (nat * Cont)) :
  ids_fresh st ->
  Forall (fun t => tid t < S (next_id st)) ts ->
  Forall (fun kc => fst kc < S (next_id st)) ks ->
  Forall (fun t => tid t < S (next_id st)) (timers st ++ ts) /\
  Forall (fun kc => fst kc < S (next_id st)) (suspended st ++ ks).
Proof.
  intros [Ht Hk] Hts Hks. split; apply Forall_app; split; try assumption.
  - eapply Forall_impl; [exact Ht|]. simpl. intros. lia.
  - eapply Forall_impl; [exact Hk|]. simpl. intros. lia.
Qed.

Lemma suspend_fresh (k : Cont) (st : Daemon) : ids_fresh st -> ids_fresh (suspend k st).
Proof.
  intros H.
  destruct (ids_fresh_bump st [] [(next_id st, k)] H) as [Ht Hk].
  - constructor.
  - constructor; [simpl; lia | constructor].
  - unfold ids_fresh, suspend; simpl. rewrite app_nil_r in Ht. split; assumption.
Qed.

Lemma match_topics_fresh (key : string) (c : ConnId) (topics : list string) (st : Daemon) :
  ids_fresh st -> ids_fresh (match_topics key c topics st).
Proof.
  intros H. unfold match_topics. apply fold_left_inv; [exact H|].
  intros x r Hx. unfold match_one.
  destruct (chan_store x !! r) as [ch|]; [|exact Hx].
  destruct (set_has (topicHex ch) topics && negb (set_has key (ch_peers ch))); exact Hx.
Qed.

Lemma reannounce_fresh (st : Daemon) : ids_fresh st -> ids_fresh (fst (_reannounce st)).
Proof.
  intros H. unfold _reannounce.
  apply (fold_left_inv (fun acc => ids_fresh (fst acc))); [exact H|].
  intros [s e] kc Hs; simpl in *.
  destruct (conn_store s !! snd kc) as [p|]; [|exact Hs].
  destruct (knownTopics p); simpl; [|exact Hs].
  apply match_topics_fresh, Hs.
Qed.

Lemma route_fresh (st : Daemon) (r : Ref) (entry : Entry) :
  ids_fresh st -> ids_fresh (fst (route st r entry)).
Proof.
  intros H. unfold route.
  destruct (chan_store st !! r) as [ch|]; [|exact H].
  destruct (waiters ch) as [|w ws]; simpl; [exact H|].
  destruct H as [Ht Hk]. split; [|exact Hk]. simpl.
  apply Forall_List_filter, Ht.
Qed.

Lemma onPeerMsg_fresh (st : Daemon) (key : string) (msg : PeerRecord) :
  ids_fresh st -> ids_fresh (fst (_onPeerMsg st key msg)).
Proof.
  intros H. unfold _onPeerMsg.
  destruct (map_get key (peers st)) as [c|]; [|exact H].
  destruct msg as [topics | topic payload sender sent |]; simpl; [| |exact H].
  - apply match_topics_fresh. exact H.
  - destruct (too_large payload); [exact H|].
    destruct topic as [t|]; [|exact H].
    destruct (find_topic (chan_store st) t (channels st)); [|exact H].
    apply route_fresh, H.
Qed.

Lemma onPeerData_fresh (st : Daemon) (c : ConnId) (chunk : string) :
  ids_fresh st -> ids_fresh (fst (onPeerData st c chunk)).
Proof.
  intros H. unfold onPeerData.
  destruct (conn_store st !! c) as [p|]; [|exact H].
  destruct (negb (writable p)); [exact H|].
  destruct (MAX_PEER_BUFFER <? js_length (buf p ++ chunk))%Z; [exact H|].
  destruct (split_lines (buf p ++ chunk)) as [lines rest].
  apply (fold_left_inv (fun acc => ids_fresh (fst acc))); [exact H|].
  intros [s e] line Hs; simpl in *.
  destruct (is_blank line); [exact Hs|].
  destruct (JSON_parse line) as [msg|]; [|exact Hs].
  pose proof (onPeerMsg_fresh s (remoteKey p) msg Hs) as H'.
  destruct (_onPeerMsg s (remoteKey p) msg). exact H'.
Qed.

Lemma onPeerClose_fresh (st : Daemon) (c : ConnId) :
  ids_fresh st -> ids_fresh (fst (onPeerClose st c)).
Proof.
  intros H. unfold onPeerClose.
  destruct (conn_store st !! c) as [p|]; [|exact H].
  destruct (closed p); [exact H|]. simpl.
  change (ids_fresh (fold_left
            (fun s r => upd_chan r (fun ch => set_ch_peers
                           (set_delete (remoteKey p) (ch_peers ch)) ch) s)
            (map snd (channels st))
            (upd_peer c (fun p' => set_closed true (set_writable false p')) st))).
  apply fold_left_inv; [exact H|]. intros x r Hx. exact Hx.
Qed.

Lemma exec_fresh (st : Daemon) (cmd : Command) (sock : Socket) :
  ids_fresh st -> ids_fresh (fst (_exec st cmd sock)).
Proof.
  intros H. destruct cmd as [name secret | name m | name wait timeout | name | | | | a];
    simpl; try exact H.
  - unfold _joinChannel. destruct (map_has name (channels st)); [exact H|].
    apply suspend_fresh, H.
  - destruct (too_large m); [exact H|].
    destruct (_send st name m) as [err|[count writes]]; exact H.
  - destruct (get_channel st name) as [[r ch]|]; [|exact H].
    destruct (nonempty (messages ch) || negb wait); simpl; [exact H|].
    match goal with
    | |- context [timers st ++ [?t]] =>
        destruct (ids_fresh_bump st [t] [] H) as [Ht Hk]
    end.
    + constructor; [simpl; lia | constructor].
    + constructor.
    + rewrite app_nil_r in Hk. split; assumption.
  - unfold _leaveChannel. destruct (get_channel st name) as [[r ch]|]; [|exact H].
    apply suspend_fresh, H.
  - apply suspend_fresh, H.
Qed.

Lemma resume_fresh (st : Daemon) (k : nat) : ids_fresh st -> ids_fresh (fst (resume st k)).
Proof.
  intros H. unfold resume.
  destruct (take_cont k (suspended st)) as [[c rest]|] eqn:Hk; [|exact H].
  assert (ids_fresh (with_suspended rest st)) as H0.
  { destruct H as [Ht Hs]. split; [exact Ht|]. simpl.
    eapply take_cont_Forall; [exact Hk | exact Hs]. }
  destruct c as [name topic handle sock | name sock | sock]; try exact H0.
  unfold _joinChannel_flushed.
  match goal with
  | |- context [_reannounce ?s] =>
      assert (ids_fresh s) as Hs by exact H0;
      pose proof (reannounce_fresh s Hs) as Hr; destruct (_reannounce s); exact Hr
  end.
Qed.

Lemma tick_fresh (st : Daemon) : ids_fresh st -> ids_fresh (fst (tick st)).
Proof.
  intros [Ht Hk]. unfold tick.
  apply (fold_left_inv (fun acc => ids_fresh (fst acc))).
  - split; [|exact Hk]. simpl. apply Forall_List_filter, Ht.
  - intros [s e] t Hs. exact Hs.
Qed.

Lemma step_fresh (st : Daemon) (ev : Event) :
  ids_fresh st -> ids_fresh (fst (step st ev)).
Proof.
  intros H. unfold step. destruct (exited st); [exact H|].
  destruct ev.
  - apply exec_fresh, H.
  - apply resume_fresh, H.
  - unfold reject.
    destruct (take_cont k (suspended st)) as [[c rest]|] eqn:Hk; [|exact H].
    destruct H as [Ht Hs]. split; [exact Ht|]. simpl.
    eapply take_cont_Forall; [exact Hk | exact Hs].
  - exact H.
  - apply onPeerData_fresh, H.
  - apply onPeerClose_fresh, H.
  - unfold onPeerError. destruct (conn_store st !! c) as [p|]; [|exact H].
    destruct (writable p); exact H.
  - apply tick_fresh, H.
Qed.

Lemma reachable_ids_fresh (st : Daemon) : reachable st -> ids_fresh st.
Proof.
  intros (i & evs & ->).
  assert (ids_fresh (init i)) as H0 by (split; constructor).
  generalize (init i) H0. clear H0.
  induction evs as [|ev evs IH]; intros s Hs; simpl; [exact Hs|].
  pose proof (step_fresh s ev Hs) as H1.
  destruct (step s ev) as [s1 e1]. simpl in H1.
  pose proof (IH s1 H1) as H2.
  destruct (run s1 evs) as [s2 e2]. exact H2.
Qed.

(** *** Time passing *)

Lemma filter_true {A : Type} (l : list A) : List.filter (fun _ => true) l = l.
Proof. induction l as [|x l IH]; simpl; [reflexivity | rewrite IH; reflexivity]. Qed.

Lemma filter_twice {A : Type} (f g : A -> bool) (l : list A) :
  List.filter f (List.filter g l) = List.filter (fun x => g x && f x) l.
Proof.
  induction l as [|x l IH]; simpl; [reflexivity|].
  destruct (g x); simpl; [destruct (f x)|]; rewrite IH; reflexivity.
Qed.

Lemma is_due_mono (t1 t2 : Z) (t : Timer) :
  (t1 <= t2)%Z -> is_due t1 t = true -> is_due t2 t = true.
Proof. unfold is_due. intros H H1. apply Z.leb_le in H1. apply Z.leb_le. lia. Qed.

Lemma fired_by_split (T : list Timer) (t1 t2 : Z) (r : Ref) (w : Waiter) :
  (t1 <= t2)%Z ->
  fired_by (List.filter (is_due t2) T) r w =
    fired_by (List.filter (is_due t1) T) r w
    || fired_by (List.filter (is_due t2)
                   (List.filter (fun t => negb (is_due t1 t)) T)) r w.
Proof.
  intros Hle. unfold fired_by.
  induction T as [|t T IH]; simpl; [reflexivity|].
  destruct (is_due t1 t) eqn:D1.
  - rewrite (is_due_mono _ _ _ Hle D1). simpl. rewrite IH. apply orb_assoc.
  - simpl. destruct (is_due t2 t) eqn:D2; simpl; rewrite IH.
    + destruct ((tch t =? r) && (wid w =? tid t)); simpl;
        [rewrite orb_true_r; reflexivity | reflexivity].
    + reflexivity.
Qed.

Lemma set_waiters_same (ch : Channel) : set_waiters (waiters ch) ch = ch.
Proof. destruct ch; reflexivity. Qed.

Lemma filter_waiters_twice (f g : Waiter -> bool) (ch : Channel) :
  set_waiters (List.filter f (waiters (set_waiters (List.filter g (waiters ch)) ch)))
    (set_waiters (List.filter g (waiters ch)) ch) =
  set_waiters (List.filter (fun w => g w && f w) (waiters ch)) ch.
Proof. simpl. rewrite filter_twice. reflexivity. Qed.

Lemma filter_waiters_ext (f g : Waiter -> bool) (ch : Channel) :
  (forall w, f w = g w) ->
  set_waiters (List.filter f (waiters ch)) ch = set_waiters (List.filter g (waiters ch)) ch.
Proof. intros H. rewrite (filter_ext _ _ H). reflexivity. Qed.

Lemma callbacks_spec (l : list Timer) (s : Daemon) (e : list Effect) :
  let res := fold_left timer_callback l (s, e) in
  snd res = e ++ map (fun t => EReply (tsock t) (RMessages [])) l /\
  id (fst res) = id s /\ channels (fst res) = channels s /\
  peers (fst res) = peers s /\ conn_store (fst res) = conn_store s /\
  suspended (fst res) = suspended s /\ next_id (fst res) = next_id s /\
  exited (fst res) = exited s /\ now (fst res) = now s /\
  timers (fst res) = timers s /\
  forall r,
    chan_store (fst res) !! r =
      (fun ch => set_waiters
                   (List.filter (fun w => negb (fired_by l r w)) (waiters ch)) ch)
        <$> chan_store s !! r.
Proof.
  revert s e. induction l as [|t l IH]; intros s e; simpl.
  - rewrite app_nil_r. repeat split.
    intros r. destruct (chan_store s !! r) as [ch|]; simpl; [|reflexivity].
    unfold fired_by; simpl. rewrite filter_true, set_waiters_same. reflexivity.
  - specialize (IH (upd_chan (tch t)
                      (fun ch => set_waiters
                         (List.filter (fun w => negb (wid w =? tid t)) (waiters ch)) ch) s)
                   (e ++ [EReply (tsock t) (RMessages [])])).
    simpl in IH.
    destruct IH as (He & ? & ? & ? & ? & ? & ? & ? & ? & ? & Hst).
    rewrite He, <- app_assoc. repeat split; try assumption.
    intros r. rewrite Hst.
    destruct (decide (tch t = r)) as [->|Hne].
    + rewrite list_lookup_alter_eq.
      destruct (chan_store s !! r) as [ch|]; [|reflexivity].
      cbn [fmap option_fmap option_map]. f_equal.
      rewrite filter_waiters_twice. apply filter_waiters_ext.
      intros w. unfold fired_by. simpl. rewrite Nat.eqb_refl. simpl.
      rewrite negb_orb. reflexivity.
    + rewrite list_lookup_alter_ne by exact Hne.
      destruct (chan_store s !! r) as [ch|]; [|reflexivity].
      cbn [fmap option_fmap option_map]. f_equal.
      apply filter_waiters_ext. intros w. unfold fired_by. simpl.
      apply Nat.eqb_neq in Hne. rewrite Hne. reflexivity.
Qed.

Lemma tick_spec (st : Daemon) :
  aged (now st + 1) st (fst (tick st)) /\
  snd (tick st) =
    map (fun t => EReply (tsock t) (RMessages []))
        (List.filter (is_due (now st + 1)) (timers st)).
Proof.
  unfold tick.
  match goal with
  | |- context [fold_left timer_callback ?l (?s, ?e)] =>
      pose proof (callbacks_spec l s e) as H
  end.
  simpl in H. destruct H as (He & ? & ? & ? & ? & ? & ? & ? & ? & ? & Hst).
  split; [|exact He]. unfold aged. repeat split; assumption.
Qed.

Lemma aged_trans (t1 t2 : Z) (a b c : Daemon) :
  (t1 <= t2)%Z -> aged t1 a b -> aged t2 b c -> aged t2 a c.
Proof.
  intros Hle (A1 & A2 & A3 & A4 & A5 & A6 & A7 & A8 & A9 & A10)
             (B1 & B2 & B3 & B4 & B5 & B6 & B7 & B8 & B9 & B10).
  unfold aged. repeat split; try congruence.
  - rewrite B9, A9, filter_twice. apply filter_ext. intros t.
    destruct (is_due t1 t) eqn:D1; simpl; [|reflexivity].
    rewrite (is_due_mono _ _ _ Hle D1). reflexivity.
  - intros r. rewrite B10, A10, A9.
    destruct (chan_store a !! r) as [ch|]; [|reflexivity].
    cbn [fmap option_fmap option_map]. f_equal.
    rewrite filter_waiters_twice. apply filter_waiters_ext. intros w.
    rewrite (fired_by_split (timers a) t1 t2 r w Hle), negb_orb. reflexivity.
Qed.

Lemma run_cons (st : Daemon) (ev : Event) (evs : list Event) :
  run st (ev :: evs) =
    (fst (run (fst (step st ev)) evs),
     snd (step st ev) ++ snd (run (fst (step st ev)) evs)).
Proof.
  simpl. destruct (step st ev) as [s1 e1]. simpl.
  destruct (run s1 evs) as [s2 e2]. reflexivity.
Qed.

Lemma step_tick (st : Daemon) : exited st = false -> step st Tick = tick st.
Proof. intros H. unfold step. rewrite H. reflexivity. Qed.

Lemma ticks_succ (n : nat) (st : Daemon) :
  exited st = false ->
  ticks (S n) st =
    (fst (ticks n (fst (tick st))), snd (tick st) ++ snd (ticks n (fst (tick st)))).
Proof.
  intros H. unfold ticks. simpl repeat. rewrite run_cons, (step_tick _ H). reflexivity.
Qed.

Lemma ticks_aged (n : nat) (st : Daemon) :
  exited st = false ->
  aged (now st + Z.of_nat (S n)) st (fst (ticks (S n) st)).
Proof.
  revert st. induction n as [|n IH]; intros st Hex.
  - rewrite (ticks_succ 0 st Hex). simpl. apply tick_spec.
  - rewrite (ticks_succ (S n) st Hex). cbn [fst].
    destruct (tick_spec st) as [Ha _].
    assert (exited (fst (tick st)) = false) as Hex1.
    { destruct Ha as (_ & _ & _ & _ & _ & _ & E & _). congruence. }
    assert (now (fst (tick st)) = (now st + 1)%Z) as Hnow.
    { destruct Ha as (_ & _ & _ & _ & _ & _ & _ & E & _). exact E. }
    specialize (IH _ Hex1). rewrite Hnow in IH.
    replace (now st + 1 + Z.of_nat (S n))%Z with (now st + Z.of_nat (S (S n)))%Z in IH
      by lia.
    eapply aged_trans; [|exact Ha|exact IH]. lia.
Qed.

Lemma replies_to_app (sock : Socket) (e1 e2 : list Effect) :
  replies_to sock (e1 ++ e2) = replies_to sock e1 ++ replies_to sock e2.
Proof.
  induction e1 as [|x e1 IH]; simpl; [reflexivity|].
  destruct x; try exact IH.
  destruct (sock0 =? sock); simpl; rewrite IH; reflexivity.
Qed.

Lemma replies_to_callbacks (sock : Socket) (l : list Timer) :
  replies_to sock (map (fun t => EReply (tsock t) (RMessages [])) l) =
    repeat (RMessages []) (length (List.filter (fun t => tsock t =? sock) l)).
Proof.
  induction l as [|t l IH]; simpl; [reflexivity|].
  destruct (tsock t =? sock); simpl; rewrite IH; reflexivity.
Qed.

Lemma due_count_split (T : list Timer) (t1 t2 : Z) (sock : Socket) :
  (t1 <= t2)%Z ->
  length (List.filter (fun t => (tsock t =? sock) && is_due t2 t) T) =
    length (List.filter (fun t => tsock t =? sock) (List.filter (is_due t1) T)) +
    length (List.filter (fun t => (tsock t =? sock) && is_due t2 t)
              (List.filter (fun t => negb (is_due t1 t)) T)).
Proof.
  intros Hle. induction T as [|t T IH]; simpl; [reflexivity|].
  destruct (is_due t1 t) eqn:D1; simpl.
  - rewrite (is_due_mono _ _ _ Hle D1), andb_true_r.
    destruct (tsock t =? sock); simpl; rewrite IH; reflexivity.
  - destruct ((tsock t =? sock) && is_due t2 t); simpl; rewrite IH; lia.
Qed.

Lemma ticks_replies (n : nat) (st : Daemon) (sock : Socket) :
  exited st = false ->
  replies_to sock (snd (ticks (S n) st)) =
    repeat (RMessages [])
      (length (List.filter
                 (fun t => (tsock t =? sock) && is_due (now st + Z.of_nat (S n)) t)
                 (timers st))).
Proof.
  revert st. induction n as [|n IH]; intros st Hex.
  - rewrite (ticks_succ 0 st Hex). cbn [snd]. unfold ticks at 1. simpl run.
    rewrite app_nil_r. destruct (tick_spec st) as [_ ->].
    rewrite replies_to_callbacks, filter_twice.
    replace (now st + Z.of_nat 1)%Z with (now st + 1)%Z by lia.
    f_equal. f_equal. apply filter_ext. intros t. apply andb_comm.
  - rewrite (ticks_succ (S n) st Hex). cbn [snd]. rewrite replies_to_app.
    destruct (tick_spec st) as [Ha He].
    assert (exited (fst (tick st)) = false) as Hex1.
    { destruct Ha as (_ & _ & _ & _ & _ & _ & E & _). congruence. }
    rewrite (IH _ Hex1), He, replies_to_callbacks.
    destruct Ha as (_ & _ & _ & _ & _ & _ & _ & Hnow & Htm & _).
    rewrite Hnow, Htm, <- repeat_app. f_equal.
    replace (now st + 1 + Z.of_nat (S n))%Z with (now st + Z.of_nat (S (S n)))%Z by lia.
    symmetry. apply due_count_split. lia.
Qed.

(** *** A read that waits *)

Lemma exec_read_waits (st : Daemon) (name : string) (r : Ref) (ch : Channel)
    (timeout : option Z) (sock : Socket) :
  get_channel st name = Some (r, ch) -> messages ch = [] ->
  _exec st (Read name true timeout) sock = (after_read st r timeout sock, []).
Proof. intros Hget Hm. unfold _exec. rewrite Hget, Hm. reflexivity. Qed.

Lemma setTimeout_delay_pos (ms : Z) : (1 <= setTimeout_delay ms)%Z.
Proof.
  unfold setTimeout_delay.
  destruct ((1 <=? ms) && (ms <=? TIMEOUT_MAX))%Z eqn:E; [|lia].
  apply andb_prop in E as [E _]. apply Z.leb_le in E. exact E.
Qed.

Lemma setTimeout_delay_in_range (ms : Z) :
  (1 <= ms <= TIMEOUT_MAX)%Z -> setTimeout_delay ms = ms.
Proof.
  intros [H1 H2]. unfold setTimeout_delay.
  apply Z.leb_le in H1, H2. rewrite H1, H2. reflexivity.
Qed.

Lemma read_timer_due (st : Daemon) (r : Ref) (timeout : option Z) (sock : Socket)
    (m : nat) :
  is_due (now st + Z.of_nat m) (read_timer st r timeout sock) =
    (Z.to_nat (setTimeout_delay (timeout_or_default timeout * 1000)) <=? m).
Proof.
  unfold is_due, read_timer; simpl.
  pose proof (setTimeout_delay_pos (timeout_or_default timeout * 1000)) as Hpos.
  destruct (Z.to_nat (setTimeout_delay (timeout_or_default timeout * 1000)) <=? m) eqn:E.
  - apply Nat.leb_le in E. apply Z.leb_le. lia.
  - apply Nat.leb_gt in E. apply Z.leb_gt. lia.
Qed.

Lemma fired_by_app (l1 l2 : list Timer) (r : Ref) (w : Waiter) :
  fired_by (l1 ++ l2) r w = fired_by l1 r w || fired_by l2 r w.
Proof. unfold fired_by. apply existsb_app. Qed.

Lemma fired_by_fresh (l : list Timer) (f : Timer -> bool) (r : Ref) (w : Waiter) :
  Forall (fun t => tid t < wid w) l -> fired_by (List.filter f l) r w = false.
Proof.
  unfold fired_by. induction 1 as [|t l Ht Hl IH]; simpl; [reflexivity|].
  destruct (f t); simpl; [|exact IH].
  rewrite IH. assert ((wid w =? tid t) = false) as -> by (apply Nat.eqb_neq; lia).
  rewrite andb_false_r. reflexivity.
Qed.

Lemma find_topic_ext (s s' : list Channel) (t : string) (m : list (string * Ref)) :
  (forall r, topicHex <$> s' !! r = topicHex <$> s !! r) ->
  find_topic s' t m = find_topic s t m.
Proof.
  intros H. induction m as [|[n r] m IH]; simpl; [reflexivity|].
  specialize (H r).
  destruct (s' !! r) as [c'|], (s !! r) as [c|]; simpl in H; try discriminate.
  - injection H as ->. rewrite IH. reflexivity.
  - exact IH.
Qed.

Lemma after_read_ticks (st : Daemon) (r : Ref) (ch : Channel) (timeout : option Z)
    (sock : Socket) (n : nat) :
  exited st = false -> chan_store st !! r = Some ch ->
  ids_fresh st -> sock_unused sock st ->
  let d := Z.to_nat (setTimeout_delay (timeout_or_default timeout * 1000)) in
  let s := fst (ticks n (after_read st r timeout sock)) in
  exited s = false /\ peers s = peers st /\ channels s = channels st /\
  (exists kept,
     timers s = kept ++ (if n <? d then [read_timer st r timeout sock] else []) /\
     Forall (fun t => tsock t <> sock) kept) /\
  (forall r0,
     match chan_store s !! r0 with
     | Some ch0 =>
         exists ch1 kept,
           chan_store st !! r0 = Some ch1 /\
           topicHex ch0 = topicHex ch1 /\ messages ch0 = messages ch1 /\
           waiters ch0 =
             kept ++ (if (r0 =? r) && (n <? d) then [read_waiter st sock] else []) /\
           Forall (fun w => wsock w <> sock) kept /\
           (waiters ch1 = [] -> kept = [])
     | None => chan_store st !! r0 = None
     end).
Proof.
  intros Hex Hch [Hft _] [Hut Huw] d s.
  pose proof (setTimeout_delay_pos (timeout_or_default timeout * 1000)) as Hpos.
  assert (forall r0 c, chan_store st !! r0 = Some c ->
                       Forall (fun w => wsock w <> sock) (waiters c)) as Hunused.
  { intros r0 c Hc. rewrite Forall_lookup in Huw. exact (Huw r0 c Hc). }
  destruct n as [|n].
  - (* no time has passed *)
    subst s. unfold ticks. simpl.
    assert ((0 <? d) = true) as -> by (apply Nat.ltb_lt; unfold d; lia).
    repeat split; try assumption.
    + exists (timers st). split; [reflexivity | exact Hut].
    + intros r0. destruct (decide (r = r0)) as [<-|Hne].
      * rewrite list_lookup_alter_eq, Hch. simpl.
        exists ch, (waiters ch). rewrite Nat.eqb_refl. simpl.
        repeat split; [apply (Hunused r ch Hch) | intros ->; reflexivity].
      * rewrite list_lookup_alter_ne by exact Hne.
        destruct (chan_store st !! r0) as [c|] eqn:Hc; [|reflexivity].
        exists c, (waiters c).
        assert ((r0 =? r) = false) as -> by (apply Nat.eqb_neq; congruence).
        simpl. rewrite app_nil_r.
        repeat split; [apply (Hunused r0 c Hc) | intros ->; reflexivity].
  - (* [S n] milliseconds have passed *)
    assert (exited (after_read st r timeout sock) = false) as Hex1 by exact Hex.
    pose proof (ticks_aged n _ Hex1) as Ha. fold s in Ha.
    change (now (after_read st r timeout sock)) with (now st) in Ha.
    destruct Ha as (_ & A2 & A3 & _ & _ & _ & A7 & _ & A9 & A10).
    simpl in A2, A3, A7, A9.
    assert ((S n <? d) = negb (is_due (now st + Z.of_nat (S n))
                                 (read_timer st r timeout sock))) as Hdue.
    { rewrite read_timer_due. fold d. apply Nat.ltb_antisym. }
    repeat split; try congruence.
    + rewrite A9, List.filter_app. eexists. split.
      * f_equal. simpl. rewrite Hdue. reflexivity.
      * apply Forall_List_filter, Hut.
    + intros r0. rewrite A10. simpl chan_store.
      assert (forall c, chan_store st !! r0 = Some c ->
                fired_by (List.filter (is_due (now st + Z.of_nat (S n)))
                            (timers st ++ [read_timer st r timeout sock]))
                         r (read_waiter st sock) =
                is_due (now st + Z.of_nat (S n)) (read_timer st r timeout sock)) as Hfb.
      { intros c _. rewrite List.filter_app, fired_by_app.
        rewrite fired_by_fresh by exact Hft. simpl.
        destruct (is_due (now st + Z.of_nat (S n)) (read_timer st r timeout sock));
          [|reflexivity].
        unfold fired_by. simpl. rewrite !Nat.eqb_refl. reflexivity. }
      destruct (decide (r = r0)) as [<-|Hne].
      * rewrite list_lookup_alter_eq, Hch.
        cbn [fmap option_fmap option_map]. simpl waiters. simpl topicHex.
        simpl messages.
        exists ch. eexists. split; [reflexivity|]. split; [reflexivity|].
        split; [reflexivity|]. rewrite List.filter_app. split; [|split].
        -- f_equal. simpl. rewrite (Hfb ch Hch), Nat.eqb_refl, Hdue. reflexivity.
        -- apply Forall_List_filter, (Hunused r ch Hch).
        -- intros ->. reflexivity.
      * rewrite list_lookup_alter_ne by exact Hne.
        destruct (chan_store st !! r0) as [c|] eqn:Hc; [|reflexivity].
        cbn [fmap option_fmap option_map]. simpl waiters. simpl topicHex.
        simpl messages.
        exists c. eexists. split; [reflexivity|]. split; [reflexivity|].
        split; [reflexivity|].
        assert ((r0 =? r) = false) as -> by (apply Nat.eqb_neq; congruence).
        simpl. rewrite app_nil_r. split; [reflexivity|]. split.
        -- apply Forall_List_filter, (Hunused r0 c Hc).
        -- intros ->. reflexivity.
Qed.

Lemma filter_nil {A : Type} (f : A -> bool) (l : list A) :
  (forall x, In x l -> f x = false) -> List.filter f l = [].
Proof.
  induction l as [|x l IH]; intros H; simpl; [reflexivity|].
  rewrite (H x) by (left; reflexivity). apply IH. intros y Hy. apply H. right. exact Hy.
Qed.

Lemma route_replies (s : Daemon) (r : Ref) (entry : Entry) (sock : Socket) :
  (forall r0 c, chan_store s !! r0 = Some c ->
                Forall (fun w => wsock w <> sock) (waiters c)) ->
  replies_to sock (snd (route s r entry)) = [].
Proof.
  intros H. unfold route.
  destruct (chan_store s !! r) as [c|] eqn:Hc; [|reflexivity].
  destruct (waiters c) as [|w ws] eqn:Hw; [reflexivity|]. simpl.
  specialize (H r c Hc). rewrite Hw in H. inversion H as [|? ? Hne _]; subst.
  apply Nat.eqb_neq in Hne. rewrite Hne. reflexivity.
Qed.

Lemma onPeerMsg_replies (s : Daemon) (key : string) (msg : PeerRecord) (sock : Socket) :
  (forall r0 c, chan_store s !! r0 = Some c ->
                Forall (fun w => wsock w <> sock) (waiters c)) ->
  replies_to sock (snd (_onPeerMsg s key msg)) = [].
Proof.
  intros H. unfold _onPeerMsg.
  destruct (map_get key (peers s)) as [c|]; [|reflexivity].
  destruct msg as [topics | topic payload sender sent |]; [reflexivity| |reflexivity].
  destruct (too_large payload); [reflexivity|].
  destruct topic as [t|]; [|reflexivity].
  destruct (find_topic (chan_store s) t (channels s)); [|reflexivity].
  apply route_replies, H.
Qed.

Lemma ticks_no_reply (n : nat) (s : Daemon) (sock : Socket) :
  exited s = false ->
  (forall t, In t (timers s) -> tsock t <> sock) ->
  replies_to sock (snd (ticks n s)) = [].
Proof.
  intros Hex H. destruct n as [|n]; [reflexivity|].
  rewrite (ticks_replies n s sock Hex), filter_nil; [reflexivity|].
  intros t Ht. apply H in Ht. apply Nat.eqb_neq in Ht. rewrite Ht. reflexivity.
Qed.

Lemma in_repeat_pos {A : Type} (x : A) (k : nat) : 0 < k -> In x (repeat x k).
Proof. destruct k; [lia|]. intros _. left. reflexivity. Qed.

(** *** Registry entries point to channel objects *)

Lemma same_registry_trans (a b c : Daemon) :
  same_registry a b -> same_registry b c -> same_registry a c.
Proof. intros [A1 A2] [B1 B2]. split; congruence. Qed.

Lemma same_registry_upd_chan (st : Daemon) (r : Ref) (f : Channel -> Channel) :
  same_registry st (upd_chan r f st).
Proof. split; [reflexivity|]. unfold upd_chan; simpl. apply length_alter. Qed.

Lemma same_registry_valid (st st' : Daemon) :
  same_registry st st' -> refs_valid st -> refs_valid st'.
Proof. intros [Hc Hl] H. unfold refs_valid. rewrite Hc, Hl. exact H. Qed.

Lemma match_topics_registry (key : string) (c : ConnId) (topics : list string)
    (st : Daemon) :
  same_registry st (match_topics key c topics st).
Proof.
  unfold match_topics. apply fold_left_inv; [(split; reflexivity)|].
  intros x r Hx. unfold match_one.
  destruct (chan_store x !! r) as [ch|]; [|exact Hx].
  destruct (set_has (topicHex ch) topics && negb (set_has key (ch_peers ch))); [|exact Hx].
  eapply same_registry_trans; [exact Hx|].
  apply (same_registry_upd_chan x r).
Qed.

Lemma reannounce_registry (st : Daemon) : same_registry st (fst (_reannounce st)).
Proof.
  unfold _reannounce.
  apply (fold_left_inv (fun acc => same_registry st (fst acc)));
    [(split; reflexivity)|].
  intros [s e] kc Hs; simpl in *.
  destruct (conn_store s !! snd kc) as [p|]; [|exact Hs].
  destruct (knownTopics p); simpl; [|exact Hs].
  eapply same_registry_trans; [exact Hs | apply match_topics_registry].
Qed.

Lemma route_registry (st : Daemon) (r : Ref) (entry : Entry) :
  same_registry st (fst (route st r entry)).
Proof.
  unfold route. destruct (chan_store st !! r) as [ch|]; [|(split; reflexivity)].
  destruct (waiters ch); simpl; apply (same_registry_upd_chan st r).
Qed.

Lemma onPeerMsg_registry (st : Daemon) (key : string) (msg : PeerRecord) :
  same_registry st (fst (_onPeerMsg st key msg)).
Proof.
  unfold _onPeerMsg.
  destruct (map_get key (peers st)) as [c|]; [|(split; reflexivity)].
  destruct msg as [topics | topic payload sender sent |]; simpl;
    [| |(split; reflexivity)].
  - apply (match_topics_registry key c topics (upd_peer c (set_knownTopics (Some topics)) st)).
  - destruct (too_large payload); [(split; reflexivity)|].
    destruct topic as [t|]; [|(split; reflexivity)].
    destruct (find_topic (chan_store st) t (channels st)); [|(split; reflexivity)].
    apply route_registry.
Qed.

Lemma onPeerData_registry (st : Daemon) (c : ConnId) (chunk : string) :
  same_registry st (fst (onPeerData st c chunk)).
Proof.
  unfold onPeerData.
  destruct (conn_store st !! c) as [p|]; [|(split; reflexivity)].
  destruct (negb (writable p)); [(split; reflexivity)|].
  destruct (MAX_PEER_BUFFER <? js_length (buf p ++ chunk))%Z; [(split; reflexivity)|].
  destruct (split_lines (buf p ++ chunk)) as [lines rest].
  apply (fold_left_inv (fun acc => same_registry st (fst acc)));
    [(split; reflexivity)|].
  intros [s e] line Hs; simpl in *.
  destruct (is_blank line); [exact Hs|].
  destruct (JSON_parse line) as [msg|]; [|exact Hs].
  pose proof (onPeerMsg_registry s (remoteKey p) msg) as H'.
  destruct (_onPeerMsg s (remoteKey p) msg). simpl in *.
  eapply same_registry_trans; [exact Hs | exact H'].
Qed.

Lemma onPeerClose_registry (st : Daemon) (c : ConnId) :
  same_registry st (fst (onPeerClose st c)).
Proof.
  unfold onPeerClose.
  destruct (conn_store st !! c) as [p|]; [|(split; reflexivity)].
  destruct (closed p); [(split; reflexivity)|]. simpl.
  change (same_registry st (fold_left
            (fun s r => upd_chan r (fun ch => set_ch_peers
                           (set_delete (remoteKey p) (ch_peers ch)) ch) s)
            (map snd (channels st))
            (upd_peer c (fun p' => set_closed true (set_writable false p')) st))).
  apply fold_left_inv; [(split; reflexivity)|].
  intros x r Hx. eapply same_registry_trans; [exact Hx|].
  apply same_registry_upd_chan.
Qed.

Lemma exec_registry (st : Daemon) (cmd : Command) (sock : Socket) :
  same_registry st (fst (_exec st cmd sock)).
Proof.
  destruct cmd as [name secret | name m | name wait timeout | name | | | | a];
    simpl; try (split; reflexivity).
  - unfold _joinChannel. destruct (map_has name (channels st)); (split; reflexivity).
  - destruct (too_large m); [(split; reflexivity)|].
    destruct (_send st name m) as [err|[count writes]]; (split; reflexivity).
  - destruct (get_channel st name) as [[r ch]|]; [|(split; reflexivity)].
    destruct (nonempty (messages ch) || negb wait); simpl;
      apply (same_registry_upd_chan st r).
  - unfold _leaveChannel.
    destruct (get_channel st name) as [[r ch]|]; (split; reflexivity).
Qed.

Lemma map_set_valid (name : string) (n : nat) (m : list (string * Ref)) :
  Forall (fun nr => snd nr < n) m ->
  Forall (fun nr => snd nr < S n) (map_set name n m).
Proof.
  induction 1 as [|[k v] m Hk Hm IH]; simpl.
  - constructor; [simpl; lia | constructor].
  - simpl in Hk. destruct (String.eqb name k).
    + constructor; [simpl; lia|]. eapply Forall_impl; [exact Hm|]. simpl. intros. lia.
    + constructor; [simpl; lia | exact IH].
Qed.

Lemma resume_valid (st : Daemon) (k : nat) :
  refs_valid st -> refs_valid (fst (resume st k)).
Proof.
  intros H. unfold resume.
  destruct (take_cont k (suspended st)) as [[c rest]|]; [|exact H].
  destruct c as [name topic handle sock | name sock | sock]; [| |exact H].
  - unfold _joinChannel_flushed.
    match goal with
    | |- context [_reannounce ?s] =>
        assert (refs_valid s) as Hs;
        [| pose proof (same_registry_valid _ _ (reannounce_registry s) Hs) as Hr;
           destruct (_reannounce s); exact Hr]
    end.
    unfold refs_valid; simpl. rewrite last_length. apply map_set_valid, H.
  - unfold refs_valid; simpl. apply Forall_List_filter, H.
Qed.

Lemma tick_registry (st : Daemon) : same_registry st (fst (tick st)).
Proof.
  unfold tick.
  apply (fold_left_inv (fun acc => same_registry st (fst acc)));
    [(split; reflexivity)|].
  intros [s e] t Hs. simpl in *.
  eapply same_registry_trans; [exact Hs | apply same_registry_upd_chan].
Qed.

Lemma step_valid (st : Daemon) (ev : Event) :
  refs_valid st -> refs_valid (fst (step st ev)).
Proof.
  intros H. unfold step. destruct (exited st); [exact H|].
  destruct ev.
  - apply (same_registry_valid st); [apply exec_registry | exact H].
  - apply resume_valid, H.
  - unfold reject. destruct (take_cont k (suspended st)) as [[c rest]|]; exact H.
  - exact H.
  - apply (same_registry_valid st); [apply onPeerData_registry | exact H].
  - apply (same_registry_valid st); [apply onPeerClose_registry | exact H].
  - unfold onPeerError. destruct (conn_store st !! c) as [p|]; [|exact H].
    destruct (writable p); exact H.
  - apply (same_registry_valid st); [apply tick_registry | exact H].
Qed.

Lemma reachable_refs_valid (st : Daemon) : reachable st -> refs_valid st.
Proof.
  intros (i & evs & ->).
  assert (refs_valid (init i)) as H0 by constructor.
  generalize (init i) H0. clear H0.
  induction evs as [|ev evs IH]; intros s Hs; simpl; [exact Hs|].
  pose proof (step_valid s ev Hs) as H1.
  destruct (step s ev) as [s1 e1]. simpl in H1.
  pose proof (IH s1 H1) as H2.
  destruct (run s1 evs) as [s2 e2]. exact H2.
Qed.

Lemma map_get_In {V : Type} (k : string) (m : list (string * V)) (v : V) :
  map_get k m = Some v -> In (k, v) m.
Proof.
  induction m as [|[k' v'] m IH]; simpl; [discriminate|].
  destruct (String.eqb k k') eqn:E.
  - intros H; injection H as ->. apply String.eqb_eq in E. subst. left. reflexivity.
  - intros H. right. apply IH, H.
Qed.

(** In a reachable state [this.channels.get(name)] yields a channel
    object exactly when [this.channels.has(name)]. *)
Lemma registered_channel (st : Daemon) (name : string) :
  reachable st ->
  (map_has name (channels st) = true <-> exists r ch, get_channel st name = Some (r, ch)).
Proof.
  intros Hreach. split.
  - unfold map_has, get_channel.
    destruct (map_get name (channels st)) as [r|] eqn:Hg; [intros _ | discriminate].
    pose proof (reachable_refs_valid st Hreach) as Hv.
    unfold refs_valid in Hv. rewrite Forall_forall in Hv.
    apply map_get_In, list_elem_of_In, Hv in Hg. simpl in Hg.
    apply lookup_lt_is_Some_2 in Hg as [ch Hch]. rewrite Hch. eauto.
  - intros (r & ch & H). apply (get_channel_has _ _ _ _ H).
Qed.

(** *** Every queued waiter has its timer *)

Lemma queued_same (st st' : Daemon) (r : Ref) (w : Waiter) :
  (waiters <$> chan_store st' !! r) = (waiters <$> chan_store st !! r) ->
  queued st' r w -> queued st r w.
Proof.
  intros H (ch' & Hc & Hin). rewrite Hc in H. simpl in H.
  destruct (chan_store st !! r) as [ch|] eqn:E; simpl in H; [|discriminate].
  injection H as H. exists ch. split; [exact E|]. rewrite <- H. exact Hin.
Qed.

Lemma same_waiting_ok (st st' : Daemon) :
  same_waiting st st' -> waiters_ok st -> waiters_ok st'.
Proof.
  intros (Ht & Hn & Hid & Hw) (W & F & U1 & U2 & T1 & T2).
  split; [|split; [|split; [|split; [|split]]]].
  - intros r w Hq. apply (queued_same _ _ _ _ (Hw r)) in Hq.
    destruct (W r w Hq) as (t & ? & ? & ? & ? & ?). exists t.
    unfold armed_for. rewrite Ht, Hn. auto.
  - intros r w Hq. apply (queued_same _ _ _ _ (Hw r)) in Hq.
    specialize (F r w Hq). lia.
  - intros r ch' Hc. specialize (Hw r). rewrite Hc in Hw. simpl in Hw.
    destruct (chan_store st !! r) as [ch|] eqn:E; simpl in Hw; [|discriminate].
    injection Hw as ->. apply (U1 r ch E).
  - intros r1 r2 w1 w2 H1 H2. apply U2.
    + apply (queued_same _ _ _ _ (Hw r1)), H1.
    + apply (queued_same _ _ _ _ (Hw r2)), H2.
  - rewrite Ht. exact T1.
  - rewrite Ht. eapply Forall_impl; [exact T2|]. simpl. intros. lia.
Qed.

(** Closes [same_waiting st st'] when [st'] differs from [st] in
    fields the relation does not look at *)
Ltac same_fields :=
  split; [reflexivity | split; [reflexivity | split;
    [apply Nat.le_refl | intros; reflexivity]]].

Lemma same_waiting_refl (st : Daemon) : same_waiting st st.
Proof. same_fields. Qed.

Lemma same_waiting_trans (a b c : Daemon) :
  same_waiting a b -> same_waiting b c -> same_waiting a c.
Proof.
  intros (A1 & A2 & A3 & A4) (B1 & B2 & B3 & B4). repeat split; try congruence.
  lia.
Qed.

Lemma same_waiting_upd_chan (st : Daemon) (r : Ref) (f : Channel -> Channel) :
  (forall ch, waiters (f ch) = waiters ch) -> same_waiting st (upd_chan r f st).
Proof.
  intros Hf. repeat split; [apply Nat.le_refl|]. intros r'. unfold upd_chan; simpl.
  destruct (decide (r = r')) as [<-|Hne].
  - rewrite list_lookup_alter_eq. destruct (chan_store st !! r); simpl; [|reflexivity].
    rewrite Hf. reflexivity.
  - rewrite list_lookup_alter_ne by exact Hne. reflexivity.
Qed.

Lemma match_topics_same (key : string) (c : ConnId) (topics : list string) (st : Daemon) :
  same_waiting st (match_topics key c topics st).
Proof.
  unfold match_topics. apply fold_left_inv; [apply same_waiting_refl|].
  intros x r Hx. unfold match_one.
  destruct (chan_store x !! r) as [ch|]; [|exact Hx].
  destruct (set_has (topicHex ch) topics && negb (set_has key (ch_peers ch))); [|exact Hx].
  eapply same_waiting_trans; [exact Hx|].
  apply (same_waiting_trans _
           (upd_chan r (fun ch' => set_ch_peers (set_add key (ch_peers ch')) ch') x));
    [apply same_waiting_upd_chan; reflexivity | same_fields].
Qed.

Lemma reannounce_same (st : Daemon) : same_waiting st (fst (_reannounce st)).
Proof.
  unfold _reannounce.
  apply (fold_left_inv (fun acc => same_waiting st (fst acc))); [apply same_waiting_refl|].
  intros [s e] kc Hs; simpl in *.
  destruct (conn_store s !! snd kc) as [p|]; [|exact Hs].
  destruct (knownTopics p); simpl; [|exact Hs].
  eapply same_waiting_trans; [exact Hs | apply match_topics_same].
Qed.

Lemma onPeerClose_same (st : Daemon) (c : ConnId) :
  same_waiting st (fst (onPeerClose st c)).
Proof.
  unfold onPeerClose.
  destruct (conn_store st !! c) as [p|]; [|apply same_waiting_refl].
  destruct (closed p); [apply same_waiting_refl|]. simpl.
  change (same_waiting st (fold_left
            (fun s r => upd_chan r (fun ch => set_ch_peers
                           (set_delete (remoteKey p) (ch_peers ch)) ch) s)
            (map snd (channels st))
            (upd_peer c (fun p' => set_closed true (set_writable false p')) st))).
  apply fold_left_inv; [same_fields|].
  intros x r Hx. eapply same_waiting_trans; [exact Hx|].
  apply same_waiting_upd_chan. reflexivity.
Qed.

Lemma NoDup_map_filter {A B : Type} (f : A -> B) (g : A -> bool) (l : list A) :
  NoDup (map f l) -> NoDup (map f (List.filter g l)).
Proof.
  induction l as [|x l IH]; simpl; [intros; constructor|].
  intros H. apply NoDup_cons in H as [Hx Hl].
  destruct (g x); simpl; [|apply IH, Hl].
  apply NoDup_cons. split; [|apply IH, Hl].
  intros Hin. apply Hx. apply list_elem_of_In in Hin. apply list_elem_of_In.
  apply in_map_iff in Hin as (y & Hy & Hin). apply filter_In in Hin as [Hin _].
  apply in_map_iff. exists y. auto.
Qed.

Lemma route_waiters_ok (st : Daemon) (r : Ref) (entry : Entry) :
  waiters_ok st -> waiters_ok (fst (route st r entry)).
Proof.
  intros Hok. unfold route.
  destruct (chan_store st !! r) as [ch|] eqn:Hch; [|exact Hok].
  destruct (waiters ch) as [|w ws] eqn:Hw; simpl.
  - eapply same_waiting_ok; [|exact Hok]. apply same_waiting_upd_chan. reflexivity.
  - destruct Hok as (W & F & U1 & U2 & T1 & T2).
    assert (queued st r w) as Hhead.
    { exists ch. split; [exact Hch|]. rewrite Hw. left. reflexivity. }
    pose proof (U1 r ch Hch) as Hnd. rewrite Hw in Hnd. simpl in Hnd.
    apply NoDup_cons in Hnd as [Hnotin Hnd].
    set (st' := with_timers _ _).
    assert (forall r' w', queued st' r' w' -> queued st r' w' /\ wid w' <> wid w) as Hq.
    { intros r' w' (ch' & Hc' & Hin). unfold st', upd_chan in Hc'; simpl in Hc'.
      destruct (decide (r = r')) as [<-|Hne].
      - rewrite list_lookup_alter_eq, Hch in Hc'. simpl in Hc'.
        injection Hc' as <-. simpl in Hin. rewrite Hw in Hin. simpl in Hin. split.
        + exists ch. split; [exact Hch|]. rewrite Hw. right. exact Hin.
        + intros E. apply Hnotin. rewrite <- E. apply list_elem_of_In.
          apply in_map. exact Hin.
      - rewrite list_lookup_alter_ne in Hc' by exact Hne.
        assert (queued st r' w') as Hold by (exists ch'; auto).
        split; [exact Hold|]. intros E. apply Hne. symmetry.
        apply (U2 r' r w' w Hold Hhead E). }
    split; [|split; [|split; [|split; [|split]]]].
    + intros r' w' Hq'. destruct (Hq r' w' Hq') as [Hold Hne].
      destruct (W r' w' Hold) as (t & Hin & Hid & Hr & Hs & Hd).
      exists t. split; [|auto]. unfold st'; simpl. apply filter_In. split; [exact Hin|].
      apply negb_true_iff, Nat.eqb_neq. congruence.
    + intros r' w' Hq'. apply (F r' w'), Hq, Hq'.
    + intros r' ch' Hc'. unfold st', upd_chan in Hc'; simpl in Hc'.
      destruct (decide (r = r')) as [<-|Hne].
      * rewrite list_lookup_alter_eq, Hch in Hc'. simpl in Hc'.
        injection Hc' as <-. simpl. rewrite Hw. exact Hnd.
      * rewrite list_lookup_alter_ne in Hc' by exact Hne. apply (U1 r' ch' Hc').
    + intros r1 r2 w1 w2 H1 H2. apply U2; [apply Hq, H1 | apply Hq, H2].
    + unfold st'; simpl. apply NoDup_map_filter, T1.
    + unfold st'; simpl. apply Forall_List_filter, T2.
Qed.

Lemma onPeerMsg_waiters_ok (st : Daemon) (key : string) (msg : PeerRecord) :
  waiters_ok st -> waiters_ok (fst (_onPeerMsg st key msg)).
Proof.
  intros H. unfold _onPeerMsg.
  destruct (map_get key (peers st)) as [c|]; [|exact H].
  destruct msg as [topics | topic payload sender sent |]; simpl; [| |exact H].
  - eapply same_waiting_ok; [|exact H].
    eapply same_waiting_trans; [|apply match_topics_same]. same_fields.
  - destruct (too_large payload); [exact H|].
    destruct topic as [t|]; [|exact H].
    destruct (find_topic (chan_store st) t (channels st)); [|exact H].
    apply route_waiters_ok, H.
Qed.

Lemma onPeerData_waiters_ok (st : Daemon) (c : ConnId) (chunk : string) :
  waiters_ok st -> waiters_ok (fst (onPeerData st c chunk)).
Proof.
  intros H. unfold onPeerData.
  destruct (conn_store st !! c) as [p|]; [|exact H].
  destruct (negb (writable p)); [exact H|].
  destruct (MAX_PEER_BUFFER <? js_length (buf p ++ chunk))%Z; [exact H|].
  destruct (split_lines (buf p ++ chunk)) as [lines rest].
  apply (fold_left_inv (fun acc => waiters_ok (fst acc))); [exact H|].
  intros [s e] line Hs; simpl in *.
  destruct (is_blank line); [exact Hs|].
  destruct (JSON_parse line) as [msg|]; [|exact Hs].
  pose proof (onPeerMsg_waiters_ok s (remoteKey p) msg Hs) as H'.
  destruct (_onPeerMsg s (remoteKey p) msg). exact H'.
Qed.

Lemma suspend_waiters_ok (k : Cont) (st : Daemon) :
  waiters_ok st -> waiters_ok (suspend k st).
Proof.
  apply same_waiting_ok.
  split; [reflexivity | split; [reflexivity | split; [simpl; lia | intros; reflexivity]]].
Qed.

Lemma after_read_waiters_ok (st : Daemon) (r : Ref) (ch : Channel)
    (timeout : option Z) (sock : Socket) :
  chan_store st !! r = Some ch ->
  waiters_ok st -> waiters_ok (after_read st r timeout sock).
Proof.
  intros Hch (W & F & U1 & U2 & T1 & T2).
  set (st' := after_read st r timeout sock).
  assert (forall r' w', queued st' r' w' ->
            queued st r' w' \/ (r' = r /\ w' = read_waiter st sock)) as Hq.
  { intros r' w' (ch' & Hc' & Hin). unfold st', after_read, upd_chan in Hc'. simpl in Hc'.
    destruct (decide (r = r')) as [<-|Hne].
    - rewrite list_lookup_alter_eq, Hch in Hc'. simpl in Hc'. injection Hc' as <-.
      simpl in Hin. apply in_app_or in Hin as [Hin | [<- | []]].
      + left. exists ch. auto.
      + right. auto.
    - rewrite list_lookup_alter_ne in Hc' by exact Hne. left. exists ch'. auto. }
  pose proof (setTimeout_delay_pos (timeout_or_default timeout * 1000)) as Hpos.
  split; [|split; [|split; [|split; [|split]]]].
  - intros r' w' Hq'. destruct (Hq r' w' Hq') as [Hold | [-> ->]].
    + destruct (W r' w' Hold) as (t & Hin & ? & ? & ? & ?). exists t.
      split; [|auto]. unfold st'; simpl. apply in_or_app. left. exact Hin.
    + exists (read_timer st r timeout sock).
      split; [unfold st'; simpl; apply in_or_app; right; left; reflexivity|].
      repeat split. simpl. lia.
  - intros r' w' Hq'. unfold st'; simpl. destruct (Hq r' w' Hq') as [Hold | [-> ->]].
    + specialize (F r' w' Hold). lia.
    + simpl. lia.
  - intros r' ch' Hc'. unfold st', after_read, upd_chan in Hc'. simpl in Hc'.
    destruct (decide (r = r')) as [<-|Hne].
    + rewrite list_lookup_alter_eq, Hch in Hc'. simpl in Hc'. injection Hc' as <-.
      simpl. rewrite map_app. apply NoDup_app. split; [apply (U1 r ch Hch)|]. split.
      * intros x Hx Hx'. apply list_elem_of_In in Hx. apply in_map_iff in Hx as (w & <- & Hw).
        apply list_elem_of_In in Hx'. destruct Hx' as [E | []]. simpl in E.
        assert (queued st r w) as Hqw by (exists ch; auto).
        specialize (F r w Hqw). lia.
      * apply NoDup_singleton.
    + rewrite list_lookup_alter_ne in Hc' by exact Hne. apply (U1 r' ch' Hc').
  - intros r1 r2 w1 w2 H1 H2 E.
    destruct (Hq r1 w1 H1) as [O1 | [-> ->]], (Hq r2 w2 H2) as [O2 | [-> ->]].
    + apply (U2 r1 r2 w1 w2 O1 O2 E).
    + specialize (F r1 w1 O1). simpl in E. lia.
    + specialize (F r2 w2 O2). simpl in E. lia.
    + reflexivity.
  - unfold st'; simpl. rewrite map_app. apply NoDup_app. split; [exact T1|]. split.
    + intros x Hx Hx'. apply list_elem_of_In in Hx. apply in_map_iff in Hx as (t & <- & Ht).
      apply list_elem_of_In in Hx'. destruct Hx' as [E | []]. simpl in E.
      rewrite Forall_forall in T2. apply list_elem_of_In, T2 in Ht. lia.
    + apply NoDup_singleton.
  - unfold st'; simpl. apply Forall_app. split.
    + eapply Forall_impl; [exact T2|]. simpl. intros. lia.
    + constructor; [simpl; lia | constructor].
Qed.

Lemma exec_waiters_ok (st : Daemon) (cmd : Command) (sock : Socket) :
  waiters_ok st -> waiters_ok (fst (_exec st cmd sock)).
Proof.
  intros H. destruct cmd as [name secret | name m | name wait timeout | name | | | | a];
    simpl; try exact H.
  - unfold _joinChannel. destruct (map_has name (channels st)); [exact H|].
    apply suspend_waiters_ok, H.
  - destruct (too_large m); [exact H|].
    destruct (_send st name m) as [err|[count writes]]; exact H.
  - destruct (get_channel st name) as [[r ch]|] eqn:Hget; [|exact H].
    destruct (get_channel_lookup _ _ _ _ Hget) as [_ Hch].
    destruct (nonempty (messages ch) || negb wait); simpl.
    + eapply same_waiting_ok; [|exact H]. apply same_waiting_upd_chan. reflexivity.
    + apply (after_read_waiters_ok st r ch timeout sock Hch H).
  - unfold _leaveChannel. destruct (get_channel st name) as [[r ch]|]; [|exact H].
    apply suspend_waiters_ok, H.
  - apply suspend_waiters_ok, H.
Qed.

Lemma resume_waiters_ok (st : Daemon) (k : nat) :
  waiters_ok st -> waiters_ok (fst (resume st k)).
Proof.
  intros H. unfold resume.
  destruct (take_cont k (suspended st)) as [[c rest]|]; [|exact H].
  destruct c as [name topic handle sock | name sock | sock]; try exact H.
  unfold _joinChannel_flushed.
  match goal with
  | |- context [_reannounce ?s] =>
      assert (waiters_ok s) as Hs;
      [| pose proof (same_waiting_ok _ _ (reannounce_same s) Hs) as Hr;
         destruct (_reannounce s); exact Hr]
  end.
  destruct H as (W & F & U1 & U2 & T1 & T2).
  match goal with |- waiters_ok ?s => set (st1 := s) end.
  assert (forall r w, queued st1 r w -> queued st r w) as Hq.
  { intros r w (ch' & Hc' & Hin). unfold st1 in Hc'. simpl in Hc'.
    apply lookup_app_Some in Hc' as [Hc' | [_ Hc']].
    - exists ch'. auto.
    - destruct (r - length (chan_store st)); simpl in Hc'; [|discriminate].
      injection Hc' as <-. destruct Hin. }
  split; [|split; [|split; [|split; [|split]]]]; [| | | |exact T1|exact T2].
  - intros r w Hq'. destruct (W r w (Hq r w Hq')) as (t & ?). exists t. assumption.
  - intros r w Hq'. apply (F r w (Hq r w Hq')).
  - intros r ch' Hc'. unfold st1 in Hc'. simpl in Hc'.
    apply lookup_app_Some in Hc' as [Hc' | [_ Hc']].
    + apply (U1 r ch' Hc').
    + destruct (r - length (chan_store st)); simpl in Hc'; [|discriminate].
      injection Hc' as <-. constructor.
  - intros r1 r2 w1 w2 H1 H2. apply U2; [apply Hq, H1 | apply Hq, H2].
Qed.

Lemma tick_waiters_ok (st : Daemon) : waiters_ok st -> waiters_ok (fst (tick st)).
Proof.
  intros (W & F & U1 & U2 & T1 & T2).
  destruct (tick_spec st) as [(_ & _ & _ & _ & _ & A6 & _ & A8 & A9 & A10) _].
  set (s' := fst (tick st)) in *.
  assert (forall r w, queued s' r w ->
            queued st r w /\
            fired_by (List.filter (is_due (now st + 1)) (timers st)) r w = false) as Hq.
  { intros r w (ch' & Hc' & Hin). rewrite A10 in Hc'.
    destruct (chan_store st !! r) as [ch|] eqn:E; simpl in Hc'; [|discriminate].
    injection Hc' as <-. simpl in Hin. apply filter_In in Hin as [Hin Hf].
    split; [exists ch; auto|]. apply negb_true_iff in Hf. exact Hf. }
  split; [|split; [|split; [|split; [|split]]]].
  - intros r w Hq'. destruct (Hq r w Hq') as [Hold Hnf].
    destruct (W r w Hold) as (t & Hin & Hid & Hr & Hs & Hd).
    assert (is_due (now st + 1) t = false) as Hnd.
    { destruct (is_due (now st + 1) t) eqn:D; [|reflexivity].
      rewrite <- Hnf. symmetry. unfold fired_by. apply existsb_exists.
      exists t. split; [apply filter_In; auto|].
      rewrite Hr, Hid, !Nat.eqb_refl. reflexivity. }
    exists t. unfold armed_for. rewrite A8, A9. split.
    + apply filter_In. split; [exact Hin|]. rewrite Hnd. reflexivity.
    + repeat split; try assumption. unfold is_due in Hnd. apply Z.leb_gt in Hnd. lia.
  - intros r w Hq'. rewrite A6. apply (F r w), Hq, Hq'.
  - intros r ch' Hc'. rewrite A10 in Hc'.
    destruct (chan_store st !! r) as [ch|] eqn:E; simpl in Hc'; [|discriminate].
    injection Hc' as <-. simpl. apply NoDup_map_filter, (U1 r ch E).
  - intros r1 r2 w1 w2 H1 H2. apply U2; [apply Hq, H1 | apply Hq, H2].
  - rewrite A9. apply NoDup_map_filter, T1.
  - rewrite A9, A6. apply Forall_List_filter, T2.
Qed.

Lemma step_waiters_ok (st : Daemon) (ev : Event) :
  waiters_ok st -> waiters_ok (fst (step st ev)).
Proof.
  intros H. unfold step. destruct (exited st); [exact H|].
  destruct ev.
  - apply exec_waiters_ok, H.
  - apply resume_waiters_ok, H.
  - unfold reject. destruct (take_cont k (suspended st)) as [[c rest]|]; exact H.
  - exact H.
  - apply onPeerData_waiters_ok, H.
  - eapply same_waiting_ok; [apply onPeerClose_same | exact H].
  - unfold onPeerError. destruct (conn_store st !! c) as [p|]; [|exact H].
    destruct (writable p); exact H.
  - apply tick_waiters_ok, H.
Qed.

Lemma reachable_waiters_ok (st : Daemon) : reachable st -> waiters_ok st.
Proof.
  intros (i & evs & ->).
  assert (waiters_ok (init i)) as H0.
  { split; [|split; [|split; [|split; [|split]]]]; try (simpl; constructor).
    - intros r w (ch & Hc & _). discriminate Hc.
    - intros r w (ch & Hc & _). discriminate Hc.
    - intros r ch Hc. discriminate Hc.
    - intros r1 r2 w1 w2 (ch & Hc & _). discriminate Hc. }
  generalize (init i) H0. clear H0.
  induction evs as [|ev evs IH]; intros s Hs; simpl; [exact Hs|].
  pose proof (step_waiters_ok s ev Hs) as H1.
  destruct (step s ev) as [s1 e1]. simpl in H1.
  pose proof (IH s1 H1) as H2.
  destruct (run s1 evs) as [s2 e2]. exact H2.
Qed.

Lemma NoDup_map_inj {A B : Type} (f : A -> B) (l : list A) (a b : A) :
  NoDup (map f l) -> In a l -> In b l -> f a = f b -> a = b.
Proof.
  induction l as [|x l IH]; simpl; [intros _ []|].
  intros H. apply NoDup_cons in H as [Hx Hl].
  intros [->|Ha] [->|Hb] E.
  - reflexivity.
  - exfalso. apply Hx. rewrite E. apply list_elem_of_In, in_map, Hb.
  - exfalso. apply Hx. rewrite <- E. apply list_elem_of_In, in_map, Ha.
  - apply IH; assumption.
Qed.

(** A queued waiter stays queued, with its timer armed, for as long as
    the timer is not due; when the clock reaches the deadline the timer
    fires, the reader gets the empty list, and the waiter leaves the
    queue. *)
Lemma waiter_waits_for_timer (s : Daemon) (r : Ref) (w : Waiter) (t : Timer) :
  exited s = false -> waiters_ok s -> queued s r w -> armed_for s r w t ->
  let n := Z.to_nat (deadline t - now s) in
  (forall m, m < n ->
     In t (timers (fst (ticks m s))) /\ queued (fst (ticks m s)) r w) /\
  In (RMessages []) (replies_to (wsock w) (snd (ticks n s))) /\
  (forall m, n <= m ->
     ~ In t (timers (fst (ticks m s))) /\ ~ queued (fst (ticks m s)) r w).
Proof.
  intros Hex (_ & _ & _ & _ & T1 & _) (ch & Hch & Hw) (Hin & Hid & Hr & Hs & Hd) n.
  assert (forall m, fired_by (List.filter (is_due (now s + Z.of_nat m)) (timers s)) r w =
                    is_due (now s + Z.of_nat m) t) as Hfb.
  { intros m. destruct (is_due (now s + Z.of_nat m) t) eqn:D.
    - unfold fired_by. apply existsb_exists. exists t.
      split; [apply filter_In; auto|]. rewrite Hr, Hid, !Nat.eqb_refl. reflexivity.
    - destruct (fired_by _ r w) eqn:Hf; [|reflexivity].
      unfold fired_by in Hf. apply existsb_exists in Hf as (t' & Ht' & Hm).
      apply filter_In in Ht' as [Ht' Hdue].
      apply andb_prop in Hm as [_ Hm]. apply Nat.eqb_eq in Hm.
      assert (t' = t) as -> by (apply (NoDup_map_inj tid (timers s)); auto; congruence).
      congruence. }
  assert (forall m, is_due (now s + Z.of_nat m) t = (n <=? m)) as Hdue.
  { intros m. unfold is_due. destruct (n <=? m) eqn:E.
    - apply Nat.leb_le in E. apply Z.leb_le. lia.
    - apply Nat.leb_gt in E. apply Z.leb_gt. lia. }
  assert (forall m, timers (fst (ticks (S m) s)) =
                    List.filter (fun t0 => negb (is_due (now s + Z.of_nat (S m)) t0))
                                (timers s)) as Htm.
  { intros m. destruct (ticks_aged m s Hex) as (_ & _ & _ & _ & _ & _ & _ & _ & E & _).
    exact E. }
  assert (forall m, chan_store (fst (ticks (S m) s)) !! r =
                    Some (set_waiters
                            (List.filter
                               (fun w0 => negb (fired_by
                                  (List.filter (is_due (now s + Z.of_nat (S m))) (timers s))
                                  r w0)) (waiters ch)) ch)) as Hst.
  { intros m. destruct (ticks_aged m s Hex) as (_ & _ & _ & _ & _ & _ & _ & _ & _ & E).
    rewrite E, Hch. reflexivity. }
  split; [|split].
  - intros [|m] Hm.
    + split; [exact Hin | exists ch; auto].
    + assert (is_due (now s + Z.of_nat (S m)) t = false) as D.
      { rewrite Hdue. apply Nat.leb_gt. exact Hm. }
      split.
      * rewrite Htm. apply filter_In. split; [exact Hin|]. rewrite D. reflexivity.
      * eexists. split; [apply Hst|]. simpl. apply filter_In. split; [exact Hw|].
        rewrite Hfb, D. reflexivity.
  - destruct n as [|n'] eqn:En; [lia|].
    rewrite (ticks_replies n' s (wsock w) Hex). apply in_repeat_pos.
    assert (In t (List.filter
                    (fun t0 => (tsock t0 =? wsock w) &&
                               is_due (now s + Z.of_nat (S n')) t0) (timers s))) as Hf.
    { apply filter_In. split; [exact Hin|]. rewrite Hs, Nat.eqb_refl. simpl.
      rewrite Hdue. apply Nat.leb_refl. }
    destruct (List.filter _ (timers s)); [destruct Hf | simpl; lia].
  - intros [|m] Hm; [lia|].
    assert (is_due (now s + Z.of_nat (S m)) t = true) as D.
    { rewrite Hdue. apply Nat.leb_le. exact Hm. }
    split.
    + rewrite Htm. intros Hf. apply filter_In in Hf as [_ Hf].
      rewrite D in Hf. discriminate Hf.
    + intros (ch' & Hc' & Hin'). rewrite Hst in Hc'. injection Hc' as <-.
      simpl in Hin'. apply filter_In in Hin' as [_ Hf].
      rewrite Hfb, D in Hf. discriminate Hf.
Qed.

(** *** A waiting read is resolved once *)

(** C3 (amended): a read that asks to wait on a joined channel with an
    empty buffer replies nothing at first; it queues a waiter and arms a
    timer with [(cmd.timeout || 30) * 1000] ms: the requested seconds, or
    30 when no timeout or a timeout of 0 is given (a delay outside
    [1 .. TIMEOUT_MAX] is armed as 1 ms).  With no message arriving the
    waiter stays queued and the timer armed until exactly that delay has
    passed; then the timer fires, the reader gets [{ok:true, messages:[]}]
    and the waiter is out of the queue for good.  When the reader's
    socket has no other read suspended, that reply is the only one it
    gets, before or after; no inbound record is replied to it once the
    timer has fired, and with nobody else waiting the next entry is
    buffered.  If an entry arrives first, the reader gets that single
    entry, the timer is cleared, and it never fires. *)
Theorem waiting_read_resolves_once (st : Daemon) (name : string) (r : Ref)
    (ch : Channel) (timeout : option Z) (sock : Socket) :
  reachable st ->
  exited st = false ->
  get_channel st name = Some (r, ch) ->
  messages ch = [] ->
  let secs := timeout_or_default timeout in
  let d := Z.to_nat (setTimeout_delay (secs * 1000)) in
  let w := read_waiter st sock in
  let t := read_timer st r timeout sock in
  let '(st1, eff1) := _exec st (Read name true timeout) sock in
  (timeout = None \/ timeout = Some 0%Z -> secs = 30%Z) /\
  (forall v, timeout = Some v -> v <> 0%Z -> secs = v) /\
  ((1 <= secs * 1000 <= TIMEOUT_MAX)%Z -> Z.of_nat d = (secs * 1000)%Z) /\
  eff1 = [] /\
  armed_for st1 r w t /\
  deadline t = (now st + Z.of_nat d)%Z /\
  (forall m, m < d ->
     In t (timers (fst (ticks m st1))) /\ queued (fst (ticks m st1)) r w) /\
  In (RMessages []) (replies_to sock (snd (ticks d st1))) /\
  (forall m, d <= m ->
     ~ In t (timers (fst (ticks m st1))) /\ ~ queued (fst (ticks m st1)) r w) /\
  (sock_unused sock st ->
   (forall n,
      replies_to sock (snd (ticks n st1)) = if d <=? n then [RMessages []] else []) /\
   (forall n key msg,
      d <= n -> replies_to sock (snd (_onPeerMsg (fst (ticks n st1)) key msg)) = []) /\
   (waiters ch = [] ->
    forall n key c topic payload sender sent,
      map_get key (peers st) = Some c ->
      too_large payload = false ->
      find_topic (chan_store st) topic (channels st) = Some r ->
      let entry := {| from := or_default sender (slice0 8 key);
                      data := payload; ts := sent |} in
      let '(st2, eff2) :=
        _onPeerMsg (fst (ticks n st1)) key (PMsg (Some topic) payload sender sent) in
      if d <=? n
      then eff2 = [] /\ (messages <$> chan_store st2 !! r) = Some [entry]
      else eff2 = [EReply sock (RMessages [entry])] /\
           forall m, replies_to sock (snd (ticks m st2)) = [])).
Proof.
  intros Hreach Hex Hget Hm secs d w t.
  pose proof (reachable_ids_fresh st Hreach) as Hfresh.
  pose proof (reachable_waiters_ok st Hreach) as Hok.
  destruct (get_channel_lookup _ _ _ _ Hget) as [Hname Hch].
  rewrite (exec_read_waits _ _ _ _ timeout sock Hget Hm).
  pose proof (setTimeout_delay_pos (secs * 1000)) as Hpos.
  assert (armed_for (after_read st r timeout sock) r w t) as Harm.
  { split; [simpl; apply in_or_app; right; left; reflexivity|].
    repeat split. simpl. fold secs. lia. }
  assert (queued (after_read st r timeout sock) r w) as Hq.
  { eexists. split.
    - unfold after_read, upd_chan; simpl. rewrite list_lookup_alter_eq, Hch. reflexivity.
    - simpl. apply in_or_app. right. left. reflexivity. }
  assert (Z.to_nat (deadline t - now (after_read st r timeout sock)) = d) as Hn.
  { unfold t, d, secs. simpl. f_equal. lia. }
  pose proof (waiter_waits_for_timer (after_read st r timeout sock) r w t Hex
                (after_read_waiters_ok st r ch timeout sock Hch Hok) Hq Harm) as Hwait.
  cbv zeta in Hwait. rewrite Hn in Hwait. destruct Hwait as (Hbefore & Hat & Hafter).
  split; [|split; [|split; [|split; [|split; [|split; [|split; [|split; [|split]]]]]]]].
  - intros [-> | ->]; reflexivity.
  - intros v -> Hne. unfold secs; simpl.
    destruct (v =? 0)%Z eqn:E; [apply Z.eqb_eq in E; contradiction | reflexivity].
  - intros Hr. unfold d. rewrite setTimeout_delay_in_range by exact Hr. lia.
  - reflexivity.
  - exact Harm.
  - unfold t, d; simpl. fold secs. lia.
  - exact Hbefore.
  - exact Hat.
  - exact Hafter.
  - intros Hun. split; [|split].
    + intros [|n].
      * assert ((d <=? 0) = false) as -> by (apply Nat.leb_gt; unfold d; lia).
        reflexivity.
      * rewrite ticks_replies by exact Hex.
        change (now (after_read st r timeout sock)) with (now st).
        simpl timers. rewrite List.filter_app, (filter_nil _ (timers st)).
        -- simpl. rewrite Nat.eqb_refl. simpl.
           change (is_due (now st + Z.pos (Pos.of_succ_nat n)) ?x)
             with (is_due (now st + Z.of_nat (S n)) x).
           pose proof (read_timer_due st r timeout sock (S n)) as Hd.
           fold secs in Hd. fold d in Hd. rewrite Hd.
           destruct (d <=? S n); reflexivity.
        -- intros x Hx. destruct Hun as [Hut _]. rewrite Forall_forall in Hut.
           apply list_elem_of_In, Hut in Hx. apply Nat.eqb_neq in Hx. rewrite Hx.
           reflexivity.
    + intros n key msg Hn'. apply onPeerMsg_replies. intros r0 c Hc.
      destruct (after_read_ticks st r ch timeout sock n Hex Hch Hfresh Hun)
        as (_ & _ & _ & _ & Hst).
      specialize (Hst r0). rewrite Hc in Hst.
      destruct Hst as (ch1 & kept & _ & _ & _ & Hw & Hk & _).
      fold secs in Hw. fold d in Hw.
      assert ((n <? d) = false) as E by (apply Nat.ltb_ge; exact Hn').
      rewrite E, andb_false_r, app_nil_r in Hw. rewrite Hw. exact Hk.
    + intros Hw0 n key c topic payload sender sent Hk Hfit Hfind entry.
      destruct (after_read_ticks st r ch timeout sock n Hex Hch Hfresh Hun)
        as (Hex' & Hp & Hc' & (keptT & HT & HkT) & Hst).
      fold secs in HT, Hst. fold d in HT, Hst.
      set (s := fst (ticks n (after_read st r timeout sock))) in *.
      assert (find_topic (chan_store s) topic (channels s) = Some r) as Hfind'.
      { rewrite Hc', (find_topic_ext (chan_store st)); [exact Hfind|].
        intros r0. specialize (Hst r0).
        destruct (chan_store s !! r0) as [c0|].
        - destruct Hst as (ch1 & kept & Hs1 & Ht1 & _).
          rewrite Hs1. simpl. rewrite Ht1. reflexivity.
        - rewrite Hst. reflexivity. }
      rewrite (onPeerMsg_msg_fits s key topic c r payload sender sent);
        [| rewrite Hp; exact Hk | exact Hfit | exact Hfind'].
      fold entry.
      specialize (Hst r).
      destruct (chan_store s !! r) as [ch0|] eqn:Hch0; [|congruence].
      destruct Hst as (ch1 & kept & Hch1 & Ht & Hm' & Hw' & Hkept & Hnil).
      assert (ch1 = ch) by congruence; subst ch1.
      rewrite (Hnil Hw0), Nat.eqb_refl in Hw'. simpl in Hw'.
      rewrite Nat.ltb_antisym in Hw', HT.
      destruct (d <=? n) eqn:Hdn; simpl in Hw', HT.
      * rewrite (route_buffers _ _ _ _ Hch0 Hw'). split; [reflexivity|].
        unfold upd_chan; simpl. rewrite list_lookup_alter_eq, Hch0. simpl.
        rewrite Hm', Hm. reflexivity.
      * rewrite (route_delivers _ _ _ _ _ _ Hch0 Hw'). split; [reflexivity|].
        intros m. apply ticks_no_reply; [exact Hex'|].
        intros t' Hin. simpl in Hin. apply filter_In in Hin as [Hin Hf].
        rewrite HT in Hin. apply in_app_or in Hin as [Hin | [<- | []]].
        -- rewrite Forall_forall in HkT. apply HkT, list_elem_of_In, Hin.
        -- simpl in Hf. rewrite Nat.eqb_refl in Hf. discriminate Hf.
Qed.

(** *** Leaving a channel *)

Lemma map_get_delete {V : Type} (k : string) (m : list (string * V)) :
  map_get k (map_delete k m) = None.
Proof.
  unfold map_delete. induction m as [|[k' v] m IH]; simpl; [reflexivity|].
  destruct (String.eqb k k') eqn:E; simpl; [exact IH|].
  rewrite E. exact IH.
Qed.

Lemma leave_runs (st : Daemon) (name : string) (r : Ref) (ch : Channel) (sock : Socket) :
  exited st = false -> ids_fresh st ->
  get_channel st name = Some (r, ch) ->
  run st [Exec (Leave name) sock; Resume (next_id st)] =
    (with_channels (map_delete name (channels st))
       (with_suspended (suspended st) (suspend (KLeave name sock) st)),
     [EDiscoveryDestroy (discovery ch); EReply sock ROk]).
Proof.
  intros Hex [_ Hk] Hget. rewrite run_cons. unfold step at 1 2 3. rewrite Hex.
  unfold _exec, _leaveChannel. rewrite Hget. cbn [fst snd]. rewrite run_cons.
  unfold step. cbn [exited suspend with_next_id with_suspended]. rewrite Hex.
  unfold resume. cbn [suspended suspend with_next_id with_suspended].
  rewrite (take_cont_last _ _ _ Hk). reflexivity.
Qed.

(** C1 (amended): [leave] destroys the discovery handle, removes the
    registry entry and replies [{ok:true}]; it resolves no waiting reader.
    The channel object keeps its waiter queue and every timer stays
    armed: each reader that was waiting stays queued, with its timer
    armed, until the clock reaches the deadline of its own timer; then the
    timer fires, the reader gets the empty list and leaves the queue. *)
Theorem leave_keeps_readers_waiting (st : Daemon) (name : string) (r : Ref)
    (ch : Channel) (sock : Socket) :
  reachable st ->
  exited st = false ->
  get_channel st name = Some (r, ch) ->
  let '(st', eff) := run st [Exec (Leave name) sock; Resume (next_id st)] in
  eff = [EDiscoveryDestroy (discovery ch); EReply sock ROk] /\
  get_channel st' name = None /\
  chan_store st' !! r = Some ch /\
  timers st' = timers st /\
  forall w, In w (waiters ch) ->
    exists t,
      armed_for st' r w t /\
      let n := Z.to_nat (deadline t - now st') in
      (forall m, m < n ->
         In t (timers (fst (ticks m st'))) /\ queued (fst (ticks m st')) r w) /\
      In (RMessages []) (replies_to (wsock w) (snd (ticks n st'))) /\
      (forall m, n <= m ->
         ~ In t (timers (fst (ticks m st'))) /\ ~ queued (fst (ticks m st')) r w).
Proof.
  intros Hreach Hex Hget.
  pose proof (reachable_ids_fresh st Hreach) as Hfresh.
  pose proof (reachable_waiters_ok st Hreach) as Hok.
  destruct (get_channel_lookup _ _ _ _ Hget) as [_ Hch].
  rewrite (leave_runs _ _ _ _ _ Hex Hfresh Hget).
  set (st' := with_channels _ _).
  assert (exited st' = false) as Hex' by exact Hex.
  assert (waiters_ok st') as Hok'.
  { eapply same_waiting_ok; [|exact Hok].
    split; [reflexivity | split; [reflexivity | split;
      [simpl; lia | intros; reflexivity]]]. }
  split; [reflexivity|]. split; [|split; [exact Hch|split; [reflexivity|]]].
  - unfold get_channel. subst st'. cbn [channels with_channels].
    rewrite map_get_delete. reflexivity.
  - intros w Hw.
    assert (queued st' r w) as Hq by (exists ch; auto).
    destruct (proj1 Hok' r w Hq) as (t & Harm).
    exists t. split; [exact Harm|].
    apply waiter_waits_for_timer; assumption.
Qed.

(** *** Oversized records and buffer overflow on a peer connection *)

Lemma conns_open_refl (st : Daemon) : conns_open_as st st.
Proof. split; reflexivity. Qed.

Lemma conns_open_upd_peer (st s : Daemon) (c : ConnId) (f : Peer -> Peer) :
  (forall p, writable (f p) = writable p) ->
  conns_open_as st s -> conns_open_as st (upd_peer c f s).
Proof.
  intros Hf [Hp Hw]. split; [exact Hp|].
  intros c'. rewrite <- Hw. unfold upd_peer; simpl.
  destruct (decide (c = c')) as [<-|Hne].
  - rewrite list_lookup_alter_eq. destruct (conn_store s !! c); simpl; [|reflexivity].
    rewrite Hf. reflexivity.
  - rewrite list_lookup_alter_ne by exact Hne. reflexivity.
Qed.

Lemma match_topics_open (st s : Daemon) (key : string) (c : ConnId)
    (topics : list string) :
  conns_open_as st s -> conns_open_as st (match_topics key c topics s).
Proof.
  intros H. unfold match_topics. apply fold_left_inv; [exact H|].
  intros x r Hx. unfold match_one.
  destruct (chan_store x !! r) as [ch|]; [|exact Hx].
  destruct (set_has (topicHex ch) topics && negb (set_has key (ch_peers ch))); [|exact Hx].
  apply conns_open_upd_peer; [reflexivity | exact Hx].
Qed.

Lemma onPeerMsg_open (st s : Daemon) (key : string) (msg : PeerRecord) :
  conns_open_as st s ->
  conns_open_as st (fst (_onPeerMsg s key msg)) /\
  Forall is_reply (snd (_onPeerMsg s key msg)).
Proof.
  intros H. unfold _onPeerMsg.
  destruct (map_get key (peers s)) as [c|]; [|split; [exact H | constructor]].
  destruct msg as [topics | topic payload sender sent |]; simpl;
    [| |split; [exact H | constructor]].
  - split; [|constructor].
    apply match_topics_open, conns_open_upd_peer; [reflexivity | exact H].
  - destruct (too_large payload); [split; [exact H | constructor]|].
    destruct topic as [t|]; [|split; [exact H | constructor]].
    destruct (find_topic (chan_store s) t (channels s)) as [r|];
      [|split; [exact H | constructor]].
    unfold route. destruct (chan_store s !! r) as [ch|]; [|split; [exact H | constructor]].
    destruct (waiters ch) as [|w ws]; simpl.
    + split; [exact H | constructor].
    + split; [exact H | constructor; [exact I | constructor]].
Qed.

Lemma onPeerLine_open (st : Daemon) (key : string) (acc : Daemon * list Effect)
    (line : string) :
  conns_open_as st (fst acc) /\ Forall is_reply (snd acc) ->
  conns_open_as st (fst (onPeerLine key acc line)) /\
  Forall is_reply (snd (onPeerLine key acc line)).
Proof.
  destruct acc as [s e]; simpl. intros [H He].
  destruct (is_blank line); [split; assumption|].
  destruct (JSON_parse line) as [msg|]; [|split; assumption].
  destruct (onPeerMsg_open st s key msg H) as [H1 H2].
  destruct (_onPeerMsg s key msg) as [s' e']. simpl in *.
  split; [exact H1|]. apply Forall_app. split; assumption.
Qed.

Lemma onPeerLine_oversized (key : string) (acc : Daemon * list Effect) (line : string) :
  oversized_line line = true -> onPeerLine key acc line = acc.
Proof.
  unfold oversized_line, onPeerLine. destruct acc as [s e].
  destruct (JSON_parse line) as [[topics | topic payload sender sent |]|];
    try discriminate.
  intros Hbig. destruct (is_blank line); [reflexivity|].
  rewrite (onPeerMsg_msg_too_large _ _ _ _ _ _ Hbig), app_nil_r. reflexivity.
Qed.

Lemma lines_skip_oversized (key : string) (lines : list string)
    (acc : Daemon * list Effect) :
  fold_left (onPeerLine key) lines acc =
  fold_left (onPeerLine key) (List.filter (fun l => negb (oversized_line l)) lines) acc.
Proof.
  revert acc. induction lines as [|l lines IH]; intros acc; simpl; [reflexivity|].
  destruct (oversized_line l) eqn:E; simpl.
  - rewrite (onPeerLine_oversized _ _ _ E). apply IH.
  - apply IH.
Qed.

(** C9: the two size protections of a peer connection differ.  A [msg]
    record whose data is over [MAX_MESSAGE_SIZE] is dropped by
    [_onPeerMsg] with no change at all, so a later record is handled as
    if the oversized one had not come; in a chunk that keeps the buffer
    within [MAX_PEER_BUFFER] the oversized lines are skipped, the other
    lines are handled in order, and the connection is neither destroyed
    nor unregistered.  A chunk that takes the buffer over
    [MAX_PEER_BUFFER] destroys that connection at once, dispatches
    nothing, and leaves the channels, the timers, the peer registry and
    every other connection as they were. *)
Theorem peer_size_protections (st : Daemon) (c : ConnId) (p : Peer) (chunk : string) :
  conn_store st !! c = Some p ->
  writable p = true ->
  let b := (buf p ++ chunk)%string in
  (forall key topic payload sender sent msg,
     too_large payload = true ->
     _onPeerMsg st key (PMsg topic payload sender sent) = (st, []) /\
     _onPeerMsg (fst (_onPeerMsg st key (PMsg topic payload sender sent))) key msg =
       _onPeerMsg st key msg) /\
  ((js_length b <= MAX_PEER_BUFFER)%Z ->
   let '(st', eff) := onPeerData st c chunk in
   (st', eff) =
     fold_left (onPeerLine (remoteKey p))
       (List.filter (fun l => negb (oversized_line l)) (fst (split_lines b)))
       (upd_peer c (set_buf (snd (split_lines b))) st, []) /\
   (writable <$> conn_store st' !! c) = Some true /\
   peers st' = peers st /\
   ~ In (EConnDestroy c) eff) /\
  ((MAX_PEER_BUFFER < js_length b)%Z ->
   let '(st', eff) := onPeerData st c chunk in
   eff = [EConnDestroy c] /\
   (writable <$> conn_store st' !! c) = Some false /\
   (forall c', c' <> c -> conn_store st' !! c' = conn_store st !! c') /\
   channels st' = channels st /\ chan_store st' = chan_store st /\
   peers st' = peers st /\ timers st' = timers st).
Proof.
  intros Hp Hw b. split; [|split].
  - intros key topic payload sender sent msg Hbig.
    rewrite (onPeerMsg_msg_too_large _ _ _ _ _ _ Hbig). split; reflexivity.
  - intros Hfit. unfold onPeerData. rewrite Hp, Hw. simpl negb. cbv iota.
    fold b. assert ((MAX_PEER_BUFFER <? js_length b)%Z = false) as ->
      by (apply Z.ltb_ge; exact Hfit).
    destruct (split_lines b) as [lines rest]. cbn [fst snd].
    rewrite lines_skip_oversized.
    match goal with
    | |- context [fold_left ?f ?l ?a] =>
        assert (conns_open_as (upd_peer c (set_buf rest) st) (fst (fold_left f l a)) /\
                Forall is_reply (snd (fold_left f l a))) as [[Hpeers Hopen] Hrep]
    end.
    { apply (fold_left_inv
               (fun acc => conns_open_as (upd_peer c (set_buf rest) st) (fst acc) /\
                           Forall is_reply (snd acc))).
      - split; [apply conns_open_refl | constructor].
      - intros x l. apply onPeerLine_open. }
    destruct (fold_left _ _ _) as [st' eff]. cbn [fst snd] in *.
    split; [reflexivity|]. split; [|split].
    + rewrite Hopen. unfold upd_peer; simpl.
      rewrite list_lookup_alter_eq, Hp. simpl. rewrite Hw. reflexivity.
    + exact Hpeers.
    + intros Hin. rewrite Forall_forall in Hrep.
      apply list_elem_of_In, Hrep in Hin. exact Hin.
  - intros Hover. unfold onPeerData. rewrite Hp, Hw. simpl negb. cbv iota.
    fold b. assert ((MAX_PEER_BUFFER <? js_length b)%Z = true) as ->
      by (apply Z.ltb_lt; exact Hover).
    split; [reflexivity|]. split; [|split; [|repeat split]].
    + unfold upd_peer; simpl. rewrite list_lookup_alter_eq, Hp. reflexivity.
    + intros c' Hne. unfold upd_peer; simpl. apply list_lookup_alter_ne. congruence.
Qed.

(** *** Framing of a byte stream into lines *)

#[local] Set Default Proof Using "Type".

(** Section variables a statement does not mention play no part in its
    proof. *)
Ltac drop_unused :=
  try clear JSON_parse_command; try clear JSON_parse; try clear scryptSync.

Lemma string_app_assoc (a b c : string) : ((a ++ b) ++ c = a ++ b ++ c)%string.
Proof. induction a as [|x a IH]; simpl; [reflexivity|]. rewrite IH. reflexivity. Qed.

Lemma string_app_nil_r (a : string) : (a ++ "" = a)%string.
Proof. induction a as [|x a IH]; simpl; [reflexivity|]. rewrite IH. reflexivity. Qed.

Lemma utf16_units_nonneg (c : ascii) : (0 <= utf16_units c)%Z.
Proof.
  unfold utf16_units.
  destruct (_ <? 128)%Z; [lia|]. destruct (_ <? 192)%Z; [lia|].
  destruct (_ <? 240)%Z; lia.
Qed.

Lemma js_length_from_acc (s : string) (acc : Z) :
  js_length_from acc s = (acc + js_length s)%Z.
Proof.
  unfold js_length. revert acc. induction s as [|c s IH]; intros acc; simpl; [lia|].
  rewrite (IH (acc + utf16_units c)%Z), (IH (0 + utf16_units c)%Z). lia.
Qed.

Lemma js_length_cons (c : ascii) (s : string) :
  js_length (String c s) = (utf16_units c + js_length s)%Z.
Proof. unfold js_length at 1. simpl. rewrite js_length_from_acc. lia. Qed.

Lemma js_length_nonneg (s : string) : (0 <= js_length s)%Z.
Proof.
  induction s as [|c s IH]; [unfold js_length; simpl; lia|].
  rewrite js_length_cons. pose proof (utf16_units_nonneg c). lia.
Qed.

Lemma js_length_app (a b : string) :
  js_length (a ++ b) = (js_length a + js_length b)%Z.
Proof.
  induction a as [|c a IH]; simpl; [unfold js_length at 2; simpl; lia|].
  rewrite !js_length_cons, IH. lia.
Qed.

Lemma no_newline_app (a b : string) :
  no_newline (a ++ b) = no_newline a && no_newline b.
Proof.
  induction a as [|c a IH]; simpl; [reflexivity|].
  rewrite IH, andb_assoc. reflexivity.
Qed.

Lemma split_lines_no_newline (s : string) :
  no_newline s = true -> split_lines s = ([], s).
Proof.
  induction s as [|c s IH]; simpl; [reflexivity|].
  intros H. apply andb_prop in H as [Hc Hs]. rewrite (IH Hs).
  destruct (Ascii.eqb c newline); [discriminate | reflexivity].
Qed.

Lemma split_lines_line (l s : string) :
  no_newline l = true ->
  split_lines (l ++ String newline s) =
    (l :: fst (split_lines s), snd (split_lines s)).
Proof.
  induction l as [|c l IH]; simpl; intros H.
  - destruct (split_lines s) as [ls rest]. reflexivity.
  - apply andb_prop in H as [Hc Hl]. rewrite (IH Hl).
    destruct (Ascii.eqb c newline); [discriminate | reflexivity].
Qed.

Lemma unsplit_split_lines (lines : list string) (rest : string) :
  Forall (fun l => no_newline l = true) lines -> no_newline rest = true ->
  split_lines (unsplit lines rest) = (lines, rest).
Proof.
  intros Hl Hr. induction Hl as [|l ls Hl Hls IH]; simpl.
  - apply split_lines_no_newline, Hr.
  - rewrite (split_lines_line _ _ Hl), IH. reflexivity.
Qed.

Lemma split_lines_unsplit (s : string) :
  unsplit (fst (split_lines s)) (snd (split_lines s)) = s /\
  Forall (fun l => no_newline l = true) (fst (split_lines s)) /\
  no_newline (snd (split_lines s)) = true.
Proof.
  induction s as [|c s (IH1 & IH2 & IH3)]; simpl; [repeat split; constructor|].
  destruct (split_lines s) as [ls rest]. cbn [fst snd] in *.
  destruct (Ascii.eqb c newline) eqn:E.
  - apply Ascii.eqb_eq in E. subst c. cbn [fst snd unsplit].
    rewrite IH1. split; [reflexivity|]. split; [|exact IH3].
    constructor; [reflexivity | exact IH2].
  - destruct ls as [|l ls]; cbn [fst snd unsplit] in *.
    + subst rest. split; [reflexivity|]. split; [constructor|].
      simpl. rewrite E. exact IH3.
    + simpl. rewrite IH1. inversion IH2 as [|? ? Hl Hls]; subst.
      split; [reflexivity|]. split; [|exact IH3]. constructor; [|exact Hls].
      simpl. rewrite E. exact Hl.
Qed.






(** X1: the framing loop of the data handlers cuts a buffer at its
    newlines and nowhere else: the complete lines and the rest hold no
    newline and, put together again, give the buffer back; a buffer
    with no newline yields no line and stays whole; a buffer that starts
    with a line and a newline yields that line first; and any lines and
    rest without newlines are what the loop yields for their text. *)
Theorem framing_round_trip (s : string) :
  unsplit (fst (split_lines s)) (snd (split_lines s)) = s /\
  Forall (fun l => no_newline l = true) (fst (split_lines s)) /\
  no_newline (snd (split_lines s)) = true /\
  (no_newline s = true -> split_lines s = ([], s)) /\
  (forall l t, no_newline l = true -> s = (l ++ String newline t)%string ->
     split_lines s = (l :: fst (split_lines t), snd (split_lines t))) /\
  (forall lines rest,
     Forall (fun l => no_newline l = true) lines -> no_newline rest = true ->
     s = unsplit lines rest -> split_lines s = (lines, rest)).
Proof.
  destruct (split_lines_unsplit s) as (H1 & H2 & H3).
  split; [exact H1|]. split; [exact H2|]. split; [exact H3|].
  split; [apply split_lines_no_newline|]. split.
  - intros l t Hl ->. apply split_lines_line, Hl.
  - intros lines rest Hl Hr ->. apply unsplit_split_lines; assumption.
Qed.

(** *** Control sockets *)

Lemma onIPCLine_acc (sock : Socket) (st : Daemon) (made later : list Effect)
    (line : string) :
  onIPCLine sock (st, made, later) line =
    (fst (fst (onIPCLine sock (st, [], []) line)),
     made ++ snd (fst (onIPCLine sock (st, [], []) line)),
     later ++ snd (onIPCLine sock (st, [], []) line)).
Proof.
  unfold onIPCLine.
  destruct (trim_is_empty line); [simpl; rewrite !app_nil_r; reflexivity|].
  destruct (JSON_parse_command line) as [err|cmd];
    [simpl; rewrite app_nil_r; reflexivity|].
  destruct (_exec st cmd sock) as [st' eff].
  destruct (replies_in_microtask st cmd); simpl; rewrite ?app_nil_r; reflexivity.
Qed.

Lemma ipc_lines_acc (sock : Socket) (lines : list string) (st : Daemon)
    (made later : list Effect) :
  fold_left (onIPCLine sock) lines (st, made, later) =
    (fst (fst (fold_left (onIPCLine sock) lines (st, [], []))),
     made ++ snd (fst (fold_left (onIPCLine sock) lines (st, [], []))),
     later ++ snd (fold_left (onIPCLine sock) lines (st, [], []))).
Proof.
  revert st made later.
  induction lines as [|l ls IH]; intros st made later; cbn [fold_left fst snd].
  - rewrite !app_nil_r. reflexivity.
  - rewrite onIPCLine_acc.
    destruct (onIPCLine sock (st, [], []) l) as [[s1 m1] l1]. cbn [fst snd].
    rewrite IH, (IH s1 m1 l1). cbn [fst snd]. rewrite !app_assoc. reflexivity.
Qed.

Lemma exec_exited (st : Daemon) (cmd : Command) (sock : Socket) :
  exited (fst (_exec st cmd sock)) = exited st.
Proof.
  destruct cmd as [name secret | name m | name wait timeout | name | | | | a];
    unfold _exec, _joinChannel, _leaveChannel; try reflexivity.
  - destruct (map_has name (channels st)); reflexivity.
  - destruct (too_large m); [reflexivity|]. destruct (_send st name m) as [e|[n w]]; reflexivity.
  - destruct (get_channel st name) as [[r ch]|]; [|reflexivity].
    destruct (nonempty (messages ch) || negb wait); reflexivity.
  - destruct (get_channel st name) as [[r ch]|]; reflexivity.
Qed.

Lemma run_app (evs1 evs2 : list Event) (st : Daemon) :
  run st (evs1 ++ evs2) =
    (fst (run (fst (run st evs1)) evs2),
     snd (run st evs1) ++ snd (run (fst (run st evs1)) evs2)).
Proof.
  revert st. induction evs1 as [|ev evs1 IH]; intros st.
  - simpl. destruct (run st evs2); reflexivity.
  - change ((ev :: evs1) ++ evs2) with (ev :: (evs1 ++ evs2)).
    rewrite !run_cons, IH. cbn [fst snd]. rewrite app_assoc. reflexivity.
Qed.

Lemma reachable_run (st : Daemon) (evs : list Event) :
  reachable st -> reachable (fst (run st evs)).
Proof.
  intros (i & evs0 & ->). exists i, (evs0 ++ evs). rewrite run_app. reflexivity.
Qed.

Lemma onIPCLine_blank (sock : Socket) (acc : Daemon * list Effect * list Effect)
    (line : string) :
  trim_is_empty line = true -> onIPCLine sock acc line = acc.
Proof. intros H. unfold onIPCLine. destruct acc as [[st m] l]. rewrite H. reflexivity. Qed.

Lemma onIPCLine_error (sock : Socket) (st : Daemon) (made later : list Effect)
    (line err : string) :
  trim_is_empty line = false -> JSON_parse_command line = inl err ->
  onIPCLine sock (st, made, later) line =
    (st, made ++ [EReply sock (RError err)], later).
Proof. intros H1 H2. unfold onIPCLine. rewrite H1, H2. reflexivity. Qed.

Lemma onIPCLine_command (sock : Socket) (st : Daemon) (made later : list Effect)
    (line : string) (cmd : Command) :
  trim_is_empty line = false -> JSON_parse_command line = inr cmd ->
  onIPCLine sock (st, made, later) line =
    (fst (_exec st cmd sock),
     if replies_in_microtask st cmd then made else made ++ snd (_exec st cmd sock),
     if replies_in_microtask st cmd then later ++ snd (_exec st cmd sock) else later).
Proof.
  intros H1 H2. unfold onIPCLine. rewrite H1, H2.
  destruct (_exec st cmd sock) as [st' eff].
  destruct (replies_in_microtask st cmd); reflexivity.
Qed.

(** The replies of [_onIPC] to the lines [JSON.parse] rejects *)
Lemma ipc_lines_run (sock : Socket) (lines : list string) (st : Daemon) :
  exited st = false ->
  let res := fold_left (onIPCLine sock) lines (st, [], []) in
  let evs := map (fun cmd => Exec cmd sock) (commands_of lines) in
  fst (fst res) = fst (run st evs) /\
  exited (fst (fst res)) = false /\
  Permutation (snd (fst res) ++ snd res)
    (snd (run st evs) ++
     flat_map (fun line =>
                 if trim_is_empty line then []
                 else match JSON_parse_command line with
                      | inl err => [EReply sock (RError err)]
                      | inr _ => []
                      end) lines).
Proof.
  revert st. induction lines as [|l ls IH]; intros st Hex; cbn zeta.
  - simpl. repeat split; [exact Hex | constructor].
  - cbn [fold_left]. unfold commands_of. cbn [flat_map]. fold (commands_of ls).
    destruct (trim_is_empty l) eqn:Eb.
    + rewrite (onIPCLine_blank _ _ _ Eb). cbn [app map]. apply IH, Hex.
    + destruct (JSON_parse_command l) as [err|cmd] eqn:Ep.
      * rewrite (onIPCLine_error _ _ _ _ _ _ Eb Ep).
        cbn [app map]. rewrite ipc_lines_acc.
        destruct (IH st Hex) as (H1 & H2 & H3). cbn [fst snd].
        split; [exact H1|]. split; [exact H2|]. cbn [app].
        rewrite <- Permutation_middle. constructor. exact H3.
      * rewrite (onIPCLine_command _ _ _ _ _ _ Eb Ep).
        assert (exited (fst (_exec st cmd sock)) = false) as Hex1
          by (rewrite exec_exited; exact Hex).
        destruct (IH _ Hex1) as (H1 & H2 & H3).
        cbn [app map]. rewrite run_cons. unfold step. rewrite Hex. cbn [fst snd].
        destruct (replies_in_microtask st cmd); rewrite ipc_lines_acc; cbn [fst snd app].
        -- split; [exact H1|]. split; [exact H2|].
           rewrite <- app_assoc, <- H3.
           rewrite app_assoc, (Permutation_app_comm _ (snd (_exec st cmd sock))),
             <- app_assoc.
           reflexivity.
        -- split; [exact H1|]. split; [exact H2|].
           rewrite <- !app_assoc. apply Permutation_app_head. exact H3.
Qed.

Lemma onIPCData_fits (st : Daemon) (sock : Socket) (buf0 chunk : string) :
  (js_length (buf0 ++ chunk) <= MAX_IPC_BUFFER)%Z ->
  onIPCData st sock buf0 chunk =
    let res := fold_left (onIPCLine sock) (fst (split_lines (buf0 ++ chunk)))
                 (st, [], []) in
    {| ipc_daemon := fst (fst res); ipc_buf := snd (split_lines (buf0 ++ chunk));
       ipc_destroyed := false; ipc_effects := snd (fst res) ++ snd res |}.
Proof.
  intros Hfit. unfold onIPCData.
  assert ((MAX_IPC_BUFFER <? js_length (buf0 ++ chunk))%Z = false) as ->
    by (apply Z.ltb_ge; exact Hfit).
  destruct (split_lines (buf0 ++ chunk)) as [lines rest]. cbn [fst snd].
  destruct (fold_left (onIPCLine sock) lines (st, [], [])) as [[st' made] later].
  reflexivity.
Qed.

(** X2: the ['data'] handler of a control socket.  When the buffer with
    the new chunk is longer than [MAX_IPC_BUFFER] (in UTF-16 code units,
    the pending text of earlier chunks included), the handler writes the
    "Request too large" error, destroys the socket and executes nothing,
    complete lines in the chunk or not.  Otherwise it leaves the socket
    open and keeps only the unterminated rest, and it acts on the daemon
    as the commands of the complete lines executed one after the other:
    the daemon it leaves is the one those [_exec] calls leave, which is
    reachable if the daemon was, and what it writes is what the calls
    write together with one error reply for each line that fails to
    parse. *)
Theorem ipc_data_handler (st : Daemon) (sock : Socket) (buf0 chunk : string) :
  exited st = false ->
  let r := onIPCData st sock buf0 chunk in
  let lines := fst (split_lines (buf0 ++ chunk)) in
  let evs := map (fun cmd => Exec cmd sock) (commands_of lines) in
  ((MAX_IPC_BUFFER < js_length (buf0 ++ chunk))%Z ->
   ipc_effects r = [EReply sock (RError "Request too large")] /\
   ipc_destroyed r = true /\ ipc_daemon r = st) /\
  ((js_length (buf0 ++ chunk) <= MAX_IPC_BUFFER)%Z ->
   ipc_destroyed r = false /\
   ipc_buf r = snd (split_lines (buf0 ++ chunk)) /\
   no_newline (ipc_buf r) = true /\
   ipc_daemon r = fst (run st evs) /\
   (reachable st -> reachable (ipc_daemon r)) /\
   Permutation (ipc_effects r)
     (snd (run st evs) ++
      flat_map (fun line =>
                  if trim_is_empty line then []
                  else match JSON_parse_command line with
                       | inl err => [EReply sock (RError err)]
                       | inr _ => []
                       end) lines)).
Proof.
  intros Hex r lines evs. split.
  - intros Hover. unfold r, onIPCData.
    assert ((MAX_IPC_BUFFER <? js_length (buf0 ++ chunk))%Z = true) as ->
      by (apply Z.ltb_lt; exact Hover).
    repeat split.
  - intros Hfit. unfold r. rewrite (onIPCData_fits _ _ _ _ Hfit). cbn zeta.
    cbn [ipc_daemon ipc_buf ipc_destroyed ipc_effects].
    destruct (ipc_lines_run sock lines st Hex) as (H1 & _ & H3).
    fold lines. split; [reflexivity|]. split; [reflexivity|].
    split; [apply split_lines_unsplit|].
    split; [exact H1|]. split; [|exact H3].
    intros Hreach. rewrite H1. apply reachable_run, Hreach.
Qed.


(** X4: replies on a control socket are not always in the order of the
    requests.  When a chunk holds a [join] of a name that is already
    joined and then another command that replies at once, the reply to
    the second command is written before the reply to the [join], which
    is made in a microtask; the same two lines in two chunks are
    answered in the order they came. *)
Theorem ipc_replies_can_overtake (st : Daemon) (sock : Socket) (l1 l2 : string)
    (name secret : string) (cmd2 : Command) :
  no_newline l1 = true -> no_newline l2 = true ->
  trim_is_empty l1 = false -> trim_is_empty l2 = false ->
  JSON_parse_command l1 = inr (Join name secret) ->
  JSON_parse_command l2 = inr cmd2 ->
  map_has name (channels st) = true ->
  replies_in_microtask st cmd2 = false ->
  let c1 := (l1 ++ String newline "")%string in
  let c2 := (l2 ++ String newline "")%string in
  (js_length (c1 ++ c2) <= MAX_IPC_BUFFER)%Z ->
  let '(st2, eff2) := _exec st cmd2 sock in
  let r := onIPCData st sock "" (c1 ++ c2) in
  let r1 := onIPCData st sock "" c1 in
  let r2 := onIPCData (ipc_daemon r1) sock (ipc_buf r1) c2 in
  ipc_effects r = eff2 ++ [EReply sock (RJoined name)] /\
  ipc_effects r1 ++ ipc_effects r2 = [EReply sock (RJoined name)] ++ eff2 /\
  ipc_daemon r = st2 /\ ipc_daemon r2 = st2.
Proof.
  intros Hn1 Hn2 Hb1 Hb2 Hp1 Hp2 Hhas Hsync c1 c2 Hfit.
  destruct (_exec st cmd2 sock) as [st2 eff2] eqn:E2.
  assert (js_length c1 <= MAX_IPC_BUFFER)%Z as Hfit1.
  { rewrite js_length_app in Hfit. pose proof (js_length_nonneg c2). lia. }
  assert (js_length c2 <= MAX_IPC_BUFFER)%Z as Hfit2.
  { rewrite js_length_app in Hfit. pose proof (js_length_nonneg c1). lia. }
  assert (split_lines c1 = ([l1], "")) as Hs1
    by (unfold c1; rewrite (split_lines_line _ _ Hn1); reflexivity).
  assert (split_lines c2 = ([l2], "")) as Hs2
    by (unfold c2; rewrite (split_lines_line _ _ Hn2); reflexivity).
  assert (split_lines (c1 ++ c2) = ([l1; l2], "")) as Hs.
  { unfold c1. rewrite string_app_assoc. cbn [String.append].
    rewrite (split_lines_line _ _ Hn1), Hs2. reflexivity. }
  assert (_exec st (Join name secret) sock = (st, [EReply sock (RJoined name)])) as E1
    by (apply joinChannel_existing, Hhas).
  assert (replies_in_microtask st (Join name secret) = true) as Hm1
    by (unfold replies_in_microtask, _joinChannel; rewrite Hhas; reflexivity).
  cbv zeta.
  rewrite (onIPCData_fits st sock "" (c1 ++ c2)) by exact Hfit.
  rewrite (onIPCData_fits st sock "" c1) by exact Hfit1.
  cbn zeta. cbn [ipc_daemon ipc_buf ipc_destroyed ipc_effects String.append].
  rewrite Hs, Hs1. cbn [fst snd fold_left].
  rewrite (onIPCLine_command _ _ _ _ _ _ Hb1 Hp1), E1, Hm1. cbn [fst snd app].
  rewrite (onIPCData_fits st sock "" c2) by exact Hfit2.
  cbn zeta. cbn [ipc_daemon ipc_buf ipc_destroyed ipc_effects String.append].
  rewrite Hs2. cbn [fst snd fold_left].
  rewrite (onIPCLine_command _ _ _ _ _ _ Hb2 Hp2), E2, Hsync. cbn [fst snd app].
  rewrite (onIPCLine_command _ _ _ _ _ _ Hb2 Hp2), E2, Hsync. cbn [fst snd app].
  rewrite !app_nil_r. repeat split.
Qed.

(** *** Chunks of a peer connection *)

Lemma upd_peer_comm (c c' : ConnId) (f g : Peer -> Peer) (st : Daemon) :
  (forall p, f (g p) = g (f p)) ->
  upd_peer c f (upd_peer c' g st) = upd_peer c' g (upd_peer c f st).
Proof.
  intros H. unfold upd_peer, with_conn_store; simpl. f_equal.
  destruct (decide (c = c')) as [<-|Hne].
  - rewrite !list_alter_alter_eq. apply list_alter_ext; [|reflexivity].
    intros x _. apply H.
  - apply list_alter_alter_ne, Hne.
Qed.


Lemma match_one_rebuf (key : string) (c' : ConnId) (topics : list string)
    (c : ConnId) (x : string) (st : Daemon) (r : Ref) :
  match_one key c' topics (upd_peer c (set_buf x) st) r =
    upd_peer c (set_buf x) (match_one key c' topics st r).
Proof.
  unfold match_one. cbn [chan_store upd_peer with_conn_store].
  destruct (chan_store st !! r) as [ch|]; [|reflexivity].
  destruct (set_has (topicHex ch) topics && negb (set_has key (ch_peers ch)));
    [|reflexivity].
  change (upd_chan r ?f (upd_peer c ?g st)) with (upd_peer c g (upd_chan r f st)).
  apply upd_peer_comm. reflexivity.
Qed.

Lemma match_topics_rebuf (key : string) (c' : ConnId) (topics : list string)
    (c : ConnId) (x : string) (st : Daemon) :
  match_topics key c' topics (upd_peer c (set_buf x) st) =
    upd_peer c (set_buf x) (match_topics key c' topics st).
Proof.
  unfold match_topics. cbn [channels upd_peer with_conn_store].
  generalize (map snd (channels st)). intros l. revert st.
  induction l as [|r l IH]; intros st; simpl; [reflexivity|].
  rewrite match_one_rebuf. apply IH.
Qed.

Lemma onPeerMsg_rebuf (c : ConnId) (x : string) (st : Daemon) (key : string)
    (msg : PeerRecord) :
  _onPeerMsg (upd_peer c (set_buf x) st) key msg =
    (upd_peer c (set_buf x) (fst (_onPeerMsg st key msg)), snd (_onPeerMsg st key msg)).
Proof.
  unfold _onPeerMsg. cbn [peers channels chan_store upd_peer with_conn_store].
  destruct (map_get key (peers st)) as [c'|]; [|reflexivity].
  destruct msg as [topics | topic payload sender sent |]; [| |reflexivity].
  - cbn [fst snd]. f_equal.
    rewrite <- match_topics_rebuf. f_equal. apply upd_peer_comm. reflexivity.
  - destruct (too_large payload); [reflexivity|].
    destruct topic as [t|]; [|reflexivity].
    destruct (find_topic (chan_store st) t (channels st)) as [r|]; [|reflexivity].
    unfold route. cbn [chan_store upd_peer with_conn_store].
    destruct (chan_store st !! r) as [ch|]; [|reflexivity].
    destruct (waiters ch) as [|w ws]; reflexivity.
Qed.

Lemma onPeerLine_acc (key : string) (st : Daemon) (eff : list Effect) (line : string) :
  onPeerLine key (st, eff) line =
    (fst (onPeerLine key (st, []) line), eff ++ snd (onPeerLine key (st, []) line)).
Proof.
  unfold onPeerLine.
  destruct (is_blank line); [cbn; rewrite app_nil_r; reflexivity|].
  destruct (JSON_parse line) as [msg|]; [|cbn; rewrite app_nil_r; reflexivity].
  destruct (_onPeerMsg st key msg) as [s' e']. reflexivity.
Qed.

Lemma peer_lines_acc (key : string) (lines : list string) (st : Daemon)
    (eff : list Effect) :
  fold_left (onPeerLine key) lines (st, eff) =
    (fst (fold_left (onPeerLine key) lines (st, [])),
     eff ++ snd (fold_left (onPeerLine key) lines (st, []))).
Proof.
  revert st eff. induction lines as [|l ls IH]; intros st eff; cbn [fold_left fst snd].
  - rewrite app_nil_r. reflexivity.
  - rewrite onPeerLine_acc.
    destruct (onPeerLine key (st, []) l) as [s1 e1]. cbn [fst snd].
    rewrite IH, (IH s1 e1). cbn [fst snd]. rewrite app_assoc. reflexivity.
Qed.

Lemma onPeerLine_rebuf (c : ConnId) (x : string) (key : string) (st : Daemon)
    (line : string) :
  onPeerLine key (upd_peer c (set_buf x) st, []) line =
    (upd_peer c (set_buf x) (fst (onPeerLine key (st, []) line)),
     snd (onPeerLine key (st, []) line)).
Proof.
  unfold onPeerLine.
  destruct (is_blank line); [reflexivity|].
  destruct (JSON_parse line) as [msg|]; [|reflexivity].
  rewrite onPeerMsg_rebuf. destruct (_onPeerMsg st key msg) as [s' e']. reflexivity.
Qed.

Lemma peer_lines_rebuf (c : ConnId) (x : string) (key : string) (lines : list string)
    (st : Daemon) :
  fold_left (onPeerLine key) lines (upd_peer c (set_buf x) st, []) =
    (upd_peer c (set_buf x) (fst (fold_left (onPeerLine key) lines (st, []))),
     snd (fold_left (onPeerLine key) lines (st, []))).
Proof.
  revert st. induction lines as [|l ls IH]; intros st; cbn [fold_left fst snd];
    [reflexivity|].
  rewrite onPeerLine_rebuf.
  destruct (onPeerLine key (st, []) l) as [s1 e1]. cbn [fst snd].
  rewrite peer_lines_acc, IH, (peer_lines_acc key ls s1 e1). reflexivity.
Qed.

(** Hello and message records leave the connections as they are *)
Lemma same_conns_refl (st : Daemon) : same_conns st st.
Proof. split; reflexivity. Qed.

Lemma same_conns_trans (a b c : Daemon) :
  same_conns a b -> same_conns b c -> same_conns a c.
Proof.
  intros [A1 A2] [B1 B2]. split; [congruence|]. intros x. rewrite B2. apply A2.
Qed.

Lemma same_conns_upd_peer (st : Daemon) (c : ConnId) (f : Peer -> Peer) :
  (forall p, conn_of (f p) = conn_of p) -> same_conns st (upd_peer c f st).
Proof.
  intros Hf. split; [reflexivity|]. intros c'. unfold upd_peer; simpl.
  destruct (decide (c = c')) as [<-|Hne].
  - rewrite list_lookup_alter_eq. destruct (conn_store st !! c); simpl; [|reflexivity].
    rewrite Hf. reflexivity.
  - rewrite list_lookup_alter_ne by exact Hne. reflexivity.
Qed.

Lemma same_conns_upd_chan (st : Daemon) (r : Ref) (f : Channel -> Channel) :
  same_conns st (upd_chan r f st).
Proof. split; reflexivity. Qed.

Lemma match_topics_conns (key : string) (c : ConnId) (topics : list string)
    (st : Daemon) :
  same_conns st (match_topics key c topics st).
Proof.
  unfold match_topics. apply fold_left_inv; [apply same_conns_refl|].
  intros x r Hx. unfold match_one.
  destruct (chan_store x !! r) as [ch|]; [|exact Hx].
  destruct (set_has (topicHex ch) topics && negb (set_has key (ch_peers ch))); [|exact Hx].
  eapply same_conns_trans; [exact Hx|].
  eapply same_conns_trans; [apply same_conns_upd_chan|].
  apply same_conns_upd_peer. reflexivity.
Qed.




Lemma onPeerData_fits (st : Daemon) (c : ConnId) (p : Peer) (chunk : string) :
  conn_store st !! c = Some p -> writable p = true ->
  (js_length (buf p ++ chunk) <= MAX_PEER_BUFFER)%Z ->
  onPeerData st c chunk =
    let res := fold_left (onPeerLine (remoteKey p)) (fst (split_lines (buf p ++ chunk)))
                 (st, []) in
    (upd_peer c (set_buf (snd (split_lines (buf p ++ chunk)))) (fst res), snd res).
Proof.
  intros Hp Hw Hfit. unfold onPeerData. rewrite Hp, Hw. cbn [negb].
  assert ((MAX_PEER_BUFFER <? js_length (buf p ++ chunk))%Z = false) as ->
    by (apply Z.ltb_ge; exact Hfit).
  destruct (split_lines (buf p ++ chunk)) as [lines rest]. cbn [fst snd].
  apply peer_lines_rebuf.
Qed.


(** *** Matching peers and channels by topic *)

Lemma set_has_In (x : string) (s : list string) : set_has x s = true <-> In x s.
Proof.
  unfold set_has. rewrite existsb_exists. split.
  - intros (y & Hy & E). apply String.eqb_eq in E. subst y. exact Hy.
  - intros H. exists x. split; [exact H | apply String.eqb_refl].
Qed.

Lemma set_add_In (x y : string) (s : list string) :
  In y (set_add x s) <-> y = x \/ In y s.
Proof.
  unfold set_add. destruct (set_has x s) eqn:E.
  - apply set_has_In in E. split; [auto | intros [-> | H]; assumption].
  - rewrite in_app_iff. simpl. split; [intros [H | [-> | []]]; auto | intros [-> | H]; auto].
Qed.

Lemma set_add_has (x : string) (s : list string) : set_has x (set_add x s) = true.
Proof. apply set_has_In, set_add_In. left. reflexivity. Qed.

Lemma set_add_idem (x : string) (s : list string) :
  set_add x (set_add x s) = set_add x s.
Proof. unfold set_add at 1. rewrite set_add_has. reflexivity. Qed.

Lemma set_add_present (x : string) (s : list string) :
  set_has x s = true -> set_add x s = s.
Proof. intros H. unfold set_add. rewrite H. reflexivity. Qed.

Lemma set_ch_peers_same (ch : Channel) : set_ch_peers (ch_peers ch) ch = ch.
Proof. destruct ch; reflexivity. Qed.

Lemma set_ch_peers_twice (a b : list string) (ch : Channel) :
  set_ch_peers a (set_ch_peers b ch) = set_ch_peers a ch.
Proof. reflexivity. Qed.

(** What one round of the matching loop does to a channel object *)
Lemma match_one_chan (key : string) (c : ConnId) (topics : list string)
    (st : Daemon) (r0 r : Ref) (ch : Channel) :
  chan_store st !! r = Some ch ->
  chan_store (match_one key c topics st r0) !! r =
    Some (set_ch_peers
            (if (r =? r0) && set_has (topicHex ch) topics
             then set_add key (ch_peers ch) else ch_peers ch) ch).
Proof.
  intros Hch. unfold match_one.
  destruct (Nat.eqb_spec r r0) as [->|Hne]; cbn [andb].
  - rewrite Hch.
    destruct (set_has (topicHex ch) topics); cbn [andb].
    + destruct (set_has key (ch_peers ch)) eqn:Ek; cbn [negb].
      * rewrite (set_add_present _ _ Ek), set_ch_peers_same. exact Hch.
      * unfold upd_peer, upd_chan; simpl. rewrite list_lookup_alter_eq, Hch. reflexivity.
    + rewrite set_ch_peers_same. exact Hch.
  - rewrite set_ch_peers_same.
    destruct (chan_store st !! r0) as [ch0|]; [|exact Hch].
    destruct (set_has (topicHex ch0) topics && negb (set_has key (ch_peers ch0)));
      [|exact Hch].
    unfold upd_peer, upd_chan; simpl. rewrite list_lookup_alter_ne by congruence.
    exact Hch.
Qed.

Lemma match_one_channels (key : string) (c : ConnId) (topics : list string)
    (st : Daemon) (r0 : Ref) :
  channels (match_one key c topics st r0) = channels st /\
  peers (match_one key c topics st r0) = peers st /\
  timers (match_one key c topics st r0) = timers st /\
  suspended (match_one key c topics st r0) = suspended st /\
  id (match_one key c topics st r0) = id st /\
  next_id (match_one key c topics st r0) = next_id st /\
  now (match_one key c topics st r0) = now st /\
  exited (match_one key c topics st r0) = exited st.
Proof.
  unfold match_one. destruct (chan_store st !! r0) as [ch|]; [|repeat split].
  destruct (set_has (topicHex ch) topics && negb (set_has key (ch_peers ch)));
    repeat split.
Qed.

Lemma match_loop_chan (key : string) (c : ConnId) (topics : list string)
    (refs : list Ref) (st : Daemon) (r : Ref) (ch : Channel) :
  chan_store st !! r = Some ch ->
  chan_store (fold_left (match_one key c topics) refs st) !! r =
    Some (set_ch_peers
            (if existsb (Nat.eqb r) refs && set_has (topicHex ch) topics
             then set_add key (ch_peers ch) else ch_peers ch) ch).
Proof.
  revert st ch. induction refs as [|r0 refs IH]; intros st ch Hch; cbn [fold_left existsb].
  - cbn [andb]. rewrite set_ch_peers_same. exact Hch.
  - rewrite (IH _ _ (match_one_chan key c topics st r0 r ch Hch)).
    cbn [topicHex ch_peers set_ch_peers]. f_equal.
    destruct (r =? r0); cbn [andb orb].
    + destruct (set_has (topicHex ch) topics); cbn [andb].
      * rewrite set_add_idem. destruct (existsb (Nat.eqb r) refs); reflexivity.
      * rewrite andb_false_r. reflexivity.
    + destruct (existsb (Nat.eqb r) refs && set_has (topicHex ch) topics); reflexivity.
Qed.

Lemma match_topics_chan (key : string) (c : ConnId) (topics : list string)
    (st : Daemon) (r : Ref) (ch : Channel) :
  chan_store st !! r = Some ch ->
  chan_store (match_topics key c topics st) !! r =
    Some (set_ch_peers
            (if registered st r && set_has (topicHex ch) topics
             then set_add key (ch_peers ch) else ch_peers ch) ch).
Proof. apply match_loop_chan. Qed.

Lemma match_topics_frame (key : string) (c : ConnId) (topics : list string)
    (st : Daemon) :
  channels (match_topics key c topics st) = channels st /\
  peers (match_topics key c topics st) = peers st /\
  timers (match_topics key c topics st) = timers st /\
  suspended (match_topics key c topics st) = suspended st /\
  id (match_topics key c topics st) = id st /\
  next_id (match_topics key c topics st) = next_id st /\
  now (match_topics key c topics st) = now st /\
  exited (match_topics key c topics st) = exited st.
Proof.
  unfold match_topics. generalize (map snd (channels st)). intros refs.
  apply (fold_left_inv
           (fun s => channels s = channels st /\ peers s = peers st /\
                     timers s = timers st /\ suspended s = suspended st /\
                     id s = id st /\ next_id s = next_id st /\ now s = now st /\
                     exited s = exited st)); [repeat split|].
  intros x r0 (H1 & H2 & H3 & H4 & H5 & H6 & H7 & H8).
  destruct (match_one_channels key c topics x r0) as (G1 & G2 & G3 & G4 & G5 & G6 & G7 & G8).
  repeat split; congruence.
Qed.

Lemma match_topics_none (key : string) (c : ConnId) (topics : list string)
    (st : Daemon) (r : Ref) :
  chan_store st !! r = None ->
  chan_store (match_topics key c topics st) !! r = None.
Proof.
  intros H. pose proof (match_topics_registry key c topics st) as [_ Hlen].
  apply lookup_ge_None. apply lookup_ge_None in H. lia.
Qed.

Lemma match_topics_known (key : string) (c : ConnId) (topics : list string)
    (st : Daemon) (c' : ConnId) :
  (knownTopics <$> conn_store (match_topics key c topics st) !! c') =
    (knownTopics <$> conn_store st !! c').
Proof.
  unfold match_topics.
  apply (fold_left_inv
           (fun s => (knownTopics <$> conn_store s !! c') =
                     (knownTopics <$> conn_store st !! c'))); [reflexivity|].
  intros x r0 Hx. rewrite <- Hx. unfold match_one.
  destruct (chan_store x !! r0) as [ch|]; [|reflexivity].
  destruct (set_has (topicHex ch) topics && negb (set_has key (ch_peers ch)));
    [|reflexivity].
  unfold upd_peer, upd_chan; simpl.
  destruct (decide (c = c')) as [<-|Hne].
  - rewrite list_lookup_alter_eq. destruct (conn_store x !! c); reflexivity.
  - rewrite list_lookup_alter_ne by exact Hne. reflexivity.
Qed.

(** X6: a hello record from a registered peer matches the peer with the
    registered channels whose topic the record lists, and with no other:
    the key joins the peer set of each such channel (once) and every
    peer set keeps the keys it had, also of a channel whose topic the new
    hello no longer lists.  The topics are kept as the peer's known
    topics.  Nothing is written or replied, and the registries, the
    buffers, the waiters, the timers and the connections stay as they
    are. *)
Theorem hello_matches_by_topic (st : Daemon) (key : string) (c : ConnId)
    (topics : list string) :
  map_get key (peers st) = Some c ->
  let '(st', eff) := _onPeerMsg st key (PHello topics) in
  eff = [] /\
  channels st' = channels st /\ peers st' = peers st /\ timers st' = timers st /\
  same_conns st st' /\
  (knownTopics <$> conn_store st' !! c) = ((fun _ => Some topics) <$> conn_store st !! c) /\
  (forall c', c' <> c ->
     (knownTopics <$> conn_store st' !! c') = (knownTopics <$> conn_store st !! c')) /\
  (forall r ch, chan_store st !! r = Some ch ->
     exists ch', chan_store st' !! r = Some ch' /\ grown ch ch' /\
       forall k, In k (ch_peers ch') <->
                 In k (ch_peers ch) \/
                 (k = key /\ registered st r = true /\ In (topicHex ch) topics)).
Proof.
  drop_unused.
  intros Hk. unfold _onPeerMsg. rewrite Hk.
  set (st0 := upd_peer c (set_knownTopics (Some topics)) st).
  destruct (match_topics_frame key c topics st0) as (F1 & F2 & F3 & _).
  split; [reflexivity|]. split; [exact F1|]. split; [exact F2|]. split; [exact F3|].
  split; [|split; [|split]].
  - eapply same_conns_trans; [|apply match_topics_conns].
    apply same_conns_upd_peer. reflexivity.
  - rewrite match_topics_known. unfold st0, upd_peer; simpl.
    rewrite list_lookup_alter_eq. destruct (conn_store st !! c); reflexivity.
  - intros c' Hne. rewrite match_topics_known. unfold st0, upd_peer; simpl.
    rewrite list_lookup_alter_ne by congruence. reflexivity.
  - intros r ch Hch. eexists. split.
    + apply (match_topics_chan key c topics st0 r ch). exact Hch.
    + change (registered st0 r) with (registered st r).
      split.
      * repeat split. intros k Hin. cbn [ch_peers set_ch_peers].
        destruct (registered st r && set_has (topicHex ch) topics); [|exact Hin].
        apply set_add_In. right. exact Hin.
      * intros k. cbn [ch_peers set_ch_peers].
        destruct (registered st r) eqn:Er; cbn [andb].
        -- destruct (set_has (topicHex ch) topics) eqn:Et.
           ++ rewrite set_add_In. apply set_has_In in Et. intuition.
           ++ split; [auto|]. intros [H | (_ & _ & H)]; [exact H|].
              apply set_has_In in H. congruence.
        -- split; [auto|]. intros [H | (_ & H & _)]; [exact H | discriminate].
Qed.

(** *** Message records *)

Lemma find_topic_registered (store : list Channel) (t : string)
    (m : list (string * Ref)) (r : Ref) :
  find_topic store t m = Some r ->
  existsb (Nat.eqb r) (map snd m) = true /\
  exists ch, store !! r = Some ch /\ topicHex ch = t.
Proof.
  induction m as [|[n r0] m IH]; simpl; [discriminate|].
  destruct (store !! r0) as [ch|] eqn:E.
  - destruct (String.eqb (topicHex ch) t) eqn:Et.
    + intros H; injection H as <-. rewrite Nat.eqb_refl. split; [reflexivity|].
      exists ch. split; [exact E | apply String.eqb_eq, Et].
    + intros H. destruct (IH H) as [H1 H2]. rewrite H1, orb_true_r. auto.
  - intros H. destruct (IH H) as [H1 H2]. rewrite H1, orb_true_r. auto.
Qed.

Lemma find_topic_none (store : list Channel) (t : string) (m : list (string * Ref)) :
  (forall r ch, existsb (Nat.eqb r) (map snd m) = true -> store !! r = Some ch ->
                topicHex ch <> t) ->
  find_topic store t m = None.
Proof.
  induction m as [|[n r0] m IH]; simpl; intros H; [reflexivity|].
  assert (find_topic store t m = None) as Hm.
  { apply IH. intros r ch Hr. apply H. rewrite Hr. apply orb_true_r. }
  destruct (store !! r0) as [ch|] eqn:E; [|exact Hm].
  destruct (String.eqb (topicHex ch) t) eqn:Et; [|exact Hm].
  apply String.eqb_eq in Et. exfalso.
  apply (H r0 ch); [rewrite Nat.eqb_refl; reflexivity | exact E | exact Et].
Qed.

Lemma find_topic_found (store : list Channel) (t : string) (m : list (string * Ref))
    (r : Ref) (ch : Channel) :
  existsb (Nat.eqb r) (map snd m) = true -> store !! r = Some ch -> topicHex ch = t ->
  exists r', find_topic store t m = Some r'.
Proof.
  intros Hreg Hch Ht. induction m as [|[n r0] m IH]; simpl in *; [discriminate|].
  destruct (Nat.eqb_spec r r0) as [<-|Hne].
  - rewrite Hch. apply String.eqb_eq in Ht. rewrite Ht. eauto.
  - destruct (store !! r0) as [ch0|]; [|apply IH, Hreg].
    destruct (String.eqb (topicHex ch0) t); [eauto | apply IH, Hreg].
Qed.

Lemma route_frame (st : Daemon) (r : Ref) (entry : Entry) :
  channels (fst (route st r entry)) = channels st /\
  peers (fst (route st r entry)) = peers st /\
  conn_store (fst (route st r entry)) = conn_store st /\
  Forall is_reply (snd (route st r entry)) /\
  forall r', r' <> r ->
    chan_store (fst (route st r entry)) !! r' = chan_store st !! r'.
Proof.
  unfold route. destruct (chan_store st !! r) as [ch|];
    [|repeat split; constructor].
  destruct (waiters ch) as [|w ws]; cbn [fst snd].
  - repeat split; [constructor|]. intros r' Hne. unfold upd_chan; simpl.
    apply list_lookup_alter_ne. congruence.
  - repeat split; [repeat constructor|]. intros r' Hne. unfold upd_chan; simpl.
    apply list_lookup_alter_ne. congruence.
Qed.

(** X7: a message record touches the one channel it is addressed to.  It
    is handled only when its sender's key is in the peer registry, its
    data is within the size limit and some registered channel has its
    topic; it then goes to the first such channel, whether or not the
    sender is among the matched peers of that channel.  Otherwise it is
    dropped with no change.  In every case the registries and the peer
    objects stay as they are, nothing but a reply to a waiting reader is
    written, and a channel object with another topic, or one that is not
    registered, is left untouched. *)
Theorem message_reaches_only_its_topic (st : Daemon) (key : string)
    (topic payload sender : option string) (sent : option Z) :
  let '(st', eff) := _onPeerMsg st key (PMsg topic payload sender sent) in
  channels st' = channels st /\ peers st' = peers st /\
  conn_store st' = conn_store st /\
  Forall is_reply eff /\
  (forall r ch, chan_store st !! r = Some ch ->
     Some (topicHex ch) <> topic \/ registered st r = false ->
     chan_store st' !! r = Some ch) /\
  (map_get key (peers st) = None \/
   (forall r ch, registered st r = true -> chan_store st !! r = Some ch ->
                 Some (topicHex ch) <> topic) ->
   st' = st /\ eff = []) /\
  (forall c t, map_get key (peers st) = Some c -> too_large payload = false ->
     topic = Some t ->
     (exists r ch, registered st r = true /\ chan_store st !! r = Some ch /\
                   topicHex ch = t) ->
     exists r ch, find_topic (chan_store st) t (channels st) = Some r /\
       registered st r = true /\ chan_store st !! r = Some ch /\ topicHex ch = t /\
       (st', eff) = route st r {| from := or_default sender (slice0 8 key);
                                  data := payload; ts := sent |}).
Proof.
  assert (forall P : Prop,
            P ->
            channels st = channels st /\ peers st = peers st /\
            conn_store st = conn_store st /\ Forall is_reply [] /\
            (forall r ch, chan_store st !! r = Some ch ->
               Some (topicHex ch) <> topic \/ registered st r = false ->
               chan_store st !! r = Some ch) /\
            (map_get key (peers st) = None \/
             (forall r ch, registered st r = true -> chan_store st !! r = Some ch ->
                           Some (topicHex ch) <> topic) ->
             st = st /\ @nil Effect = []) /\ P) as Hdrop.
  { intros P HP. split; [reflexivity|]. split; [reflexivity|]. split; [reflexivity|].
    split; [constructor|]. split; [intros r ch H _; exact H|].
    split; [intros _; split; reflexivity | exact HP]. }
  unfold _onPeerMsg.
  destruct (map_get key (peers st)) as [c|] eqn:Hk.
  2:{ apply Hdrop. intros; discriminate. }
  destruct (too_large payload) eqn:Hbig.
  { apply Hdrop. intros; discriminate. }
  destruct topic as [t|].
  2:{ apply Hdrop. intros; discriminate. }
  destruct (find_topic (chan_store st) t (channels st)) as [r|] eqn:Hf.
  - destruct (find_topic_registered _ _ _ _ Hf) as (Hreg & ch & Hch & Ht).
    destruct (route_frame st r {| from := or_default sender (slice0 8 key);
                                  data := payload; ts := sent |})
      as (F1 & F2 & F3 & F4 & F5).
    destruct (route st r _) as [st' eff] eqn:Er. cbn [fst snd] in *.
    split; [exact F1|]. split; [exact F2|]. split; [exact F3|]. split; [exact F4|].
    split; [|split].
    + intros r' ch' Hch' Hor. rewrite F5; [exact Hch'|].
      intros ->. destruct Hor as [Hne | Hnr].
      * apply Hne. congruence.
      * unfold registered in Hnr. congruence.
    + intros [H | H]; [discriminate|].
      exfalso. apply (H r ch Hreg Hch). congruence.
    + intros c' t' _ _ Ht' _. injection Ht' as <-.
      exists r, ch. split; [exact Hf|]. split; [exact Hreg|].
      split; [exact Hch|]. split; [exact Ht | symmetry; exact Er].
  - split; [reflexivity|]. split; [reflexivity|]. split; [reflexivity|].
    split; [constructor|]. split; [|split].
    + intros r ch H _. exact H.
    + intros _. split; reflexivity.
    + intros c' t' _ _ Ht' (r & ch & Hreg & Hch & Ht). injection Ht' as <-.
      destruct (find_topic_found _ _ _ _ _ Hreg Hch Ht) as [r' Hr'].
      congruence.
Qed.

(** *** A connection closes *)

Lemma set_delete_In (x y : string) (s : list string) :
  In y (set_delete x s) <-> In y s /\ y <> x.
Proof.
  unfold set_delete. rewrite filter_In. split.
  - intros [H E]. split; [exact H|]. intros ->. rewrite String.eqb_refl in E. discriminate.
  - intros [H Hne]. split; [exact H|].
    destruct (String.eqb x y) eqn:E; [apply String.eqb_eq in E; congruence | reflexivity].
Qed.

Lemma set_delete_idem (x : string) (s : list string) :
  set_delete x (set_delete x s) = set_delete x s.
Proof.
  unfold set_delete. rewrite filter_twice. apply filter_ext.
  intros y. destruct (negb (String.eqb x y)); reflexivity.
Qed.

Lemma map_get_delete_ne {V : Type} (k key : string) (m : list (string * V)) :
  key <> k -> map_get key (map_delete k m) = map_get key m.
Proof.
  intros Hne. unfold map_delete. induction m as [|[k' v] m IH]; simpl; [reflexivity|].
  destruct (String.eqb k k') eqn:E; simpl.
  - apply String.eqb_eq in E. subst k'.
    destruct (String.eqb key k) eqn:E'; [apply String.eqb_eq in E'; contradiction|].
    exact IH.
  - destruct (String.eqb key k'); [reflexivity | exact IH].
Qed.

Lemma close_loop_chan (k : string) (refs : list Ref) (st : Daemon) (r : Ref) :
  chan_store
    (fold_left (fun s r0 => upd_chan r0 (fun ch => set_ch_peers
                                           (set_delete k (ch_peers ch)) ch) s)
       refs st) !! r =
    ((fun ch => set_ch_peers
                  (if existsb (Nat.eqb r) refs then set_delete k (ch_peers ch)
                   else ch_peers ch) ch) <$> chan_store st !! r).
Proof.
  revert st. induction refs as [|r0 refs IH]; intros st; cbn [fold_left existsb].
  - destruct (chan_store st !! r) as [ch|]; simpl; [|reflexivity].
    rewrite set_ch_peers_same. reflexivity.
  - rewrite IH. unfold upd_chan; simpl.
    destruct (Nat.eqb_spec r r0) as [<-|Hne]; cbn [orb].
    + rewrite list_lookup_alter_eq. destruct (chan_store st !! r) as [ch|]; simpl;
        [|reflexivity].
      destruct (existsb (Nat.eqb r) refs); [rewrite set_delete_idem|]; reflexivity.
    + rewrite list_lookup_alter_ne by congruence. reflexivity.
Qed.

Lemma close_loop_frame (k : string) (refs : list Ref) (st : Daemon) :
  let st' := fold_left (fun s r0 => upd_chan r0 (fun ch => set_ch_peers
                                           (set_delete k (ch_peers ch)) ch) s)
               refs st in
  channels st' = channels st /\ peers st' = peers st /\
  conn_store st' = conn_store st /\ timers st' = timers st /\
  suspended st' = suspended st /\ id st' = id st /\ next_id st' = next_id st /\
  now st' = now st /\ exited st' = exited st.
Proof.
  cbn zeta.
  apply (fold_left_inv
           (fun s => channels s = channels st /\ peers s = peers st /\
                     conn_store s = conn_store st /\ timers s = timers st /\
                     suspended s = suspended st /\ id s = id st /\
                     next_id s = next_id st /\ now s = now st /\
                     exited s = exited st)); [repeat split|].
  intros x r0 H. exact H.
Qed.

Lemma dropped_without_key (st : Daemon) (key : string) (msg : PeerRecord) :
  map_get key (peers st) = None -> _onPeerMsg st key msg = (st, []).
Proof. intros H. unfold _onPeerMsg. rewrite H. reflexivity. Qed.

Lemma lines_without_key (key : string) (lines : list string) (st : Daemon) :
  map_get key (peers st) = None ->
  fold_left (onPeerLine key) lines (st, []) = (st, []).
Proof.
  intros H. induction lines as [|l ls IH]; cbn [fold_left]; [reflexivity|].
  unfold onPeerLine at 2. destruct (is_blank l); [exact IH|].
  destruct (JSON_parse l) as [msg|]; [|exact IH].
  rewrite (dropped_without_key _ _ _ H). exact IH.
Qed.

(** X8: when a connection closes, the key of its peer is taken out of the
    peer registry and out of the peer set of every registered channel,
    whichever connection the registry held under that key; nothing is
    written.  From then on, and until a new connection registers the
    key, every record that comes in under the key is dropped: a second
    connection of the same peer that is still open has its chunks framed
    and nothing else.  Other keys, other peer objects and the rest of
    each channel are left as they are, and a second close of the same
    connection does nothing. *)
Theorem close_unregisters_key (st : Daemon) (c : ConnId) (p : Peer) :
  conn_store st !! c = Some p ->
  closed p = false ->
  let k := remoteKey p in
  let '(st', eff) := onPeerClose st c in
  eff = [] /\
  map_get k (peers st') = None /\
  (forall key, key <> k -> map_get key (peers st') = map_get key (peers st)) /\
  channels st' = channels st /\ timers st' = timers st /\
  conn_store st' !! c = Some (set_closed true (set_writable false p)) /\
  (forall c2, c2 <> c -> conn_store st' !! c2 = conn_store st !! c2) /\
  (forall r ch, chan_store st !! r = Some ch ->
     exists ch', chan_store st' !! r = Some ch' /\
       topicHex ch' = topicHex ch /\ messages ch' = messages ch /\
       waiters ch' = waiters ch /\
       forall key, In key (ch_peers ch') <->
                   In key (ch_peers ch) /\ (registered st r = true -> key <> k)) /\
  (forall msg, _onPeerMsg st' k msg = (st', [])) /\
  (forall c2 p2 chunk,
     c2 <> c -> conn_store st !! c2 = Some p2 -> remoteKey p2 = k ->
     writable p2 = true ->
     (js_length (buf p2 ++ chunk) <= MAX_PEER_BUFFER)%Z ->
     onPeerData st' c2 chunk =
       (upd_peer c2 (set_buf (snd (split_lines (buf p2 ++ chunk)))) st', [])) /\
  onPeerClose st' c = (st', []).
Proof.
  intros Hp Hcl k. unfold onPeerClose. rewrite Hp, Hcl.
  set (st1 := upd_peer c (fun p' => set_closed true (set_writable false p')) st).
  set (st2 := fold_left _ (map snd (channels st1)) st1).
  destruct (close_loop_frame (remoteKey p) (map snd (channels st1)) st1)
    as (F1 & F2 & F3 & F4 & _).
  fold st2 in F1, F2, F3, F4.
  assert (conn_store st2 !! c = Some (set_closed true (set_writable false p))) as Hc.
  { rewrite F3. unfold st1, upd_peer; simpl. rewrite list_lookup_alter_eq, Hp.
    reflexivity. }
  assert (map_get k (map_delete (remoteKey p) (peers st2)) = None) as Hnone
    by apply map_get_delete.
  split; [reflexivity|]. split; [exact Hnone|].
  split; [|split; [|split; [|split; [|split; [|split; [|split; [|split]]]]]]].
  - intros key Hne. cbn [peers with_peers]. rewrite map_get_delete_ne by exact Hne.
    rewrite F2. reflexivity.
  - exact F1.
  - exact F4.
  - exact Hc.
  - intros c2 Hne. cbn [conn_store with_peers]. rewrite F3.
    unfold st1, upd_peer; simpl. apply list_lookup_alter_ne. congruence.
  - intros r ch Hch. cbn [chan_store with_peers]. unfold st2.
    rewrite close_loop_chan. change (chan_store st1) with (chan_store st).
    change (channels st1) with (channels st). rewrite Hch. simpl.
    eexists. split; [reflexivity|]. cbn [topicHex messages waiters ch_peers set_ch_peers].
    repeat split.
    + fold (registered st r) in H. destruct (registered st r); [|exact H].
      apply set_delete_In in H. apply H.
    + fold (registered st r) in H. intros Hr. rewrite Hr in H.
      apply set_delete_In in H. apply H.
    + intros [Hin Hne]. fold (registered st r).
      destruct (registered st r); [|exact Hin].
      apply set_delete_In. split; [exact Hin | apply Hne; reflexivity].
  - intros msg. apply dropped_without_key. exact Hnone.
  - intros c2 p2 chunk Hne Hp2 Hkey Hw Hfit.
    assert (conn_store (with_peers (map_delete (remoteKey p) (peers st2)) st2) !! c2
            = Some p2) as Hp2'.
    { cbn [conn_store with_peers]. rewrite F3. unfold st1, upd_peer; simpl.
      rewrite list_lookup_alter_ne by congruence. exact Hp2. }
    rewrite (onPeerData_fits _ _ _ _ Hp2' Hw Hfit). cbn zeta.
    rewrite Hkey. fold k. rewrite lines_without_key by exact Hnone. reflexivity.
  - cbn [conn_store with_peers]. rewrite Hc. reflexivity.
Qed.

(** *** Announcing the topics *)

Lemma same_conns_writes (s s' : Daemon) (kc : string * ConnId) :
  same_conns s s' -> writes_to s' kc = writes_to s kc.
Proof.
  intros [_ H]. unfold writes_to. specialize (H (snd kc)).
  destruct (conn_store s' !! snd kc) as [p'|], (conn_store s !! snd kc) as [p|];
    try discriminate; [|reflexivity].
  injection H as _ Hw _ _. rewrite Hw. reflexivity.
Qed.

Lemma same_known_announces (s s' : Daemon) (topic : string) (kc : string * ConnId) :
  (forall c, (knownTopics <$> conn_store s' !! c) = (knownTopics <$> conn_store s !! c)) ->
  announces s' topic kc = announces s topic kc.
Proof.
  intros H. unfold announces. specialize (H (snd kc)).
  destruct (conn_store s' !! snd kc) as [p'|], (conn_store s !! snd kc) as [p|];
    try discriminate; [|reflexivity].
  injection H as ->. reflexivity.
Qed.

Lemma grown_refl (ch : Channel) : grown ch ch.
Proof. repeat split. auto. Qed.

Lemma grown_trans (a b c : Channel) : grown a b -> grown b c -> grown a c.
Proof.
  intros (A1 & A2 & A3 & A4 & A5) (B1 & B2 & B3 & B4 & B5).
  repeat split; try congruence. auto.
Qed.

Lemma reannounce_peer_step (hello : Wire) (s : Daemon) (e : list Effect)
    (k : string) (c : ConnId) :
  reannounce_peer hello (s, e) (k, c) =
    (match conn_store s !! c with
     | Some p => match knownTopics p with
                 | Some known => match_topics k c known s
                 | None => s
                 end
     | None => s
     end,
     e ++ map (fun c' => EPeerWrite c' hello) (writes_to s (k, c))).
Proof.
  unfold reannounce_peer, writes_to. cbn [fst snd].
  destruct (conn_store s !! c) as [p|]; [|rewrite app_nil_r; reflexivity].
  destruct (writable p), (knownTopics p); cbn [map]; rewrite ?app_nil_r; reflexivity.
Qed.

Lemma reannounce_loop (hello : Wire) (l : list (string * ConnId)) :
  forall (s : Daemon) (e : list Effect),
    let res := fold_left (reannounce_peer hello) l (s, e) in
    snd res = e ++ map (fun c => EPeerWrite c hello) (flat_map (writes_to s) l) /\
    (channels (fst res) = channels s /\ peers (fst res) = peers s /\
     timers (fst res) = timers s /\ suspended (fst res) = suspended s /\
     id (fst res) = id s /\ next_id (fst res) = next_id s /\
     now (fst res) = now s /\ exited (fst res) = exited s) /\
    same_conns s (fst res) /\
    (forall c, (knownTopics <$> conn_store (fst res) !! c) =
               (knownTopics <$> conn_store s !! c)) /\
    (forall r, chan_store s !! r = None -> chan_store (fst res) !! r = None) /\
    forall r ch, chan_store s !! r = Some ch ->
      exists ch', chan_store (fst res) !! r = Some ch' /\ grown ch ch' /\
        forall k, In k (ch_peers ch') <->
                  In k (ch_peers ch) \/
                  (registered s r = true /\
                   In k (flat_map (announces s (topicHex ch)) l)).
Proof.
  drop_unused.
  induction l as [|[k c] l IH]; intros s e; cbn zeta.
  - cbn [fold_left flat_map map fst snd]. rewrite app_nil_r.
    split; [reflexivity|]. split; [repeat split|]. split; [apply same_conns_refl|].
    split; [reflexivity|]. split; [auto|].
    intros r ch Hch. exists ch. split; [exact Hch|]. split; [apply grown_refl|].
    intros k. simpl. tauto.
  - cbn [fold_left flat_map]. rewrite reannounce_peer_step.
    set (e1 := e ++ map (fun c' => EPeerWrite c' hello) (writes_to s (k, c))).
    set (s1 := match conn_store s !! c with
               | Some p => match knownTopics p with
                           | Some known => match_topics k c known s
                           | None => s
                           end
               | None => s
               end).
    assert ((channels s1 = channels s /\ peers s1 = peers s /\
             timers s1 = timers s /\ suspended s1 = suspended s /\
             id s1 = id s /\ next_id s1 = next_id s /\
             now s1 = now s /\ exited s1 = exited s) /\
            same_conns s s1 /\
            (forall c', (knownTopics <$> conn_store s1 !! c') =
                        (knownTopics <$> conn_store s !! c')) /\
            (forall r, chan_store s !! r = None -> chan_store s1 !! r = None) /\
            forall r ch, chan_store s !! r = Some ch ->
              exists ch1, chan_store s1 !! r = Some ch1 /\ grown ch ch1 /\
                forall k', In k' (ch_peers ch1) <->
                           In k' (ch_peers ch) \/
                           (registered s r = true /\
                            In k' (announces s (topicHex ch) (k, c))))
      as (F & Fc & Fk & Fn & Fch).
    { assert ((channels s = channels s /\ peers s = peers s /\
               timers s = timers s /\ suspended s = suspended s /\
               id s = id s /\ next_id s = next_id s /\
               now s = now s /\ exited s = exited s) /\
              same_conns s s /\
              (forall c', (knownTopics <$> conn_store s !! c') =
                          (knownTopics <$> conn_store s !! c')) /\
              (forall r, chan_store s !! r = None -> chan_store s !! r = None) /\
              forall r ch, chan_store s !! r = Some ch ->
                exists ch1, chan_store s !! r = Some ch1 /\ grown ch ch1 /\
                  forall k', In k' (ch_peers ch1) <-> In k' (ch_peers ch) \/
                             (registered s r = true /\ In k' [])) as Hsame.
      { split; [repeat split|]. split; [apply same_conns_refl|].
        split; [reflexivity|]. split; [auto|].
        intros r ch Hch. exists ch. split; [exact Hch|]. split; [apply grown_refl|].
        intros k'. simpl. tauto. }
      unfold s1, announces. cbn [fst snd].
      destruct (conn_store s !! c) as [p|]; [|exact Hsame].
      destruct (knownTopics p) as [known|]; [|exact Hsame].
      split; [apply match_topics_frame|]. split; [apply match_topics_conns|].
      split; [intros c'; apply match_topics_known|].
      split; [intros r; apply match_topics_none|].
      intros r ch Hch. eexists. split; [apply match_topics_chan, Hch|].
      cbn [ch_peers set_ch_peers]. split.
      + repeat split. intros k' Hin. cbn [ch_peers set_ch_peers].
        destruct (registered s r && set_has (topicHex ch) known); [|exact Hin].
        apply set_add_In. right. exact Hin.
      + intros k'. destruct (registered s r); cbn [andb].
        * destruct (set_has (topicHex ch) known).
          -- rewrite set_add_In. simpl. intuition.
          -- simpl. tauto.
        * split; [auto|]. intros [H | [H _]]; [exact H | discriminate]. }
    destruct F as (F1 & F2 & F3 & F4 & F5 & F6 & F7 & F8).
    destruct (IH s1 e1) as (I1 & (G1 & G2 & G3 & G4 & G5 & G6 & G7 & G8) & I3 & I4 & I5 & I6).
    split; [|split; [|split; [|split; [|split]]]].
    + rewrite I1. unfold e1.
      rewrite (flat_map_ext _ _ (fun kc => same_conns_writes s s1 kc Fc)).
      rewrite map_app, app_assoc. reflexivity.
    + repeat split; congruence.
    + eapply same_conns_trans; eassumption.
    + intros c'. rewrite I4. apply Fk.
    + intros r Hr. apply I5, Fn, Hr.
    + intros r ch Hch. destruct (Fch r ch Hch) as (ch1 & H1 & H2 & H3).
      destruct (I6 r ch1 H1) as (ch' & J1 & J2 & J3).
      exists ch'. split; [exact J1|]. split; [eapply grown_trans; eassumption|].
      intros k'. rewrite J3, H3, in_app_iff.
      assert (registered s1 r = registered s r) as ->
        by (unfold registered; rewrite F1; reflexivity).
      destruct H2 as (Ht & _). rewrite Ht.
      rewrite (flat_map_ext _ _ (fun kc => same_known_announces s s1 (topicHex ch) kc Fk)).
      tauto.
Qed.

(** [_reannounce] writes one hello, with the topics of all registered
    channels, to every registered connection that is writable, and
    matches every registered peer with the registered channels whose
    topic its last hello listed. *)
Lemma reannounce_spec (st : Daemon) :
  snd (_reannounce st) =
    map (fun c => EPeerWrite c (WHello (topics_of st) (id st))) (writable_peers st) /\
  (channels (fst (_reannounce st)) = channels st /\
   peers (fst (_reannounce st)) = peers st /\
   timers (fst (_reannounce st)) = timers st /\
   suspended (fst (_reannounce st)) = suspended st /\
   id (fst (_reannounce st)) = id st /\
   next_id (fst (_reannounce st)) = next_id st /\
   now (fst (_reannounce st)) = now st /\
   exited (fst (_reannounce st)) = exited st) /\
  same_conns st (fst (_reannounce st)) /\
  (forall c, (knownTopics <$> conn_store (fst (_reannounce st)) !! c) =
             (knownTopics <$> conn_store st !! c)) /\
  (forall r, chan_store st !! r = None -> chan_store (fst (_reannounce st)) !! r = None) /\
  forall r ch, chan_store st !! r = Some ch ->
    exists ch', chan_store (fst (_reannounce st)) !! r = Some ch' /\ grown ch ch' /\
      forall k, In k (ch_peers ch') <->
                In k (ch_peers ch) \/
                (registered st r = true /\ In k (announcers st (topicHex ch))).
Proof. exact (reannounce_loop (WHello (topics_of st) (id st)) (peers st) st []). Qed.

(** *** Joining a name that is not joined *)

Lemma map_get_set_eq {V : Type} (k : string) (v : V) (m : list (string * V)) :
  map_get k (map_set k v m) = Some v.
Proof.
  induction m as [|[k' v'] m IH]; simpl.
  - rewrite String.eqb_refl. reflexivity.
  - destruct (String.eqb k k') eqn:E; simpl; rewrite E; [reflexivity | exact IH].
Qed.

Lemma map_get_set_ne {V : Type} (k k' : string) (v : V) (m : list (string * V)) :
  k' <> k -> map_get k' (map_set k v m) = map_get k' m.
Proof.
  intros Hne. induction m as [|[k0 v0] m IH]; simpl.
  - destruct (String.eqb k' k) eqn:E; [apply String.eqb_eq in E; contradiction|].
    reflexivity.
  - destruct (String.eqb k k0) eqn:E; simpl.
    + apply String.eqb_eq in E. subst k0.
      destruct (String.eqb k' k) eqn:E'; [apply String.eqb_eq in E'; contradiction|].
      reflexivity.
    + destruct (String.eqb k' k0); [reflexivity | exact IH].
Qed.

Lemma map_set_new {V : Type} (k : string) (v : V) (m : list (string * V)) :
  map_get k m = None -> map_set k v m = m ++ [(k, v)].
Proof.
  induction m as [|[k' v'] m IH]; simpl; [reflexivity|].
  destruct (String.eqb k k'); [discriminate|]. intros H. rewrite (IH H). reflexivity.
Qed.

Lemma map_set_ref (k : string) (r : Ref) (m : list (string * Ref)) :
  existsb (Nat.eqb r) (map snd (map_set k r m)) = true.
Proof.
  induction m as [|[k' v'] m IH]; simpl.
  - rewrite Nat.eqb_refl. reflexivity.
  - destruct (String.eqb k k'); simpl.
    + rewrite Nat.eqb_refl. reflexivity.
    + rewrite IH. apply orb_true_r.
Qed.

Lemma map_has_get {V : Type} (k : string) (m : list (string * V)) :
  map_has k m = false -> map_get k m = None.
Proof. unfold map_has. destruct (map_get k m); [discriminate | reflexivity]. Qed.

Lemma topics_in_longer_store (m : list (string * Ref)) (store extra : list Channel) :
  Forall (fun nr => snd nr < length store) m ->
  flat_map (fun nr => match (store ++ extra) !! snd nr with
                      | Some ch => [topicHex ch]
                      | None => []
                      end) m =
  flat_map (fun nr => match store !! snd nr with
                      | Some ch => [topicHex ch]
                      | None => []
                      end) m.
Proof.
  induction 1 as [|nr m Hx Hm IH]; simpl; [reflexivity|].
  rewrite lookup_app_l by exact Hx. rewrite IH. reflexivity.
Qed.

(** What [_joinChannel] does once the topic is flushed *)
Lemma joinChannel_flushed_spec (s : Daemon) (name topic : string) (handle : nat) :
  refs_valid s ->
  let r := length (chan_store s) in
  let res := _joinChannel_flushed s name topic handle in
  channels (fst res) = map_set name r (channels s) /\
  (peers (fst res) = peers s /\ timers (fst res) = timers s /\
   suspended (fst res) = suspended s /\ id (fst res) = id s /\
   next_id (fst res) = next_id s /\ now (fst res) = now s /\
   exited (fst res) = exited s) /\
  same_conns s (fst res) /\
  (forall c, (knownTopics <$> conn_store (fst res) !! c) =
             (knownTopics <$> conn_store s !! c)) /\
  (exists ch, chan_store (fst res) !! r = Some ch /\
     topicHex ch = topic /\ discovery ch = handle /\ messages ch = [] /\
     waiters ch = [] /\
     forall k, In k (ch_peers ch) <-> In k (announcers s topic)) /\
  (forall r' ch, chan_store s !! r' = Some ch ->
     exists ch', chan_store (fst res) !! r' = Some ch' /\ grown ch ch') /\
  (exists topics,
     snd res = map (fun c => EPeerWrite c (WHello topics (id s))) (writable_peers s) /\
     (map_has name (channels s) = false -> topics = topics_of s ++ [topic])).
Proof.
  intros Hvalid r res. unfold res, _joinChannel_flushed. fold r.
  set (ch0 := {| topicHex := topic; discovery := handle; ch_peers := [];
                 messages := []; waiters := [] |}).
  set (s1 := with_channels (map_set name r (channels s))
               (with_chan_store (chan_store s ++ [ch0]) s)).
  destruct (reannounce_spec s1) as (E & (F1 & F2 & F3 & F4 & F5 & F6 & F7 & F8)
                                      & Fc & Fk & Fn & Fch).
  assert (chan_store s1 !! r = Some ch0) as Hr
    by (unfold s1, r; simpl; apply list_lookup_middle; reflexivity).
  assert (forall r' ch, chan_store s !! r' = Some ch -> chan_store s1 !! r' = Some ch)
    as Hold.
  { intros r' ch Hch. unfold s1; simpl. rewrite lookup_app_l; [exact Hch|].
    eapply lookup_lt_Some, Hch. }
  split; [exact F1|]. split; [repeat split; assumption|]. split; [exact Fc|].
  split; [exact Fk|]. split; [|split].
  - destruct (Fch r ch0 Hr) as (ch & H1 & (G1 & G2 & G3 & G4 & _) & H3).
    exists ch. split; [exact H1|]. repeat split; try assumption.
    + intros Hin. apply H3 in Hin as [[] | [_ Hin]]. exact Hin.
    + intros Hin. apply H3. right. split; [|exact Hin].
      unfold registered, s1; simpl. apply map_set_ref.
  - intros r' ch Hch. destruct (Fch r' ch (Hold r' ch Hch)) as (ch' & H1 & H2 & _).
    exists ch'. split; assumption.
  - exists (topics_of s1). split; [exact E|].
    intros Hnew. unfold topics_of at 1, s1; simpl.
    rewrite (map_set_new _ _ _ (map_has_get _ _ Hnew)), flat_map_app.
    rewrite (topics_in_longer_store _ _ _ Hvalid). simpl.
    change (chan_store s ++ [ch0]) with (chan_store s1). rewrite Hr. reflexivity.
Qed.


Lemma join_runs (st : Daemon) (name secret : string) (sock : Socket) :
  exited st = false -> ids_fresh st -> map_has name (channels st) = false ->
  let topic := deriveTopic scryptSync name secret in
  let res := _joinChannel_flushed (with_next_id (S (next_id st)) st) name topic
               (next_id st) in
  run st [Exec (Join name secret) sock; Resume (next_id st)] =
    (fst res,
     [EDeriveTopic name secret; ESwarmJoin topic] ++ snd res ++
     [EReply sock (RJoined name)]).
Proof.
  intros Hex [_ Hk] Hhas topic res. rewrite run_cons. unfold step at 1 2 3. rewrite Hex.
  unfold _exec, _joinChannel. rewrite Hhas. cbn [fst snd]. rewrite run_cons.
  unfold step. cbn [exited suspend with_next_id with_suspended]. rewrite Hex.
  unfold resume. cbn [suspended suspend with_next_id with_suspended].
  rewrite (take_cont_last _ _ _ Hk).
  change (with_suspended (suspended st) _) with (with_next_id (S (next_id st)) st).
  fold topic. fold res. destruct res as [st2 eff]. cbn [fst snd run].
  rewrite app_nil_r. reflexivity.
Qed.

(** X9: a [join] of a name that is not joined, followed by the flush of
    its topic, registers the name: [this.channels.get(name)] is a channel
    object that was not there before, with the topic derived from the
    name and the secret, the discovery handle of the swarm, an empty
    buffer and no waiting reader.  The topic is derived and the swarm
    joined once, and the one reply is [{ok:true, channel}].  Every other
    name keeps its channel object, with its topic, buffer and waiters;
    the peer registry, the connections and the timers are as before. *)
Theorem join_registers_channel (st : Daemon) (name secret : string) (sock : Socket) :
  reachable st ->
  exited st = false ->
  map_has name (channels st) = false ->
  let topic := deriveTopic scryptSync name secret in
  let '(st', eff) := run st [Exec (Join name secret) sock; Resume (next_id st)] in
  (exists ch, get_channel st' name = Some (length (chan_store st), ch) /\
     chan_store st !! length (chan_store st) = None /\
     topicHex ch = topic /\ discovery ch = next_id st /\
     messages ch = [] /\ waiters ch = []) /\
  replies_to sock eff = [RJoined name] /\
  List.filter (fun e => match e with
                        | EDeriveTopic _ _ | ESwarmJoin _ => true
                        | _ => false
                        end) eff = [EDeriveTopic name secret; ESwarmJoin topic] /\
  (forall name' r ch, name' <> name -> get_channel st name' = Some (r, ch) ->
     exists ch', get_channel st' name' = Some (r, ch') /\ grown ch ch') /\
  (forall name', name' <> name -> get_channel st name' = None ->
     get_channel st' name' = None) /\
  peers st' = peers st /\ same_conns st st' /\ timers st' = timers st /\
  suspended st' = suspended st /\ exited st' = false.
Proof.
  intros Hreach Hex Hnew topic.
  pose proof (reachable_ids_fresh st Hreach) as Hfresh.
  pose proof (reachable_refs_valid st Hreach) as Hvalid.
  rewrite (join_runs st name secret sock Hex Hfresh Hnew). cbn zeta. fold topic.
  set (s := with_next_id (S (next_id st)) st).
  destruct (joinChannel_flushed_spec s name topic (next_id st) Hvalid)
    as (C & (F1 & F2 & F3 & F4 & F5 & F6 & F7) & Fc & Fk & (ch & Hch & G) & Hold
        & (topics & E & _)).
  change (chan_store s) with (chan_store st) in *.
  change (channels s) with (channels st) in *.
  destruct (_joinChannel_flushed s name topic (next_id st)) as [st2 eff2].
  cbn [fst snd] in *.
  split; [|split; [|split; [|split; [|split]]]].
  - exists ch. split.
    + unfold get_channel. rewrite C, map_get_set_eq, Hch. reflexivity.
    + split; [apply lookup_ge_None; lia|].
      destruct G as (G1 & G2 & G3 & G4 & _). repeat split; assumption.
  - rewrite E. cbn [app replies_to]. rewrite replies_to_app.
    assert (forall l, replies_to sock
              (map (fun c => EPeerWrite c (WHello topics (id s))) l) = []) as ->
      by (induction l; [reflexivity | assumption]).
    simpl. rewrite Nat.eqb_refl. reflexivity.
  - rewrite E. cbn [app List.filter]. rewrite List.filter_app.
    assert (forall l, List.filter
              (fun e => match e with
                        | EDeriveTopic _ _ | ESwarmJoin _ => true
                        | _ => false
                        end)
              (map (fun c => EPeerWrite c (WHello topics (id s))) l) = []) as ->
      by (induction l; [reflexivity | assumption]).
    reflexivity.
  - intros name' r ch0 Hne Hget.
    destruct (get_channel_lookup _ _ _ _ Hget) as [Hn Hr].
    destruct (Hold r ch0 Hr) as (ch' & H1 & H2).
    exists ch'. split; [|exact H2].
    unfold get_channel. rewrite C, (map_get_set_ne _ _ _ _ Hne), Hn, H1. reflexivity.
  - intros name' Hne Hget. unfold get_channel in *.
    rewrite C, (map_get_set_ne _ _ _ _ Hne).
    destruct (map_get name' (channels st)) as [r|] eqn:Hn; [|reflexivity].
    destruct (chan_store st !! r) as [c0|] eqn:Hr; [discriminate|].
    exfalso. unfold refs_valid in Hvalid. rewrite Forall_forall in Hvalid.
    apply map_get_In in Hn. apply list_elem_of_In in Hn. apply Hvalid in Hn.
    simpl in Hn. apply lookup_ge_None in Hr. lia.
  - split; [exact F1|]. split; [exact Fc|]. split; [exact F2|].
    split; [exact F3|]. rewrite F7. exact Hex.
Qed.

(** X10: when the flush of a joined topic completes, [_reannounce] writes
    one hello record to every registered connection that is writable,
    in registry order, and to no other; the record carries the daemon's
    id and the topics of all registered channels, the new one last. *)
Theorem join_announces_topics (st : Daemon) (name secret : string) (sock : Socket) :
  reachable st ->
  exited st = false ->
  map_has name (channels st) = false ->
  let topic := deriveTopic scryptSync name secret in
  let hello := WHello (topics_of st ++ [topic]) (id st) in
  let '(st', eff) := run st [Exec (Join name secret) sock; Resume (next_id st)] in
  eff = [EDeriveTopic name secret; ESwarmJoin topic] ++
        map (fun c => EPeerWrite c hello) (writable_peers st) ++
        [EReply sock (RJoined name)] /\
  topics_of st' = topics_of st ++ [topic] /\
  (forall c, In c (writable_peers st) <->
             exists key p, In (key, c) (peers st) /\ conn_store st !! c = Some p /\
                           writable p = true).
Proof.
  intros Hreach Hex Hnew topic hello.
  pose proof (reachable_ids_fresh st Hreach) as Hfresh.
  pose proof (reachable_refs_valid st Hreach) as Hvalid.
  rewrite (join_runs st name secret sock Hex Hfresh Hnew). cbn zeta. fold topic.
  set (s := with_next_id (S (next_id st)) st).
  destruct (joinChannel_flushed_spec s name topic (next_id st) Hvalid)
    as (C & _ & _ & _ & (ch & Hch & G) & Hold & (topics & E & Htop)).
  assert (refs_valid (fst (_joinChannel_flushed s name topic (next_id st)))) as Hvalid2.
  { pose proof (resume_valid (suspend (KJoin name topic (next_id st) sock) st)
                  (next_id st)) as H.
    unfold resume in H. cbn [suspended suspend with_next_id with_suspended] in H.
    rewrite (take_cont_last _ _ _ (proj2 Hfresh)) in H.
    change (with_suspended (suspended st) _) with s in H.
    destruct (_joinChannel_flushed s name topic (next_id st)) as [st2 eff2].
    apply H. exact Hvalid. }
  change (chan_store s) with (chan_store st) in *.
  change (channels s) with (channels st) in *.
  destruct (_joinChannel_flushed s name topic (next_id st)) as [st2 eff2].
  cbn [fst snd] in *.
  rewrite (Htop Hnew) in E. split; [rewrite E; reflexivity|]. split.
  - unfold topics_of at 1. rewrite C, (map_set_new _ _ _ (map_has_get _ _ Hnew)).
    rewrite flat_map_app. cbn [flat_map snd app]. rewrite Hch.
    destruct G as (-> & _). rewrite app_nil_r. f_equal.
    unfold topics_of. clear -Hvalid Hold.
    unfold refs_valid in Hvalid. induction Hvalid as [|nr m Hx Hm IH]; [reflexivity|].
    cbn [flat_map]. rewrite IH. f_equal.
    destruct (chan_store st !! snd nr) as [c0|] eqn:Hc.
    + destruct (Hold _ _ Hc) as (ch' & -> & (-> & _)). reflexivity.
    + apply lookup_ge_None in Hc. lia.
  - intros c. unfold writable_peers. rewrite in_flat_map. split.
    + intros ([k c'] & Hin & Hc). unfold writes_to in Hc. cbn [snd] in Hc.
      destruct (conn_store st !! c') as [p|] eqn:Hp; [|destruct Hc].
      destruct (writable p) eqn:Hw; [|destruct Hc].
      destruct Hc as [<- | []]. exists k, p. repeat split; assumption.
    + intros (k & p & Hin & Hp & Hw). exists (k, c). split; [exact Hin|].
      unfold writes_to. cbn [snd]. rewrite Hp, Hw. left. reflexivity.
Qed.

(** X11: a peer that announced a topic before the channel was joined is
    matched when the join completes: the peer set of the new channel is
    the keys of the registered peers whose last hello listed its topic,
    so a [send] right after the join is written to exactly those of them
    whose connection is writable.  Peers that have said no hello, or
    whose hello did not list the topic, are not matched. *)
Theorem join_matches_known_peers (st : Daemon) (name secret : string) (sock : Socket) :
  reachable st ->
  exited st = false ->
  map_has name (channels st) = false ->
  let topic := deriveTopic scryptSync name secret in
  let '(st', eff) := run st [Exec (Join name secret) sock; Resume (next_id st)] in
  exists ch, get_channel st' name = Some (length (chan_store st), ch) /\
    (forall key, In key (ch_peers ch) <-> In key (announcers st topic)) /\
    (forall key, In key (announcers st topic) <->
       exists c p known, In (key, c) (peers st) /\ conn_store st !! c = Some p /\
                         knownTopics p = Some known /\ In topic known) /\
    (forall c, In c (send_targets st' ch) <->
       exists key p, In key (announcers st topic) /\
                     map_get key (peers st) = Some c /\
                     conn_store st !! c = Some p /\ writable p = true).
Proof.
  intros Hreach Hex Hnew topic.
  pose proof (reachable_ids_fresh st Hreach) as Hfresh.
  pose proof (reachable_refs_valid st Hreach) as Hvalid.
  rewrite (join_runs st name secret sock Hex Hfresh Hnew). cbn zeta. fold topic.
  set (s := with_next_id (S (next_id st)) st).
  destruct (joinChannel_flushed_spec s name topic (next_id st) Hvalid)
    as (C & (F1 & _) & [_ Fc] & _ & (ch & Hch & G) & _).
  change (chan_store s) with (chan_store st) in *.
  change (channels s) with (channels st) in *.
  change (peers s) with (peers st) in *.
  change (conn_store s) with (conn_store st) in *.
  change (announcers s topic) with (announcers st topic) in *.
  destruct (_joinChannel_flushed s name topic (next_id st)) as [st2 eff2].
  cbn [fst snd] in *.
  destruct G as (_ & _ & _ & _ & Hpeers).
  exists ch. split; [|split; [exact Hpeers|split]].
  - unfold get_channel. rewrite C, map_get_set_eq, Hch. reflexivity.
  - intros key. unfold announcers. rewrite in_flat_map. split.
    + intros ([k c] & Hin & Hk). unfold announces in Hk. cbn [fst snd] in Hk.
      destruct (conn_store st !! c) as [p|] eqn:Hp; [|destruct Hk].
      destruct (knownTopics p) as [known|] eqn:Hknown; [|destruct Hk].
      destruct (set_has topic known) eqn:Hhas; [|destruct Hk].
      destruct Hk as [<- | []]. exists c, p, known.
      repeat split; try assumption. apply set_has_In, Hhas.
    + intros (c & p & known & Hin & Hp & Hknown & Ht). exists (key, c).
      split; [exact Hin|]. unfold announces. cbn [fst snd].
      rewrite Hp, Hknown. apply set_has_In in Ht. rewrite Ht. left. reflexivity.
  - intros c. rewrite send_targets_spec. rewrite F1. split.
    + intros (key & p & Hin & Hk & Hp & Hw). apply Hpeers in Hin.
      specialize (Fc c). rewrite Hp in Fc.
      destruct (conn_store st !! c) as [p0|] eqn:Hp0; [|discriminate].
      injection Fc as _ Hw' _ _. exists key, p0. repeat split; try assumption.
      congruence.
    + intros (key & p & Hin & Hk & Hp & Hw). apply Hpeers in Hin.
      specialize (Fc c). rewrite Hp in Fc.
      destruct (conn_store st2 !! c) as [p2|] eqn:Hp2; [|discriminate].
      injection Fc as _ Hw' _ _. exists key, p2. repeat split; try assumption.
      congruence.
Qed.

Lemma join_rejected (st : Daemon) (name secret err : string) (sock : Socket) :
  exited st = false -> ids_fresh st -> map_has name (channels st) = false ->
  run st [Exec (Join name secret) sock; Reject (next_id st) err] =
    (with_next_id (S (next_id st)) st,
     [EDeriveTopic name secret; ESwarmJoin (deriveTopic scryptSync name secret);
      EReply sock (RError err)]).
Proof.
  intros Hex [_ Hk] Hnew. rewrite run_cons. unfold step at 1 2 3. rewrite Hex.
  unfold _exec, _joinChannel. rewrite Hnew. cbn [fst snd]. rewrite run_cons.
  unfold step. cbn [exited suspend with_next_id with_suspended]. rewrite Hex.
  unfold reject. cbn [suspended suspend with_next_id with_suspended].
  rewrite (take_cont_last _ _ _ Hk). reflexivity.
Qed.

(** X12: when the flush of the topic fails, the [join] is answered with the
    error and the name stays unjoined: the registry and the channel
    objects are as before, although the topic was derived and the swarm
    joined, so that a later [join] of the name starts over. *)
Theorem join_failure_leaves_unjoined (st : Daemon) (name secret err : string)
    (sock : Socket) :
  reachable st ->
  exited st = false ->
  map_has name (channels st) = false ->
  let topic := deriveTopic scryptSync name secret in
  let '(st', eff) := run st [Exec (Join name secret) sock; Reject (next_id st) err] in
  eff = [EDeriveTopic name secret; ESwarmJoin topic; EReply sock (RError err)] /\
  st' = with_next_id (S (next_id st)) st /\
  map_has name (channels st') = false /\
  get_channel st' name = None /\
  _joinChannel st' name secret =
    (Some (topic, next_id st'), [EDeriveTopic name secret; ESwarmJoin topic]).
Proof.
  intros Hreach Hex Hnew topic.
  rewrite (join_rejected st name secret err sock Hex (reachable_ids_fresh st Hreach) Hnew).
  split; [reflexivity|]. split; [reflexivity|]. split; [exact Hnew|]. split.
  - unfold get_channel; cbn [channels with_next_id].
    rewrite (map_has_get _ _ Hnew). reflexivity.
  - unfold _joinChannel. cbn [channels with_next_id]. rewrite Hnew. reflexivity.
Qed.

(** *** Matched peers are registered peers *)

Lemma reachable_inv (P : Daemon -> Prop) :
  (forall i, P (init i)) ->
  (forall st ev, P st -> P (fst (step st ev))) ->
  forall st, reachable st -> P st.
Proof.
  intros H0 Hs st (i & evs & ->). generalize (init i) (H0 i).
  induction evs as [|ev evs IH]; intros s Hp; [exact Hp|].
  rewrite run_cons. cbn [fst]. apply IH, Hs, Hp.
Qed.

Lemma fold_left_inv_In {A B : Type} (P : A -> Prop) (f : A -> B -> A) (l : list B)
    (a : A) :
  P a -> (forall x b, In b l -> P x -> P (f x b)) -> P (fold_left f l a).
Proof.
  revert a. induction l as [|b l IH]; intros a Ha Hf; simpl; [exact Ha|].
  apply IH.
  - apply Hf; [left; reflexivity | exact Ha].
  - intros x b' Hin. apply Hf. right. exact Hin.
Qed.

Lemma In_map_has {V : Type} (k : string) (v : V) (m : list (string * V)) :
  In (k, v) m -> map_has k m = true.
Proof.
  unfold map_has. induction m as [|[k' v'] m IH]; simpl; [intros []|].
  intros [H | H].
  - injection H as -> ->. rewrite String.eqb_refl. reflexivity.
  - destruct (String.eqb k k'); [reflexivity | apply IH, H].
Qed.

Lemma map_has_set {V : Type} (k k' : string) (v : V) (m : list (string * V)) :
  map_has k' m = true -> map_has k' (map_set k v m) = true.
Proof.
  unfold map_has. destruct (String.eqb_spec k' k) as [->|Hne].
  - rewrite map_get_set_eq. reflexivity.
  - rewrite (map_get_set_ne _ _ _ _ Hne). auto.
Qed.

Lemma map_get_registered (st : Daemon) (name : string) (r : Ref) :
  map_get name (channels st) = Some r -> registered st r = true.
Proof.
  intros H. apply map_get_In in H. unfold registered. apply existsb_exists.
  exists r. split; [|apply Nat.eqb_refl].
  apply in_map_iff. exists (name, r). split; [reflexivity | exact H].
Qed.

Lemma same_matching_refl (st : Daemon) : same_matching st st.
Proof. repeat split. Qed.

Lemma same_matching_trans (a b c : Daemon) :
  same_matching a b -> same_matching b c -> same_matching a c.
Proof.
  intros (A1 & A2 & A3 & A4 & A5) (B1 & B2 & B3 & B4 & B5).
  split; [congruence|]. split; [congruence|]. split; [congruence|]. split.
  - intros r. rewrite B4. apply A4.
  - intros x. rewrite B5. apply A5.
Qed.

Lemma same_matching_upd_chan (st : Daemon) (r : Ref) (f : Channel -> Channel) :
  (forall ch, ch_peers (f ch) = ch_peers ch) -> same_matching st (upd_chan r f st).
Proof.
  intros Hf. split; [reflexivity|]. split; [reflexivity|]. split; [|split].
  - unfold upd_chan; simpl. apply length_alter.
  - intros r'. unfold upd_chan; simpl. destruct (decide (r = r')) as [<-|Hne].
    + rewrite list_lookup_alter_eq. destruct (chan_store st !! r); simpl; [|reflexivity].
      rewrite Hf. reflexivity.
    + rewrite list_lookup_alter_ne by exact Hne. reflexivity.
  - reflexivity.
Qed.

Lemma same_matching_upd_peer (st : Daemon) (c : ConnId) (f : Peer -> Peer) :
  (forall p, remoteKey (f p) = remoteKey p) -> same_matching st (upd_peer c f st).
Proof.
  intros Hf. split; [reflexivity|]. split; [reflexivity|]. split; [reflexivity|].
  split; [reflexivity|].
  intros c'. unfold upd_peer; simpl. destruct (decide (c = c')) as [<-|Hne].
  - rewrite list_lookup_alter_eq. destruct (conn_store st !! c); simpl; [|reflexivity].
    rewrite Hf. reflexivity.
  - rewrite list_lookup_alter_ne by exact Hne. reflexivity.
Qed.

Lemma same_matching_ok (st st' : Daemon) :
  same_matching st st' -> matching_ok st -> matching_ok st'.
Proof.
  intros (S1 & S2 & S3 & S4 & S5) (Hv & Hp & Hd & Hm).
  split; [|split; [|split]].
  - unfold refs_valid in *. rewrite S1, S3. exact Hv.
  - intros key c Hk. rewrite S2 in Hk. destruct (Hp key c Hk) as (p & Hc & Hkey).
    specialize (S5 c). rewrite Hc in S5.
    destruct (conn_store st' !! c) as [p'|]; [|discriminate].
    injection S5 as S5. exists p'. split; [reflexivity | congruence].
  - unfold peers_dedup in *. rewrite Forall_lookup in Hd. apply Forall_lookup.
    intros r ch' Hch'. specialize (S4 r). rewrite Hch' in S4.
    destruct (chan_store st !! r) as [ch|] eqn:Hch; [|discriminate].
    injection S4 as ->. apply (Hd r ch Hch).
  - intros name r ch' key Hget Hin. rewrite S2.
    destruct (get_channel_lookup _ _ _ _ Hget) as [Hn Hr].
    specialize (S4 r). rewrite Hr in S4.
    destruct (chan_store st !! r) as [ch|] eqn:Hch; [|discriminate].
    injection S4 as S4. apply (Hm name r ch key).
    + unfold get_channel. rewrite <- S1, Hn, Hch. reflexivity.
    + rewrite <- S4. exact Hin.
Qed.

Lemma route_matching (st : Daemon) (r : Ref) (entry : Entry) :
  same_matching st (fst (route st r entry)).
Proof.
  unfold route. destruct (chan_store st !! r) as [ch|]; [|apply same_matching_refl].
  destruct (waiters ch) as [|w ws]; cbn [fst].
  - apply same_matching_upd_chan. reflexivity.
  - apply (same_matching_upd_chan st r (fun ch' => set_waiters (tl (waiters ch')) ch')).
    reflexivity.
Qed.

Lemma set_add_NoDup (x : string) (s : list string) : NoDup s -> NoDup (set_add x s).
Proof.
  intros H. unfold set_add. destruct (set_has x s) eqn:E; [exact H|].
  apply NoDup_app. split; [exact H|]. split.
  - intros y Hy Hx. apply list_elem_of_In in Hx. destruct Hx as [<- | []].
    apply list_elem_of_In, set_has_In in Hy. congruence.
  - apply NoDup_singleton.
Qed.

Lemma set_delete_NoDup (x : string) (s : list string) : NoDup s -> NoDup (set_delete x s).
Proof.
  unfold set_delete. induction 1 as [|y s Hy Hs IH]; simpl; [constructor|].
  destruct (negb (String.eqb x y)); [|exact IH].
  constructor; [|exact IH]. intros Hin. apply Hy.
  apply list_elem_of_In in Hin. apply filter_In in Hin as [Hin _].
  apply list_elem_of_In. exact Hin.
Qed.

Lemma match_topics_matching (key : string) (c : ConnId) (topics : list string)
    (st : Daemon) :
  map_has key (peers st) = true ->
  matching_ok st -> matching_ok (match_topics key c topics st).
Proof.
  intros Hkey (Hv & Hp & Hd & Hm).
  destruct (match_topics_frame key c topics st) as (F1 & F2 & _).
  pose proof (match_topics_conns key c topics st) as [_ Fc].
  split; [|split; [|split]].
  - eapply same_registry_valid; [apply match_topics_registry | exact Hv].
  - intros k c' Hk. rewrite F2 in Hk. destruct (Hp k c' Hk) as (p & Hc & Hkey').
    specialize (Fc c'). rewrite Hc in Fc.
    destruct (conn_store (match_topics key c topics st) !! c') as [p'|]; [|discriminate].
    injection Fc as Fc _ _ _. exists p'. split; [reflexivity | congruence].
  - unfold peers_dedup in *. rewrite Forall_lookup in Hd. apply Forall_lookup.
    intros r ch' Hch'.
    destruct (chan_store st !! r) as [ch|] eqn:Hch.
    + rewrite (match_topics_chan key c topics st r ch Hch) in Hch'.
      injection Hch' as <-. cbn [ch_peers set_ch_peers].
      destruct (registered st r && set_has (topicHex ch) topics);
        [apply set_add_NoDup|]; apply (Hd r ch Hch).
    + rewrite (match_topics_none key c topics st r Hch) in Hch'. discriminate.
  - intros name r ch' k Hget Hin. rewrite F2.
    destruct (get_channel_lookup _ _ _ _ Hget) as [Hn Hr]. rewrite F1 in Hn.
    destruct (chan_store st !! r) as [ch|] eqn:Hch.
    + rewrite (match_topics_chan key c topics st r ch Hch) in Hr.
      injection Hr as <-. cbn [ch_peers set_ch_peers] in Hin.
      assert (k = key \/ In k (ch_peers ch)) as [-> | Hin'].
      { destruct (registered st r && set_has (topicHex ch) topics);
          [apply set_add_In in Hin; exact Hin | right; exact Hin]. }
      * exact Hkey.
      * apply (Hm name r ch k); [|exact Hin'].
        unfold get_channel. rewrite Hn, Hch. reflexivity.
    + rewrite (match_topics_none key c topics st r Hch) in Hr. discriminate.
Qed.

Lemma onPeerMsg_matching (st : Daemon) (key : string) (msg : PeerRecord) :
  matching_ok st -> matching_ok (fst (_onPeerMsg st key msg)).
Proof.
  intros H. unfold _onPeerMsg.
  destruct (map_get key (peers st)) as [c|] eqn:Hk; [|exact H].
  destruct msg as [topics | topic payload sender sent |]; [| |exact H].
  - cbn [fst]. apply match_topics_matching.
    + unfold map_has. cbn [peers upd_peer with_conn_store]. rewrite Hk. reflexivity.
    + eapply same_matching_ok; [|exact H]. apply same_matching_upd_peer. reflexivity.
  - destruct (too_large payload); [exact H|].
    destruct topic as [t|]; [|exact H].
    destruct (find_topic (chan_store st) t (channels st)) as [r|]; [|exact H].
    eapply same_matching_ok; [apply route_matching | exact H].
Qed.

Lemma onPeerData_matching (st : Daemon) (c : ConnId) (chunk : string) :
  matching_ok st -> matching_ok (fst (onPeerData st c chunk)).
Proof.
  intros H. unfold onPeerData.
  destruct (conn_store st !! c) as [p|]; [|exact H].
  destruct (negb (writable p)); [exact H|].
  destruct (MAX_PEER_BUFFER <? js_length (buf p ++ chunk))%Z.
  - eapply same_matching_ok; [|exact H].
    apply (same_matching_upd_peer st c (fun p' => set_writable false (set_buf _ p'))).
    reflexivity.
  - destruct (split_lines (buf p ++ chunk)) as [lines rest].
    apply (fold_left_inv (fun acc => matching_ok (fst acc))).
    + eapply same_matching_ok; [|exact H]. apply same_matching_upd_peer. reflexivity.
    + intros [s e] l Hs. cbn [fst] in *. unfold onPeerLine.
      destruct (is_blank l); [exact Hs|].
      destruct (JSON_parse l) as [msg|]; [|exact Hs].
      pose proof (onPeerMsg_matching s (remoteKey p) msg Hs) as Hm.
      destruct (_onPeerMsg s (remoteKey p) msg) as [s' e']. exact Hm.
Qed.

Lemma reannounce_matching (st : Daemon) :
  matching_ok st -> matching_ok (fst (_reannounce st)).
Proof.
  intros H. unfold _reannounce.
  apply (fold_left_inv_In
           (fun acc => matching_ok (fst acc) /\ peers (fst acc) = peers st)
           (reannounce_peer (WHello (topics_of st) (id st))) (peers st) (st, [])).
  - split; [exact H | reflexivity].
  - intros [s e] [k c] Hin [Hs Hp]. cbn [fst] in *. rewrite reannounce_peer_step.
    cbn [fst].
    destruct (conn_store s !! c) as [p|]; [|split; assumption].
    destruct (knownTopics p) as [known|]; [|split; assumption].
    split.
    + apply match_topics_matching; [|exact Hs]. rewrite Hp.
      eapply In_map_has, Hin.
    + destruct (match_topics_frame k c known s) as (_ & F2 & _). congruence.
Qed.

Ltac same_matching_now :=
  split; [reflexivity|]; split; [reflexivity|]; split; [reflexivity|];
  split; intros; reflexivity.

Lemma exec_matching (st : Daemon) (cmd : Command) (sock : Socket) :
  same_matching st (fst (_exec st cmd sock)).
Proof.
  destruct cmd as [name secret | name m | name wait timeout | name | | | | a];
    unfold _exec, _joinChannel, _leaveChannel; try same_matching_now.
  - destruct (map_has name (channels st)); same_matching_now.
  - destruct (too_large m); [same_matching_now|].
    destruct (_send st name m) as [e|[n w]]; same_matching_now.
  - destruct (get_channel st name) as [[r ch]|]; [|same_matching_now].
    destruct (nonempty (messages ch) || negb wait); cbn [fst].
    + apply same_matching_upd_chan. reflexivity.
    + apply (same_matching_trans _
               (upd_chan r (fun ch' => set_waiters
                              (waiters ch' ++ [{| wid := next_id st; wsock := sock |}])
                              ch') st)).
      * apply same_matching_upd_chan. reflexivity.
      * same_matching_now.
  - destruct (get_channel st name) as [[r ch]|]; same_matching_now.
Qed.

Lemma tick_matching (st : Daemon) : same_matching st (fst (tick st)).
Proof.
  destruct (tick_spec st) as [(_ & A2 & A3 & A4 & _ & _ & _ & _ & _ & A10) _].
  split; [exact A2|]. split; [exact A3|]. split; [|split].
  - apply tick_registry.
  - intros r. rewrite A10. destruct (chan_store st !! r); reflexivity.
  - intros c. rewrite A4. reflexivity.
Qed.

Lemma resume_matching (st : Daemon) (k : nat) :
  matching_ok st -> matching_ok (fst (resume st k)).
Proof.
  intros H. pose proof (resume_valid st k (proj1 H)) as Hvalid. revert Hvalid.
  unfold resume.
  destruct (take_cont k (suspended st)) as [[c rest]|]; [|intros _; exact H].
  destruct H as (Hv & Hp & Hd & Hm).
  destruct c as [name topic handle sock | name sock | sock].
  - intros _. unfold _joinChannel_flushed.
    match goal with
    | |- context [_reannounce ?s] =>
        assert (matching_ok s) as Hs;
        [| pose proof (reannounce_matching s Hs) as Hr;
           destruct (_reannounce s); exact Hr]
    end.
    split; [|split; [|split]].
    + unfold refs_valid; simpl. rewrite last_length. apply map_set_valid, Hv.
    + intros key c Hk. cbn [peers conn_store with_channels with_chan_store with_suspended]
        in *. apply Hp, Hk.
    + unfold peers_dedup; simpl. apply Forall_app. split; [exact Hd|].
      constructor; [apply NoDup_nil_2 | constructor].
    + intros n r ch key Hget Hin.
      cbn [peers with_channels with_chan_store with_suspended].
      destruct (get_channel_lookup _ _ _ _ Hget) as [Hn Hr].
      cbn [channels chan_store with_channels with_chan_store with_suspended] in Hn, Hr.
      destruct (String.eqb_spec n name) as [->|Hne].
      * rewrite map_get_set_eq in Hn. injection Hn as <-.
        rewrite list_lookup_middle in Hr by reflexivity. injection Hr as <-.
        destruct Hin.
      * rewrite (map_get_set_ne _ _ _ _ Hne) in Hn.
        assert (r < length (chan_store st)) as Hlt.
        { unfold refs_valid in Hv. rewrite Forall_forall in Hv.
          apply map_get_In, list_elem_of_In, Hv in Hn. exact Hn. }
        rewrite lookup_app_l in Hr by exact Hlt.
        apply (Hm n r ch key); [|exact Hin].
        unfold get_channel. rewrite Hn, Hr. reflexivity.
  - intros Hvalid. cbn [fst] in *. split; [exact Hvalid|]. split; [exact Hp|].
    split; [exact Hd|].
    intros n r ch key Hget Hin.
    cbn [peers _leaveChannel_destroyed with_channels with_suspended].
    destruct (get_channel_lookup _ _ _ _ Hget) as [Hn Hr].
    cbn [channels chan_store _leaveChannel_destroyed with_channels with_suspended]
      in Hn, Hr.
    destruct (String.eqb_spec n name) as [->|Hne].
    + rewrite map_get_delete in Hn. discriminate.
    + rewrite (map_get_delete_ne _ _ _ Hne) in Hn.
      apply (Hm n r ch key); [|exact Hin].
      unfold get_channel. rewrite Hn, Hr. reflexivity.
  - intros _. repeat split; assumption.
Qed.

Lemma onPeer_matching (st : Daemon) (key : string) :
  matching_ok st -> matching_ok (fst (_onPeer st key)).
Proof.
  intros (Hv & Hp & Hd & Hm). unfold _onPeer. cbn [fst].
  split; [exact Hv|]. split; [|split; [exact Hd|]].
  - intros k c Hk. cbn [peers conn_store with_peers with_conn_store] in *.
    destruct (String.eqb_spec k key) as [->|Hne].
    + rewrite map_get_set_eq in Hk. injection Hk as <-.
      eexists. split; [apply list_lookup_middle; reflexivity | reflexivity].
    + rewrite (map_get_set_ne _ _ _ _ Hne) in Hk.
      destruct (Hp k c Hk) as (p & Hc & Hkey). exists p. split; [|exact Hkey].
      rewrite lookup_app_l; [exact Hc|]. eapply lookup_lt_Some, Hc.
  - intros n r ch k Hget Hin. cbn [peers with_peers with_conn_store].
    apply map_has_set. apply (Hm n r ch k); assumption.
Qed.

Lemma close_loop_dedup (k : string) (refs : list Ref) (st : Daemon) :
  peers_dedup st ->
  peers_dedup (fold_left (fun s r0 => upd_chan r0 (fun ch => set_ch_peers
                                        (set_delete k (ch_peers ch)) ch) s) refs st).
Proof.
  intros H. apply fold_left_inv; [exact H|].
  intros x r Hx. unfold peers_dedup, upd_chan in *; simpl.
  apply Forall_alter; [exact Hx|].
  intros ch _ Hch. cbn [ch_peers set_ch_peers]. apply set_delete_NoDup, Hch.
Qed.

Lemma onPeerClose_matching (st : Daemon) (c : ConnId) :
  matching_ok st -> matching_ok (fst (onPeerClose st c)).
Proof.
  intros H. unfold onPeerClose.
  destruct (conn_store st !! c) as [p|] eqn:Hc; [|exact H].
  destruct (closed p); [exact H|].
  destruct H as (Hv & Hp & Hd & Hm).
  set (st1 := upd_peer c (fun p' => set_closed true (set_writable false p')) st).
  destruct (close_loop_frame (remoteKey p) (map snd (channels st1)) st1)
    as (F1 & F2 & F3 & _).
  cbn zeta in F1, F2, F3. cbn [fst].
  set (st2 := fold_left _ (map snd (channels st1)) st1) in *.
  split; [|split; [|split]].
  - unfold refs_valid; cbn [channels chan_store with_peers]. rewrite F1.
    assert (length (chan_store st2) = length (chan_store st)) as ->; [|exact Hv].
    unfold st2. apply (fold_left_inv (fun s => length (chan_store s) = length (chan_store st)));
      [reflexivity|].
    intros x r Hx. unfold upd_chan; simpl. rewrite length_alter. exact Hx.
  - intros key c' Hk. cbn [peers conn_store with_peers] in *. rewrite F2 in Hk.
    destruct (String.eqb_spec key (remoteKey p)) as [->|Hne].
    + rewrite map_get_delete in Hk. discriminate.
    + rewrite (map_get_delete_ne _ _ _ Hne) in Hk.
      destruct (Hp key c' Hk) as (p' & Hc' & Hkey). rewrite F3.
      unfold st1, upd_peer; simpl. destruct (decide (c = c')) as [<-|Hnc].
      * rewrite list_lookup_alter_eq, Hc'. eexists. split; [reflexivity|]. exact Hkey.
      * rewrite list_lookup_alter_ne by exact Hnc. exists p'. auto.
  - unfold peers_dedup; cbn [chan_store with_peers]. apply close_loop_dedup. exact Hd.
  - intros n r ch' key Hget Hin. cbn [peers with_peers]. rewrite F2.
    destruct (get_channel_lookup _ _ _ _ Hget) as [Hn Hr].
    cbn [channels chan_store with_peers] in Hn, Hr. rewrite F1 in Hn.
    unfold st2 in Hr. rewrite close_loop_chan in Hr.
    change (chan_store st1) with (chan_store st) in Hr.
    change (channels st1) with (channels st) in Hr, Hn.
    fold (registered st r) in Hr. rewrite (map_get_registered _ _ _ Hn) in Hr.
    destruct (chan_store st !! r) as [ch|] eqn:Hch; [|discriminate].
    injection Hr as <-. cbn [ch_peers set_ch_peers] in Hin.
    apply set_delete_In in Hin as [Hin Hne].
    unfold map_has. rewrite (map_get_delete_ne _ _ _ Hne).
    apply (Hm n r ch key); [|exact Hin].
    unfold get_channel. rewrite Hn, Hch. reflexivity.
Qed.

Lemma step_matching (st : Daemon) (ev : Event) :
  matching_ok st -> matching_ok (fst (step st ev)).
Proof.
  intros H. unfold step. destruct (exited st); [exact H|].
  destruct ev as [cmd sock | k | k err | key | c chunk | c | c |].
  - eapply same_matching_ok; [apply exec_matching | exact H].
  - apply resume_matching, H.
  - unfold reject. destruct (take_cont k (suspended st)) as [[c rest]|]; exact H.
  - apply onPeer_matching, H.
  - apply onPeerData_matching, H.
  - apply onPeerClose_matching, H.
  - unfold onPeerError. destruct (conn_store st !! c) as [p|]; [|exact H].
    destruct (writable p); [|exact H].
    eapply same_matching_ok; [|exact H]. apply same_matching_upd_peer. reflexivity.
  - eapply same_matching_ok; [apply tick_matching | exact H].
Qed.

Lemma reachable_matching (st : Daemon) : reachable st -> matching_ok st.
Proof.
  apply reachable_inv; [|apply step_matching].
  intros i. split; [constructor|]. split; [intros key c H; discriminate|].
  split; [constructor|]. intros n r ch key H. discriminate.
Qed.

Lemma send_targets_NoDup (st : Daemon) (ch : Channel) :
  peers_valid st -> NoDup (ch_peers ch) -> NoDup (send_targets st ch).
Proof.
  intros Hp. unfold send_targets.
  induction 1 as [|key l Hkey Hl IH]; cbn [flat_map]; [constructor|].
  apply NoDup_app. split; [|split; [|exact IH]].
  - destruct (map_get key (peers st)) as [c|]; [|constructor].
    destruct (conn_store st !! c) as [p|]; [|constructor].
    destruct (writable p); [apply NoDup_singleton | constructor].
  - intros c Hc Hin. apply list_elem_of_In in Hc, Hin.
    destruct (map_get key (peers st)) as [c0|] eqn:Hk; [|destruct Hc].
    destruct (Hp key c0 Hk) as (p & Hc0 & Hkey0). rewrite Hc0 in Hc.
    destruct (writable p); [|destruct Hc]. destruct Hc as [<- | []].
    apply in_flat_map in Hin as (key' & Hin' & Hc').
    destruct (map_get key' (peers st)) as [c1|] eqn:Hk'; [|destruct Hc'].
    destruct (Hp key' c1 Hk') as (p1 & Hc1 & Hkey1). rewrite Hc1 in Hc'.
    destruct (writable p1); [|destruct Hc']. destruct Hc' as [<- | []].
    assert (key' = key) as -> by congruence.
    apply Hkey, list_elem_of_In, Hin'.
Qed.

Lemma send_targets_length (st : Daemon) (ch : Channel) :
  length (send_targets st ch) <= length (ch_peers ch).
Proof.
  unfold send_targets. induction (ch_peers ch) as [|key l IH]; cbn [flat_map length];
    [lia|].
  rewrite length_app.
  assert (length match map_get key (peers st) with
                 | Some c => match conn_store st !! c with
                             | Some p => if writable p then [c] else []
                             | None => []
                             end
                 | None => []
                 end <= 1); [|lia].
  destruct (map_get key (peers st)) as [c|]; [|simpl; lia].
  destruct (conn_store st !! c) as [p|]; [|simpl; lia].
  destruct (writable p); simpl; lia.
Qed.

(** X13: in every reachable state the matched peers of a registered channel
    are peers of the registry: each key of its peer set is listed once
    and is registered with a peer object that carries it.  A [send]
    therefore finds a peer object for every matched key, writes to no
    connection twice, and delivers to at most as many peers as the
    channel has matched, which is the count [status] reports. *)
Theorem matched_peers_are_registered (st : Daemon) (name : string) (r : Ref)
    (ch : Channel) :
  reachable st ->
  get_channel st name = Some (r, ch) ->
  NoDup (ch_peers ch) /\
  (forall key, In key (ch_peers ch) ->
     exists c p, map_get key (peers st) = Some c /\
                 conn_store st !! c = Some p /\ remoteKey p = key) /\
  (forall key c, map_get key (peers st) = Some c ->
     exists p, conn_store st !! c = Some p /\ remoteKey p = key) /\
  NoDup (send_targets st ch) /\
  length (send_targets st ch) <= length (ch_peers ch) /\
  (forall m, exists writes,
     _send st name m = inr (length (send_targets st ch), writes) /\
     NoDup writes /\ length writes <= length (ch_peers ch)).
Proof.
  intros Hreach Hget.
  destruct (reachable_matching st Hreach) as (Hv & Hp & Hd & Hm).
  destruct (get_channel_lookup _ _ _ _ Hget) as [Hn Hr].
  assert (NoDup (ch_peers ch)) as Hnd.
  { unfold peers_dedup in Hd. rewrite Forall_lookup in Hd. apply (Hd r ch Hr). }
  split; [exact Hnd|]. split; [|split; [exact Hp|split; [|split]]].
  - intros key Hin. pose proof (Hm name r ch key Hget Hin) as Hhas.
    unfold map_has in Hhas.
    destruct (map_get key (peers st)) as [c|] eqn:Hk; [|discriminate].
    destruct (Hp key c Hk) as (p & Hc & Hkey). exists c, p. auto.
  - apply send_targets_NoDup; assumption.
  - apply send_targets_length.
  - intros m. rewrite (send_joined _ _ m _ _ Hget). eexists. split; [reflexivity|].
    split.
    + apply NoDup_fmap_2; [intros x y H; injection H; auto|].
      apply send_targets_NoDup; assumption.
    + rewrite length_map. apply send_targets_length.
Qed.

(** *** The status command *)



(** *** After a leave *)

(** X15: once a [leave] has completed the name is unknown to the daemon: a
    [read] or a [send] on it is answered with the membership error, and
    a message record for its topic is dropped unless another registered
    channel has the same topic.  What the buffer held is out of reach:
    a new [join] of the name registers another channel object, whose
    buffer is empty.  Every other name is registered as before. *)
Theorem leave_forgets_channel (st : Daemon) (name : string) (r : Ref) (ch : Channel)
    (sock : Socket) :
  reachable st ->
  exited st = false ->
  get_channel st name = Some (r, ch) ->
  let '(st', eff) := run st [Exec (Leave name) sock; Resume (next_id st)] in
  map_has name (channels st') = false /\
  (forall wait timeout s,
     _exec st' (Read name wait timeout) s =
       (st', [EReply s (RError ("Not in channel: " ++ name)%string)])) /\
  (forall m s, too_large m = false ->
     _exec st' (Send name m) s =
       (st', [EReply s (RError ("Not in channel: " ++ name)%string)])) /\
  (forall name', name' <> name -> get_channel st' name' = get_channel st name') /\
  ((forall n r' ch', In (n, r') (channels st) -> n <> name ->
      chan_store st !! r' = Some ch' -> topicHex ch' <> topicHex ch) ->
   forall key payload sender sent,
     _onPeerMsg st' key (PMsg (Some (topicHex ch)) payload sender sent) = (st', [])) /\
  (forall secret s,
     let '(st2, eff2) := run st' [Exec (Join name secret) s; Resume (next_id st')] in
     exists ch2, get_channel st2 name = Some (length (chan_store st), ch2) /\
       length (chan_store st) <> r /\ messages ch2 = [] /\ waiters ch2 = []).
Proof.
  intros Hreach Hex Hget.
  pose proof (reachable_ids_fresh st Hreach) as Hfresh.
  assert (reachable (fst (run st [Exec (Leave name) sock; Resume (next_id st)])))
    as Hreach' by (apply reachable_run, Hreach).
  rewrite (leave_runs _ _ _ _ _ Hex Hfresh Hget) in *. cbn [fst] in Hreach'.
  set (st' := with_channels _ _) in *.
  destruct (get_channel_lookup _ _ _ _ Hget) as [Hn Hr].
  assert (get_channel st' name = None) as Hnone.
  { unfold get_channel, st'. cbn [channels with_channels].
    rewrite map_get_delete. reflexivity. }
  assert (map_has name (channels st') = false) as Hhas.
  { unfold map_has, st'. cbn [channels with_channels].
    rewrite map_get_delete. reflexivity. }
  split; [exact Hhas|]. split; [|split; [|split; [|split]]].
  - intros wait timeout s. unfold _exec. rewrite Hnone. reflexivity.
  - intros m s Hfit. rewrite (send_not_too_large _ _ _ _ Hfit).
    rewrite (send_unjoined _ _ _ Hnone). reflexivity.
  - intros name' Hne. unfold get_channel, st'.
    cbn [channels chan_store with_channels with_suspended suspend with_next_id].
    rewrite (map_get_delete_ne _ _ _ Hne). reflexivity.
  - intros Hother key payload sender sent. unfold _onPeerMsg.
    destruct (map_get key (peers st')) as [c|]; [|reflexivity].
    destruct (too_large payload); [reflexivity|].
    rewrite find_topic_none; [reflexivity|].
    intros r' ch' Hreg Hch'.
    apply existsb_exists in Hreg as (x & Hin & Hx).
    apply Nat.eqb_eq in Hx. subst x. apply in_map_iff in Hin as ([n r0] & Hr0 & Hin).
    simpl in Hr0. subst r0. unfold st' in Hin. cbn [channels with_channels] in Hin.
    unfold map_delete in Hin. apply filter_In in Hin as [Hin Hn'].
    simpl in Hn'. apply (Hother n r' ch' Hin); [| exact Hch'].
    intros ->. rewrite String.eqb_refl in Hn'. discriminate.
  - intros secret s.
    rewrite (join_runs st' name secret s Hex (reachable_ids_fresh st' Hreach') Hhas).
    cbn zeta.
    destruct (joinChannel_flushed_spec (with_next_id (S (next_id st')) st') name
                (deriveTopic scryptSync name secret) (next_id st')
                (reachable_refs_valid st' Hreach'))
      as (C & _ & _ & _ & (ch2 & Hch2 & _ & _ & G5 & G6 & _) & _).
    change (chan_store (with_next_id (S (next_id st')) st')) with (chan_store st) in *.
    exists ch2. split; [|split; [|split; [exact G5 | exact G6]]].
    + unfold get_channel. rewrite C, map_get_set_eq, Hch2. reflexivity.
    + intros E. apply lookup_lt_Some in Hr. lia.
Qed.

(** *** Buffered messages keep their order *)

Lemma buffer_grows (key : string) (c : ConnId) (t : string) (r : Ref)
    (recs : list (option string * option string * option Z)) :
  forall (st : Daemon) (ch : Channel) (e0 : list Effect),
    map_get key (peers st) = Some c ->
    find_topic (chan_store st) t (channels st) = Some r ->
    chan_store st !! r = Some ch -> waiters ch = [] ->
    Forall (fun rec => too_large (fst (fst rec)) = false) recs ->
    let entry rec := {| from := or_default (snd (fst rec)) (slice0 8 key);
                        data := fst (fst rec); ts := snd rec |} in
    let res :=
      fold_left (fun acc rec =>
                   (fst (_onPeerMsg (fst acc) key
                           (PMsg (Some t) (fst (fst rec)) (snd (fst rec)) (snd rec))),
                    snd acc ++
                    snd (_onPeerMsg (fst acc) key
                           (PMsg (Some t) (fst (fst rec)) (snd (fst rec)) (snd rec)))))
        recs (st, e0) in
    snd res = e0 /\
    channels (fst res) = channels st /\ peers (fst res) = peers st /\
    conn_store (fst res) = conn_store st /\ timers (fst res) = timers st /\
    chan_store (fst res) !! r = Some (set_messages (messages ch ++ map entry recs) ch) /\
    forall r', r' <> r -> chan_store (fst res) !! r' = chan_store st !! r'.
Proof.
  induction recs as [|[[payload sender] sent] recs IH];
    intros st ch e0 Hk Hf Hch Hw Hfit entry; cbn zeta.
  - cbn [fold_left fst snd map]. rewrite app_nil_r.
    destruct ch; simpl in *. repeat split; assumption.
  - cbn [fold_left fst snd].
    inversion Hfit as [|? ? Hfit1 Hfit2]; subst. cbn [fst snd] in Hfit1.
    rewrite (onPeerMsg_msg_fits st key t c r payload sender sent Hk Hfit1 Hf).
    rewrite (route_buffers _ _ _ _ Hch Hw). cbn [fst snd]. rewrite app_nil_r.
    set (e := {| from := or_default sender (slice0 8 key); data := payload;
                 ts := sent |}).
    set (st1 := upd_chan r (fun ch' => set_messages (messages ch' ++ [e]) ch') st).
    assert (chan_store st1 !! r = Some (set_messages (messages ch ++ [e]) ch)) as Hch1.
    { unfold st1, upd_chan; simpl. rewrite list_lookup_alter_eq, Hch. reflexivity. }
    assert (find_topic (chan_store st1) t (channels st1) = Some r) as Hf1.
    { change (channels st1) with (channels st).
      rewrite (find_topic_ext (chan_store st)); [exact Hf|].
      intros r'. unfold st1, upd_chan; simpl. destruct (decide (r = r')) as [<-|Hne].
      - rewrite list_lookup_alter_eq. destruct (chan_store st !! r); reflexivity.
      - rewrite list_lookup_alter_ne by exact Hne. reflexivity. }
    destruct (IH st1 _ e0 Hk Hf1 Hch1 Hw Hfit2)
      as (I1 & I2 & I3 & I4 & I5 & I6 & I7).
    split; [exact I1|]. split; [exact I2|]. split; [exact I3|]. split; [exact I4|].
    split; [exact I5|]. split.
    + rewrite I6. cbn [messages set_messages map]. rewrite <- app_assoc. reflexivity.
    + intros r' Hne. rewrite (I7 r' Hne). unfold st1, upd_chan; simpl.
      apply list_lookup_alter_ne. congruence.
Qed.

(** X16: message records that come in for a channel while no reader waits
    are buffered in the order they come, after what the buffer held,
    each once; nothing is written.  The next [read] replies with all of
    them in that order and leaves the buffer empty. *)
Theorem buffered_messages_keep_order (st : Daemon) (name key : string) (r : Ref)
    (ch : Channel) (c : ConnId)
    (recs : list (option string * option string * option Z)) :
  get_channel st name = Some (r, ch) ->
  waiters ch = [] ->
  map_get key (peers st) = Some c ->
  find_topic (chan_store st) (topicHex ch) (channels st) = Some r ->
  Forall (fun rec => too_large (fst (fst rec)) = false) recs ->
  let entry rec := {| from := or_default (snd (fst rec)) (slice0 8 key);
                      data := fst (fst rec); ts := snd rec |} in
  let '(st', eff) :=
    fold_left (fun acc rec =>
                 (fst (_onPeerMsg (fst acc) key
                         (PMsg (Some (topicHex ch)) (fst (fst rec)) (snd (fst rec))
                            (snd rec))),
                  snd acc ++
                  snd (_onPeerMsg (fst acc) key
                         (PMsg (Some (topicHex ch)) (fst (fst rec)) (snd (fst rec))
                            (snd rec)))))
      recs (st, []) in
  eff = [] /\
  get_channel st' name =
    Some (r, set_messages (messages ch ++ map entry recs) ch) /\
  (forall r', r' <> r -> chan_store st' !! r' = chan_store st !! r') /\
  forall wait timeout sock,
    messages ch ++ map entry recs <> [] \/ wait = false ->
    let '(st2, eff2) := _exec st' (Read name wait timeout) sock in
    eff2 = [EReply sock (RMessages (messages ch ++ map entry recs))] /\
    exists ch2, get_channel st2 name = Some (r, ch2) /\ messages ch2 = [].
Proof.
  intros Hget Hw Hk Hf Hfit entry.
  destruct (get_channel_lookup _ _ _ _ Hget) as [Hn Hch].
  pose proof (buffer_grows key c (topicHex ch) r recs st ch [] Hk Hf Hch Hw Hfit) as H.
  cbn zeta in H. fold entry in H.
  destruct (fold_left _ recs (st, [])) as [st' eff]. cbn [fst snd] in H.
  destruct H as (H1 & H2 & _ & _ & _ & H6 & H7).
  assert (get_channel st' name =
          Some (r, set_messages (messages ch ++ map entry recs) ch)) as Hget'
    by (unfold get_channel; rewrite H2, Hn, H6; reflexivity).
  split; [exact H1|]. split; [exact Hget'|]. split; [exact H7|].
  intros wait timeout sock Hnow. unfold _exec. rewrite Hget'.
  assert (nonempty (messages (set_messages (messages ch ++ map entry recs) ch))
          || negb wait = true) as ->.
  { cbn [messages set_messages]. destruct Hnow as [Hm | ->]; [|apply orb_true_r].
    destruct (messages ch ++ map entry recs); [congruence | reflexivity]. }
  split; [reflexivity|]. eexists. split.
  - apply get_channel_upd_chan. exact Hget'.
  - reflexivity.
Qed.

(** *** Two joins of one name before the first is flushed *)

Lemma take_cont_app (k : nat) (l rest : list (nat * Cont)) (c : Cont) :
  Forall (fun kc => fst kc < k) l ->
  take_cont k (l ++ (k, c) :: rest) = Some (c, l ++ rest).
Proof.
  induction 1 as [|[k' c'] l Hk Hl IH]; simpl.
  - rewrite Nat.eqb_refl. reflexivity.
  - simpl in Hk. destruct (k =? k') eqn:E.
    + apply Nat.eqb_eq in E. lia.
    + rewrite IH. reflexivity.
Qed.

Lemma take_cont_skip (k : nat) (l rest : list (nat * Cont)) (k0 : nat) (c0 c : Cont) :
  Forall (fun kc => fst kc < k0) l -> k0 < k ->
  take_cont k (l ++ (k0, c0) :: (k, c) :: rest) = Some (c, l ++ (k0, c0) :: rest).
Proof.
  intros Hl Hlt. induction Hl as [|[k' c'] l Hk Hl IH]; simpl.
  - destruct (k =? k0) eqn:E; [apply Nat.eqb_eq in E; lia|].
    rewrite Nat.eqb_refl. reflexivity.
  - simpl in Hk. destruct (k =? k') eqn:E.
    + apply Nat.eqb_eq in E. lia.
    + rewrite IH. reflexivity.
Qed.

Lemma step_exec (st : Daemon) (cmd : Command) (sock : Socket) :
  exited st = false -> step st (Exec cmd sock) = _exec st cmd sock.
Proof. intros H. unfold step. rewrite H. reflexivity. Qed.

Lemma step_resume (st : Daemon) (k : nat) :
  exited st = false -> step st (Resume k) = resume st k.
Proof. intros H. unfold step. rewrite H. reflexivity. Qed.

Lemma resume_join (st : Daemon) (k : nat) (name topic : string) (handle : nat)
    (sock : Socket) (rest : list (nat * Cont)) :
  take_cont k (suspended st) = Some (KJoin name topic handle sock, rest) ->
  resume st k =
    (fst (_joinChannel_flushed (with_suspended rest st) name topic handle),
     snd (_joinChannel_flushed (with_suspended rest st) name topic handle) ++
     [EReply sock (RJoined name)]).
Proof.
  intros H. unfold resume. rewrite H.
  destruct (_joinChannel_flushed (with_suspended rest st) name topic handle).
  reflexivity.
Qed.

Lemma joinChannel_flushed_length (s : Daemon) (name topic : string) (handle : nat) :
  length (chan_store (fst (_joinChannel_flushed s name topic handle))) =
    S (length (chan_store s)).
Proof.
  unfold _joinChannel_flushed.
  match goal with
  | |- context [_reannounce ?s1] => destruct (reannounce_registry s1) as [_ ->]
  end.
  simpl. rewrite last_length. reflexivity.
Qed.

Lemma writes_only (topics : list string) (i : string) (l : list ConnId) (sock : Socket) :
  replies_to sock (map (fun c => EPeerWrite c (WHello topics i)) l) = [] /\
  List.filter (fun e => match e with
                        | EDeriveTopic _ _ | ESwarmJoin _ => true
                        | _ => false
                        end)
    (map (fun c => EPeerWrite c (WHello topics i)) l) = [].
Proof. induction l as [|c l [IH1 IH2]]; split; simpl; auto. Qed.

(** Two flushes of one name, one after the other: the second
    registration replaces the first *)
Lemma two_flushes (s : Daemon) (name tA tB : string) (hA hB : nat)
    (x : list (nat * Cont)) :
  refs_valid s ->
  let r := length (chan_store s) in
  let resA := _joinChannel_flushed s name tA hA in
  let resB := _joinChannel_flushed (with_suspended x (fst resA)) name tB hB in
  (exists chB, get_channel (fst resB) name = Some (S r, chB) /\
     topicHex chB = tB /\ discovery chB = hB) /\
  (exists chA, chan_store (fst resB) !! r = Some chA /\
     topicHex chA = tA /\ discovery chA = hA) /\
  (forall n, map_get n (channels (fst resB)) <> Some r) /\
  exited (fst resB) = exited s /\
  (forall sock, replies_to sock (snd resA) = [] /\ replies_to sock (snd resB) = []) /\
  List.filter (fun e => match e with
                        | EDeriveTopic _ _ | ESwarmJoin _ => true
                        | _ => false
                        end) (snd resA) = [] /\
  List.filter (fun e => match e with
                        | EDeriveTopic _ _ | ESwarmJoin _ => true
                        | _ => false
                        end) (snd resB) = [].
Proof.
  intros Hv r resA resB.
  destruct (joinChannel_flushed_spec s name tA hA Hv)
    as (CA & (_ & _ & _ & _ & _ & _ & XA) & _ & _ & (chA & HchA & TA & DA & _) & _
        & (topsA & EA & _)).
  pose proof (joinChannel_flushed_length s name tA hA) as LA.
  fold resA in CA, XA, HchA, EA, LA. fold r in CA, HchA, LA.
  assert (refs_valid (with_suspended x (fst resA))) as HvA.
  { unfold refs_valid. cbn [channels chan_store with_suspended].
    rewrite CA, LA. apply map_set_valid, Hv. }
  destruct (joinChannel_flushed_spec (with_suspended x (fst resA)) name tB hB HvA)
    as (CB & (_ & _ & _ & _ & _ & _ & XB) & _ & _ & (chB & HchB & TB & DB & _) & HoldB
        & (topsB & EB & _)).
  fold resB in CB, XB, HchB, EB, HoldB.
  cbn [channels chan_store exited with_suspended] in CB, XB, HchB, HoldB.
  rewrite LA in CB, HchB.
  split; [|split; [|split; [|split; [|split; [|split]]]]].
  - exists chB. split; [|split; assumption].
    unfold get_channel. rewrite CB, map_get_set_eq, HchB. reflexivity.
  - destruct (HoldB r chA HchA) as (chA' & H1 & (H2 & H3 & _)).
    exists chA'. split; [exact H1|]. split; congruence.
  - intros n. rewrite CB, CA. destruct (String.eqb_spec n name) as [->|Hne].
    + rewrite map_get_set_eq. intros H. injection H as H. lia.
    + rewrite !(map_get_set_ne _ _ _ _ Hne). intros H.
      unfold refs_valid in Hv. rewrite Forall_forall in Hv.
      apply map_get_In, list_elem_of_In, Hv in H. simpl in H. unfold r in H. lia.
  - congruence.
  - intros sock. rewrite EA, EB. split; apply writes_only.
  - rewrite EA. apply writes_only with (sock := 0).
  - rewrite EB. apply writes_only with (sock := 0).
Qed.

(** X17: a second [join] of a name that arrives before the topic of the
    first is flushed passes the check of [_joinChannel] as well: the
    topic is derived and the swarm joined for both, and both are
    answered [{ok:true, channel}].  The name ends up registered with the
    channel object of the join that is flushed last, whose secret
    decides the topic; the object of the other join stays in no
    registry, so a later [leave] destroys only the discovery handle of
    the registered one. *)
Theorem concurrent_joins_last_flush_wins (st : Daemon) (name s1 s2 : string)
    (a b : Socket) :
  reachable st ->
  exited st = false ->
  map_has name (channels st) = false ->
  let t1 := deriveTopic scryptSync name s1 in
  let t2 := deriveTopic scryptSync name s2 in
  let k := next_id st in
  let r := length (chan_store st) in
  let both := [Exec (Join name s1) a; Exec (Join name s2) b] in
  (let '(st', eff) := run st (both ++ [Resume k; Resume (S k)]) in
   List.filter (fun e => match e with
                         | EDeriveTopic _ _ | ESwarmJoin _ => true
                         | _ => false
                         end) eff =
     [EDeriveTopic name s1; ESwarmJoin t1; EDeriveTopic name s2; ESwarmJoin t2] /\
   In (RJoined name) (replies_to a eff) /\ In (RJoined name) (replies_to b eff) /\
   (exists ch, get_channel st' name = Some (S r, ch) /\
      topicHex ch = t2 /\ discovery ch = S k /\
      _leaveChannel st' name = (true, [EDiscoveryDestroy (S k)])) /\
   (exists ch, chan_store st' !! r = Some ch /\ topicHex ch = t1 /\ discovery ch = k) /\
   (forall n, map_get n (channels st') <> Some r)) /\
  (let '(st', eff) := run st (both ++ [Resume (S k); Resume k]) in
   List.filter (fun e => match e with
                         | EDeriveTopic _ _ | ESwarmJoin _ => true
                         | _ => false
                         end) eff =
     [EDeriveTopic name s1; ESwarmJoin t1; EDeriveTopic name s2; ESwarmJoin t2] /\
   In (RJoined name) (replies_to a eff) /\ In (RJoined name) (replies_to b eff) /\
   (exists ch, get_channel st' name = Some (S r, ch) /\
      topicHex ch = t1 /\ discovery ch = k /\
      _leaveChannel st' name = (true, [EDiscoveryDestroy k])) /\
   (exists ch, chan_store st' !! r = Some ch /\ topicHex ch = t2 /\ discovery ch = S k) /\
   (forall n, map_get n (channels st') <> Some r)).
Proof.
  intros Hreach Hex Hnew t1 t2 k r both.
  pose proof (reachable_ids_fresh st Hreach) as [_ Hk].
  pose proof (reachable_refs_valid st Hreach) as Hv.
  set (K1 := KJoin name t1 k a). set (K2 := KJoin name t2 (S k) b).
  set (sb := with_next_id (S (S k))
               (with_suspended (suspended st ++ [(k, K1); (S k, K2)]) st)).
  assert (run st both = (sb, [EDeriveTopic name s1; ESwarmJoin t1;
                              EDeriveTopic name s2; ESwarmJoin t2])) as Hboth.
  { unfold both. rewrite run_cons, (step_exec _ _ _ Hex).
    unfold _exec at 1 2 3, _joinChannel. rewrite Hnew. cbn [fst snd].
    rewrite run_cons, step_exec by exact Hex.
    unfold _exec, _joinChannel. cbn [channels suspend with_next_id with_suspended].
    rewrite Hnew. cbn [fst snd run app next_id suspend with_next_id with_suspended].
    unfold sb, suspend, K1, K2, t1, t2, k.
    cbn [suspended next_id with_next_id with_suspended]. rewrite <- app_assoc.
    reflexivity. }
  assert (exited sb = false) as Hexb by exact Hex.
  assert (forall x, refs_valid (with_suspended x sb)) as Hvb by (intros x; exact Hv).
  split.
  - rewrite run_app, Hboth. cbn [fst snd].
    rewrite run_cons, (step_resume _ _ Hexb).
    rewrite (resume_join sb k name t1 k a (suspended st ++ [(S k, K2)]))
      by (apply take_cont_app, Hk).
    cbn [fst snd].
    set (sA := with_suspended (suspended st ++ [(S k, K2)]) sb).
    destruct (two_flushes sA name t1 t2 k (S k) (suspended st) (Hvb _))
      as (HB & HA & Hno & HexB & Hrep & FA & FB).
    cbn zeta in HB, HA, Hno, HexB, Hrep, FA, FB.
    set (resA := _joinChannel_flushed sA name t1 k) in *.
    assert (exited (fst resA) = false) as HexA.
    { destruct (joinChannel_flushed_spec sA name t1 k (Hvb _))
        as (_ & (_ & _ & _ & _ & _ & _ & X) & _). fold resA in X. rewrite X. exact Hex. }
    assert (take_cont (S k) (suspended (fst resA)) = Some (K2, suspended st)) as Ht.
    { destruct (joinChannel_flushed_spec sA name t1 k (Hvb _))
        as (_ & (_ & _ & X & _) & _). fold resA in X. rewrite X.
      cbn [suspended sA with_suspended]. apply take_cont_last.
      eapply Forall_impl; [exact Hk|]. intros kc H. simpl in *. fold k in H. lia. }
    rewrite run_cons, (step_resume _ _ HexA).
    rewrite (resume_join _ _ _ _ _ _ _ Ht). cbn [fst snd run].
    set (resB := _joinChannel_flushed (with_suspended (suspended st) (fst resA))
                   name t2 (S k)) in *.
    change (length (chan_store sA)) with r in *.
    destruct (Hrep a) as [Ra1 Ra2]. destruct (Hrep b) as [Rb1 Rb2].
    split; [|split; [|split; [|split; [|split]]]].
    + rewrite !List.filter_app, FA, FB. reflexivity.
    + rewrite !replies_to_app, Ra1. cbn [app replies_to]. rewrite Nat.eqb_refl.
      left. reflexivity.
    + rewrite !replies_to_app, Rb1, Rb2. cbn [app replies_to].
      rewrite Nat.eqb_refl, app_nil_r. apply in_or_app. right. left. reflexivity.
    + destruct HB as (ch & G1 & G2 & G3). exists ch.
      split; [exact G1|]. split; [exact G2|]. split; [exact G3|].
      unfold _leaveChannel. rewrite G1, G3. reflexivity.
    + exact HA.
    + exact Hno.
  - rewrite run_app, Hboth. cbn [fst snd].
    rewrite run_cons, (step_resume _ _ Hexb).
    rewrite (resume_join sb (S k) name t2 (S k) b (suspended st ++ [(k, K1)]))
      by (apply take_cont_skip; [exact Hk | lia]).
    cbn [fst snd].
    set (sA := with_suspended (suspended st ++ [(k, K1)]) sb).
    destruct (two_flushes sA name t2 t1 (S k) k (suspended st) (Hvb _))
      as (HB & HA & Hno & HexB & Hrep & FA & FB).
    cbn zeta in HB, HA, Hno, HexB, Hrep, FA, FB.
    set (resA := _joinChannel_flushed sA name t2 (S k)) in *.
    assert (exited (fst resA) = false) as HexA.
    { destruct (joinChannel_flushed_spec sA name t2 (S k) (Hvb _))
        as (_ & (_ & _ & _ & _ & _ & _ & X) & _). fold resA in X. rewrite X. exact Hex. }
    assert (take_cont k (suspended (fst resA)) = Some (K1, suspended st)) as Ht.
    { destruct (joinChannel_flushed_spec sA name t2 (S k) (Hvb _))
        as (_ & (_ & _ & X & _) & _). fold resA in X. rewrite X.
      cbn [suspended sA with_suspended]. apply take_cont_last. exact Hk. }
    rewrite run_cons, (step_resume _ _ HexA).
    rewrite (resume_join _ _ _ _ _ _ _ Ht). cbn [fst snd run].
    set (resB := _joinChannel_flushed (with_suspended (suspended st) (fst resA))
                   name t1 k) in *.
    change (length (chan_store sA)) with r in *.
    destruct (Hrep a) as [Ra1 Ra2]. destruct (Hrep b) as [Rb1 Rb2].
    split; [|split; [|split; [|split; [|split]]]].
    + rewrite !List.filter_app, FA, FB. reflexivity.
    + rewrite !replies_to_app, Ra1, Ra2. cbn [app replies_to].
      rewrite Nat.eqb_refl, app_nil_r. apply in_or_app. right. left. reflexivity.
    + rewrite !replies_to_app, Rb1. cbn [app replies_to]. rewrite Nat.eqb_refl.
      left. reflexivity.
    + destruct HB as (ch & G1 & G2 & G3). exists ch.
      split; [exact G1|]. split; [exact G2|]. split; [exact G3|].
      unfold _leaveChannel. rewrite G1, G3. reflexivity.
    + exact HA.
    + exact Hno.
Qed.

(** *** A peer connects *)

(** X18: a new connection is registered under the key of its peer, with a
    peer object of its own, and is greeted with the topics of all
    registered channels; the other keys, the other peer objects and the
    channels stay as they are.  When the key was registered already, the
    new connection takes its place: the channels that had matched the key
    count the new connection as matched at once, so a [send] is written
    to it (and, in a reachable state, no longer to the one it replaced)
    before its own hello has come. *)
Theorem peer_connection_registers (st : Daemon) (key : string) :
  let c := length (conn_store st) in
  let '(st', eff) := _onPeer st key in
  eff = [EPeerWrite c (WHello (topics_of st) (id st))] /\
  map_get key (peers st') = Some c /\
  conn_store st' !! c =
    Some {| remoteKey := key; writable := true; closed := false;
            peer_channels := []; buf := ""; knownTopics := None |} /\
  (forall key', key' <> key -> map_get key' (peers st') = map_get key' (peers st)) /\
  (forall c' p, conn_store st !! c' = Some p -> conn_store st' !! c' = Some p) /\
  channels st' = channels st /\ chan_store st' = chan_store st /\
  timers st' = timers st /\
  (forall ch, In key (ch_peers ch) -> In c (send_targets st' ch)) /\
  (reachable st ->
   forall c_old ch, map_get key (peers st) = Some c_old ->
                    ~ In c_old (send_targets st' ch)).
Proof.
  intros c. unfold _onPeer. fold c.
  set (p := {| remoteKey := key; writable := true; closed := false;
               peer_channels := []; buf := ""; knownTopics := None |}).
  set (st' := with_peers (map_set key c (peers st))
                (with_conn_store (conn_store st ++ [p]) st)).
  assert (map_get key (peers st') = Some c) as Hk by apply map_get_set_eq.
  assert (conn_store st' !! c = Some p) as Hc
    by (apply list_lookup_middle; reflexivity).
  split; [reflexivity|]. split; [exact Hk|]. split; [exact Hc|].
  split; [|split; [|split; [|split; [|split; [|split]]]]]; try reflexivity.
  - intros key' Hne. apply map_get_set_ne, Hne.
  - intros c' p' Hp'. unfold st'; simpl. rewrite lookup_app_l; [exact Hp'|].
    eapply lookup_lt_Some, Hp'.
  - intros ch Hin. apply send_targets_spec. exists key, p.
    repeat split; assumption.
  - intros Hreach c_old ch Hold Hin.
    destruct (reachable_matching st Hreach) as (_ & Hp & _).
    destruct (Hp key c_old Hold) as (p_old & Hc_old & Hkey_old).
    assert (c_old < c) as Hlt by (eapply lookup_lt_Some, Hc_old).
    apply send_targets_spec in Hin as (key' & p' & _ & Hk' & _).
    destruct (String.eqb_spec key' key) as [->|Hne].
    + rewrite Hk in Hk'. injection Hk' as Hk'. lia.
    + unfold st' in Hk'. cbn [peers with_peers] in Hk'.
      rewrite (map_get_set_ne _ _ _ _ Hne) in Hk'.
      destruct (Hp key' c_old Hk') as (p2 & Hc2 & Hkey2). congruence.
Qed.

End Handlers.

(** ** Secrets and ids *)

Lemma string_length_app (a b : string) :
  String.length (a ++ b) = String.length a + String.length b.
Proof. induction a as [|c a IH]; simpl; [reflexivity|]. rewrite IH. reflexivity. Qed.

Lemma all_hex_app (a b : string) : all_hex (a ++ b) = all_hex a && all_hex b.
Proof.
  induction a as [|c a IH]; simpl; [reflexivity|]. rewrite IH, andb_assoc. reflexivity.
Qed.

Lemma hex_of_byte_spec (b : Byte.byte) :
  String.length (hex_of_byte b) = 2 /\ js_length (hex_of_byte b) = 2%Z /\
  all_hex (hex_of_byte b) = true.
Proof. destruct b; vm_compute; repeat split. Qed.

Lemma toString_hex_spec (bytes : list Byte.byte) :
  String.length (toString_hex bytes) = 2 * length bytes /\
  js_length (toString_hex bytes) = (2 * Z.of_nat (length bytes))%Z /\
  all_hex (toString_hex bytes) = true.
Proof.
  induction bytes as [|b bytes (IH1 & IH2 & IH3)]; [repeat split|].
  destruct (hex_of_byte_spec b) as (H1 & H2 & H3).
  cbn [toString_hex length]. rewrite string_length_app, js_length_app, all_hex_app.
  rewrite H1, H2, H3, IH1, IH2, IH3. repeat split; lia.
Qed.

Lemma hex_digit_code (n : N) :
  (n < 16)%N ->
  N_of_ascii (hex_digit n) = (if n <? 10 then 48 + n else 87 + n)%N.
Proof.
  intros H.
  assert (n = N.of_nat (N.to_nat n)) as E by lia.
  assert (N.to_nat n < 16) as Hk by lia.
  revert E Hk. generalize (N.to_nat n). intros k -> Hk. clear H.
  do 16 (destruct k as [|k]; [reflexivity|]). lia.
Qed.

Lemma hex_digit_inj (x y : N) :
  (x < 16)%N -> (y < 16)%N -> hex_digit x = hex_digit y -> x = y.
Proof.
  intros Hx Hy H. apply (f_equal N_of_ascii) in H.
  rewrite (hex_digit_code x Hx), (hex_digit_code y Hy) in H.
  destruct (N.ltb_spec x 10), (N.ltb_spec y 10); lia.
Qed.

Lemma hex_of_byte_inj (b1 b2 : Byte.byte) :
  hex_of_byte b1 = hex_of_byte b2 -> b1 = b2.
Proof.
  unfold hex_of_byte. intros H. injection H as H1 H2.
  pose proof (Byte.to_N_bounded b1) as B1. pose proof (Byte.to_N_bounded b2) as B2.
  assert (forall n, (n <= 255)%N -> (n / 16 < 16)%N) as Hq
    by (intros n Hn; apply N.Div0.div_lt_upper_bound; lia).
  assert (forall n, (n mod 16 < 16)%N) as Hm by (intros n; apply N.mod_lt; lia).
  apply hex_digit_inj in H1; [|apply Hq, B1 | apply Hq, B2].
  apply hex_digit_inj in H2; [|apply Hm | apply Hm].
  assert (Byte.to_N b1 = Byte.to_N b2) as E.
  { rewrite (N.div_mod (Byte.to_N b1) 16), (N.div_mod (Byte.to_N b2) 16) by lia.
    rewrite H1, H2. reflexivity. }
  pose proof (Byte.of_to_N b1) as E1. rewrite E, Byte.of_to_N in E1. congruence.
Qed.

Lemma toString_hex_inj (a b : list Byte.byte) :
  toString_hex a = toString_hex b -> a = b.
Proof.
  revert b. induction a as [|x a IH]; intros [|y b]; simpl; try discriminate;
    [reflexivity|].
  intros H. injection H as H1 H2 H3.
  f_equal; [|apply IH, H3].
  apply hex_of_byte_inj. unfold hex_of_byte. rewrite H1, H2. reflexivity.
Qed.

(** X19: [generateSecret] returns 32 characters, [agentId] 8, all of them
    lower-case hexadecimal digits when [randomBytes] gives as many bytes
    as it is asked for.  A generated secret is always accepted by
    [validateSecret], and two secrets are the same only if the bytes
    drawn were: the encoding loses none of the 128 random bits. *)
Theorem generated_secret_is_valid (randomBytes : nat -> list Byte.byte) :
  (forall size, length (randomBytes size) = size) ->
  validateSecret (Some (generateSecret randomBytes)) =
    {| valid := true; message := None |} /\
  String.length (generateSecret randomBytes) = 32 /\
  all_hex (generateSecret randomBytes) = true /\
  String.length (agentId randomBytes) = 8 /\
  all_hex (agentId randomBytes) = true /\
  (forall other, generateSecret other = generateSecret randomBytes ->
                 other 16 = randomBytes 16) /\
  (forall other, agentId other = agentId randomBytes -> other 4 = randomBytes 4).
Proof.
  intros Hlen. unfold generateSecret, agentId.
  destruct (toString_hex_spec (randomBytes 16)) as (L1 & J1 & A1).
  destruct (toString_hex_spec (randomBytes 4)) as (L2 & _ & A2).
  rewrite Hlen in L1, J1, L2.
  split; [|split; [exact L1|split; [exact A1|split; [exact L2|split; [exact A2|split]]]]].
  - unfold validateSecret. rewrite J1.
    destruct (toString_hex (randomBytes 16)) as [|c s] eqn:E; [discriminate L1|].
    reflexivity.
  - intros other. apply toString_hex_inj.
  - intros other. apply toString_hex_inj.
Qed.

Lemma js_length_ascii (s : string) :
  forallb (fun c => (N_of_ascii c <? 128)%N) (list_ascii_of_string s) = true ->
  js_length s = Z.of_nat (String.length s).
Proof.
  induction s as [|c s IH]; [reflexivity|].
  cbn [list_ascii_of_string forallb]. intros H. apply andb_prop in H as [Hc Hs].
  rewrite js_length_cons, (IH Hs). cbn [String.length].
  unfold utf16_units. apply N.ltb_lt in Hc.
  assert ((Z.of_N (N_of_ascii c) <? 128)%Z = true) as -> by (apply Z.ltb_lt; lia).
  lia.
Qed.

(** X20: [validateSecret] accepts a secret exactly when it is given and has
    at least 16 UTF-16 code units, which for a secret of ASCII characters
    is at least 16 characters; a secret that is missing, empty or shorter
    is refused with the one message, and only a refused secret carries a
    message. *)
Theorem validateSecret_accepts (secret : option string) :
  (valid (validateSecret secret) = true <->
   exists s, secret = Some s /\ (16 <= js_length s)%Z) /\
  (valid (validateSecret secret) = false <->
   message (validateSecret secret) = Some SECRET_TOO_SHORT) /\
  (valid (validateSecret secret) = true <-> message (validateSecret secret) = None) /\
  validateSecret None = {| valid := false; message := Some SECRET_TOO_SHORT |} /\
  validateSecret (Some ""%string) =
    {| valid := false; message := Some SECRET_TOO_SHORT |} /\
  (forall s,
     forallb (fun c => (N_of_ascii c <? 128)%N) (list_ascii_of_string s) = true ->
     (valid (validateSecret (Some s)) = true <-> 16 <= String.length s)).
Proof.
  assert (forall s, valid (validateSecret (Some s)) = true <-> (16 <= js_length s)%Z)
    as Hs.
  { intros s. unfold validateSecret.
    destruct (String.eqb_spec s "") as [->|Hne]; cbn [orb valid].
    - split; [discriminate|]. unfold js_length; simpl. lia.
    - destruct (Z.ltb_spec (js_length s) 16); cbn [valid]; split;
        try discriminate; try lia; reflexivity. }
  split; [|split; [|split; [|split; [|split]]]]; try reflexivity.
  - destruct secret as [s|].
    + rewrite Hs. split; [intros H; exists s; auto|].
      intros (s' & E & H). injection E as <-. exact H.
    + split; [discriminate|]. intros (s' & E & _). discriminate.
  - unfold validateSecret. destruct (_ || _); cbn [valid message]; split;
      try discriminate; reflexivity.
  - unfold validateSecret. destruct (_ || _); cbn [valid message]; split;
      try discriminate; reflexivity.
  - intros s Hascii. rewrite Hs, (js_length_ascii s Hascii). lia.
Qed.

(** ** The topic as a digest *)

(** X21: with the topic taken as the digest of [walkie:<channel>:<secret>],
    the colon that separates the channel from the secret can be moved:
    for every hash function, the channel [x:y] with the secret [z] and
    the channel [x] with the secret [y:z] have the same topic.  The
    derivation by [scryptSync] hands the secret and the channel over
    apart, so its arguments differ in the two cases. *)
Theorem digest_topic_moves_colon (sha256 : string -> string) (x y z : string) :
  Digest.deriveTopic sha256 (x ++ ":" ++ y) z = Digest.deriveTopic sha256 x (y ++ ":" ++ z) /\
  (exists kdf,
     deriveTopic kdf (x ++ ":" ++ y) z <> deriveTopic kdf x (y ++ ":" ++ z)).
Proof.
  split.
  - unfold Digest.deriveTopic. f_equal. simpl. f_equal.
    rewrite !string_app_assoc. reflexivity.
  - exists (fun password salt _ _ _ _ => salt). unfold deriveTopic, SCRYPT_SALT_PREFIX.
    intros H. simpl in H. injection H as H.
    apply (f_equal String.length) in H. rewrite string_length_app in H.
    simpl in H. lia.
Qed.

(** ** The properties on a sample daemon *)

(** A second join of "room", with another secret, on a daemon that has
    joined it. *)
Lemma join_existing_is_noop_witness :
  let st := fst (run sample_scrypt sample_parse (init "a1b2c3d4") joined_room) in
  map_has "room" (channels st) = true /\
  _joinChannel sample_scrypt st "room" "s2" = (None, []) /\
  let '(st', eff) := _exec sample_scrypt st (Join "room" "s2") 5 in
  eff = [EReply 5 (RJoined "room")] /\
  (forall n s, ~ In (EDeriveTopic n s) eff) /\
  (forall t, ~ In (ESwarmJoin t) eff) /\
  length (channels st') = length (channels st) /\
  get_channel st' "room" = get_channel st "room" /\
  st' = st.
Proof.
  intros st. split; [reflexivity|].
  apply (join_existing_is_noop sample_scrypt st "room" "s2" 5). reflexivity.
Defined.

Lemma join_existing_ignores_secret_witness :
  let st := fst (run sample_scrypt sample_parse (init "a1b2c3d4") joined_room) in
  get_channel st "room" = Some (0, room) /\
  topicHex room = sample_topic "room" "s1" /\
  let '(st', eff) := _exec sample_scrypt st (Join "room" "s2") 5 in
  eff = [EReply 5 (RJoined "room")] /\
  (exists ch', get_channel st' "room" = Some (0, ch') /\
               topicHex ch' = sample_topic "room" "s1") /\
  (st', eff) = _exec sample_scrypt st (Join "room" "s1") 5.
Proof.
  intros st. split; [reflexivity|]. split; [reflexivity|].
  apply (join_existing_ignores_secret sample_scrypt st "room" "s1" "s2" 5 0 room);
    reflexivity.
Defined.

Lemma oversized_send_checked_before_membership_witness :
  let st := init "a1b2c3d4" in
  (MAX_MESSAGE_SIZE < byteLength payload_over_limit)%Z /\
  get_channel st "room" = None /\
  _exec sample_scrypt st (Send "room" (Some payload_over_limit)) 5 =
    (st, [EReply 5 (RError "Message too large (max 256KB)")]) /\
  ~ In (EReply 5 (RError ("Not in channel: " ++ "room")%string))
       (snd (_exec sample_scrypt st (Send "room" (Some payload_over_limit)) 5)).
Proof.
  intros st.
  assert (MAX_MESSAGE_SIZE < byteLength payload_over_limit)%Z as Hbig
    by (vm_compute; reflexivity).
  split; [exact Hbig|]. split; [reflexivity|].
  apply (oversized_send_checked_before_membership sample_scrypt st "room"
           payload_over_limit 5 Hbig).
  reflexivity.
Defined.

(** Reads that return at once: on a daemon that has joined nothing, and
    on one that holds one buffered entry for "room". *)
Lemma read_immediate_witness :
  let st0 := init "a1b2c3d4" in
  let st := fst (run sample_scrypt sample_parse (init "a1b2c3d4")
                   (peer_matched ++ [PeerData 0 ("hi" ++ nl)%string])) in
  let entry := {| from := "b2b2b2b2"; data := Some "hi"; ts := Some 7%Z |} in
  let ch := {| topicHex := sample_topic "room" "s1"; discovery := 0;
               ch_peers := ["b2b2b2b2c3c3c3c3"]; messages := [entry];
               waiters := [] |} in
  (get_channel st0 "room" = None /\
   _exec sample_scrypt st0 (Read "room" true None) 7 =
     (st0, [EReply 7 (RError "Not in channel: room")])) /\
  (get_channel st "room" = Some (0, ch) /\
   (messages ch <> [] \/ true = false) /\
   let '(st', eff) := _exec sample_scrypt st (Read "room" true None) 7 in
   eff = [EReply 7 (RMessages [entry])] /\
   st' = upd_chan 0 (set_messages []) st /\
   exists ch', get_channel st' "room" = Some (0, ch') /\
               messages ch' = [] /\
               waiters ch' = waiters ch /\
               ch_peers ch' = ch_peers ch /\
               topicHex ch' = topicHex ch).
Proof.
  intros st0 st entry ch. split.
  - split; [reflexivity|].
    apply (proj1 (read_immediate sample_scrypt st0 "room" true None 7)). reflexivity.
  - assert (messages ch <> [] \/ true = false) as Hnow by (left; discriminate).
    split; [reflexivity|]. split; [exact Hnow|].
    apply (proj2 (read_immediate sample_scrypt st "room" true None 7) 0 ch);
      [reflexivity | exact Hnow].
Defined.

(** Sends: to a name that is not joined, to "room" with one matched
    peer, and to "room" with no peer. *)
Lemma send_result_witness :
  let st0 := init "a1b2c3d4" in
  let st1 := fst (run sample_scrypt sample_parse (init "a1b2c3d4") joined_room) in
  let st2 := fst (run sample_scrypt sample_parse (init "a1b2c3d4") peer_matched) in
  (get_channel st0 "room" = None /\
   _exec sample_scrypt st0 (Send "room" (Some "yo")) 5 =
     (st0, [EReply 5 (RError "Not in channel: room")])) /\
  (get_channel st1 "room" = Some (0, room) /\
   _exec sample_scrypt st1 (Send "room" (Some "yo")) 5 = (st1, [EReply 5 (RDelivered 0)])) /\
  (get_channel st2 "room" = Some (0, set_ch_peers ["b2b2b2b2c3c3c3c3"] room) /\
   _exec sample_scrypt st2 (Send "room" (Some "yo")) 5 =
     (st2, [EPeerWrite 0 (WMsg (sample_topic "room" "s1") (Some "yo") "a1b2c3d4" 0);
            EReply 5 (RDelivered 1)])).
Proof.
  intros st0 st1 st2. split; [|split].
  - split; [reflexivity|].
    apply (proj1 (send_result sample_scrypt st0 "room" (Some "yo") 5));
      reflexivity.
  - split; [reflexivity|].
    apply (proj2 (send_result sample_scrypt st1 "room" (Some "yo") 5) 0 room);
      reflexivity.
  - split; [reflexivity|].
    apply (proj2 (send_result sample_scrypt st2 "room" (Some "yo") 5) 0
             (set_ch_peers ["b2b2b2b2c3c3c3c3"] room));
      reflexivity.
Defined.

(** Payloads of exactly 262144 bytes and of one byte more. *)
Lemma message_size_boundary_witness :
  let st := fst (run sample_scrypt sample_parse (init "a1b2c3d4") peer_matched) in
  byteLength payload_at_limit = MAX_MESSAGE_SIZE /\
  byteLength payload_over_limit = (MAX_MESSAGE_SIZE + 1)%Z /\
  _exec sample_scrypt st (Send "room" (Some payload_at_limit)) 5 =
    match _send st "room" (Some payload_at_limit) with
    | inl err => (st, [EReply 5 (RError err)])
    | inr (count, writes) => (st, writes ++ [EReply 5 (RDelivered count)])
    end /\
  _exec sample_scrypt st (Send "room" (Some payload_over_limit)) 5 =
    (st, [EReply 5 (RError "Message too large (max 256KB)")]) /\
  _onPeerMsg st "b2b2b2b2c3c3c3c3"
    (PMsg (Some (sample_topic "room" "s1")) (Some payload_over_limit) None None) =
    (st, []).
Proof.
  intros st.
  assert (byteLength payload_at_limit = MAX_MESSAGE_SIZE) as Hat
    by (vm_compute; reflexivity).
  assert (byteLength payload_over_limit = (MAX_MESSAGE_SIZE + 1)%Z) as Hover
    by (vm_compute; reflexivity).
  split; [exact Hat|]. split; [exact Hover|].
  destruct (message_size_boundary sample_scrypt payload_at_limit) as [Hin _].
  destruct (message_size_boundary sample_scrypt payload_over_limit) as [_ Hout].
  destruct (Hin Hat) as [Hsend _]. destruct (Hout Hover) as [Hrej Hdrop].
  split; [apply Hsend|]. split; [apply Hrej | apply Hdrop].
Defined.

(** The daemon with a reader waiting on "room" is reachable, and its
    channel holds a waiter and no buffered entry. *)
Lemma buffer_and_waiters_exclusive_witness :
  let st := fst (run sample_scrypt sample_parse (init "a1b2c3d4") reader_waiting) in
  let ch := set_waiters [{| wid := 1; wsock := 7 |}] room in
  reachable sample_scrypt sample_parse st /\
  get_channel st "room" = Some (0, ch) /\
  (messages ch = [] \/ waiters ch = []) /\
  (forall ev, store_ok (fst (step sample_scrypt sample_parse st ev))).
Proof.
  intros st ch.
  assert (reachable sample_scrypt sample_parse st) as Hreach
    by (exists "a1b2c3d4", reader_waiting; reflexivity).
  assert (get_channel st "room" = Some (0, ch)) as Hget by reflexivity.
  split; [exact Hreach|]. split; [exact Hget|].
  destruct (buffer_and_waiters_exclusive sample_scrypt sample_parse st "room" 0 ch
              Hreach Hget) as (Hq & Hstep & _).
  split; [exact Hq | exact Hstep].
Defined.

(** A read on socket 7 that waits two seconds on the empty "room". *)
Lemma waiting_read_resolves_once_witness :
  let st := fst (run sample_scrypt sample_parse (init "a1b2c3d4") joined_room) in
  let st1 := fst (_exec sample_scrypt st (Read "room" true (Some 2%Z)) 7) in
  reachable sample_scrypt sample_parse st /\
  exited st = false /\
  get_channel st "room" = Some (0, room) /\
  messages room = [] /\
  sock_unused 7 st /\
  snd (_exec sample_scrypt st (Read "room" true (Some 2%Z)) 7) = [] /\
  armed_for st1 0 (read_waiter st 7) (read_timer st 0 (Some 2%Z) 7) /\
  replies_to 7 (snd (ticks sample_scrypt sample_parse 1999 st1)) = [] /\
  replies_to 7 (snd (ticks sample_scrypt sample_parse 2000 st1)) = [RMessages []] /\
  replies_to 7 (snd (ticks sample_scrypt sample_parse 4000 st1)) = [RMessages []].
Proof.
  intros st st1.
  assert (reachable sample_scrypt sample_parse st) as Hreach
    by (exists "a1b2c3d4", joined_room; reflexivity).
  assert (sock_unused 7 st) as Hun.
  { split; [constructor|]. constructor; [constructor | constructor]. }
  split; [exact Hreach|].
  split; [reflexivity|]. split; [reflexivity|]. split; [reflexivity|].
  split; [exact Hun|].
  pose proof (waiting_read_resolves_once sample_scrypt sample_parse st "room" 0 room
                (Some 2%Z) 7 Hreach eq_refl eq_refl eq_refl) as T.
  cbv zeta in T. unfold st1.
  destruct (_exec sample_scrypt st (Read "room" true (Some 2%Z)) 7) as [s e].
  cbn [fst snd].
  destruct T as (_ & _ & _ & He & Harm & _ & _ & _ & _ & Hsock).
  destruct (Hsock Hun) as (Hticks & _).
  split; [exact He|]. split; [exact Harm|]. split; [exact (Hticks 1999)|].
  split; [exact (Hticks 2000) | exact (Hticks 4000)].
Defined.

(** A reader waits on "room" on socket 7, then "room" is left from
    socket 9: the reader gets no reply from the leave, its waiter stays
    queued on the removed channel object and its timer stays armed. *)
Lemma leave_resolves_no_waiter :
  let st := fst (run sample_scrypt sample_parse (init "a1b2c3d4") reader_waiting) in
  let '(st', eff) :=
    run sample_scrypt sample_parse st [Exec (Leave "room") 9; Resume 2] in
  get_channel st "room" = Some (0, set_waiters [{| wid := 1; wsock := 7 |}] room) /\
  get_channel st' "room" = None /\
  eff = [EDiscoveryDestroy 0; EReply 9 ROk] /\
  replies_to 7 eff = [] /\
  ~ In (EReply 7 (RMessages [])) eff /\
  (waiters <$> chan_store st' !! 0) = Some [{| wid := 1; wsock := 7 |}] /\
  timers st' = [{| tid := 1; deadline := 2000; tch := 0; tsock := 7 |}].
Proof.
  vm_compute. repeat split.
  intros [H|[H|[]]]; discriminate H.
Qed.

Lemma leave_keeps_readers_waiting_witness :
  let st := fst (run sample_scrypt sample_parse (init "a1b2c3d4") reader_waiting) in
  let ch := set_waiters [{| wid := 1; wsock := 7 |}] room in
  reachable sample_scrypt sample_parse st /\
  exited st = false /\
  get_channel st "room" = Some (0, ch) /\
  let '(st', eff) :=
    run sample_scrypt sample_parse st [Exec (Leave "room") 9; Resume (next_id st)] in
  eff = [EDiscoveryDestroy (discovery ch); EReply 9 ROk] /\
  get_channel st' "room" = None /\
  chan_store st' !! 0 = Some ch /\
  timers st' = timers st /\
  exists t, armed_for st' 0 {| wid := 1; wsock := 7 |} t /\
            In (RMessages [])
               (replies_to 7 (snd (ticks sample_scrypt sample_parse
                                     (Z.to_nat (deadline t - now st')) st'))).
Proof.
  intros st ch.
  assert (reachable sample_scrypt sample_parse st) as Hreach
    by (exists "a1b2c3d4", reader_waiting; reflexivity).
  split; [exact Hreach|]. split; [reflexivity|]. split; [reflexivity|].
  pose proof (leave_keeps_readers_waiting sample_scrypt sample_parse st "room" 0 ch 9
                Hreach eq_refl eq_refl) as T.
  destruct (run sample_scrypt sample_parse st [Exec (Leave "room") 9; Resume (next_id st)])
    as [st' eff].
  destruct T as (He & Hgone & Hch & Htm & Hwait).
  split; [exact He|]. split; [exact Hgone|]. split; [exact Hch|]. split; [exact Htm|].
  destruct (Hwait {| wid := 1; wsock := 7 |}) as (t & Harm & _ & Hreply & _).
  - left. reflexivity.
  - exists t. split; [exact Harm | exact Hreply].
Defined.

(** A read with [timeout: 0]: the timer is armed for 30 seconds; one
    second after the request, and still after 29.999 seconds, nothing has
    been replied. *)
Lemma read_timeout_zero_waits_thirty_seconds :
  let st := fst (run sample_scrypt sample_parse (init "a1b2c3d4") joined_room) in
  let st1 := fst (_exec sample_scrypt st (Read "room" true (Some 0%Z)) 7) in
  now st = 0%Z /\
  map deadline (timers st1) = [30000%Z] /\
  replies_to 7 (snd (ticks sample_scrypt sample_parse 1 st1)) = [] /\
  replies_to 7 (snd (ticks sample_scrypt sample_parse 1000 st1)) = [] /\
  replies_to 7 (snd (ticks sample_scrypt sample_parse (Z.to_nat 29999) st1)) = [] /\
  replies_to 7 (snd (ticks sample_scrypt sample_parse (Z.to_nat 30000) st1)) =
    [RMessages []].
Proof. vm_compute. repeat split. Qed.

(** On the connection of the matched peer: a chunk with an oversized
    record followed by a valid one, and a chunk of more than 1 MB. *)
Lemma peer_size_protections_witness :
  let st := fst (run sample_scrypt sample_parse (init "a1b2c3d4") peer_matched) in
  let p := {| remoteKey := "b2b2b2b2c3c3c3c3"; writable := true; closed := false;
              peer_channels := [slice0 8 (sample_topic "room" "s1")]; buf := "";
              knownTopics := Some [sample_topic "room" "s1"] |} in
  let chunk := ("big" ++ nl ++ "hi" ++ nl)%string in
  let flood := chars 1048577 in
  conn_store st !! 0 = Some p /\
  writable p = true /\
  (js_length (buf p ++ chunk) <= MAX_PEER_BUFFER)%Z /\
  (MAX_PEER_BUFFER < js_length (buf p ++ flood))%Z /\
  (let '(st', eff) := onPeerData sample_parse st 0 chunk in
   (st', eff) = onPeerData sample_parse st 0 ("hi" ++ nl)%string /\
   (writable <$> conn_store st' !! 0) = Some true /\
   peers st' = peers st /\
   ~ In (EConnDestroy 0) eff) /\
  (snd (onPeerData sample_parse st 0 flood) = [EConnDestroy 0] /\
   (writable <$> conn_store (fst (onPeerData sample_parse st 0 flood)) !! 0) =
     Some false /\
   channels (fst (onPeerData sample_parse st 0 flood)) = channels st /\
   chan_store (fst (onPeerData sample_parse st 0 flood)) = chan_store st /\
   peers (fst (onPeerData sample_parse st 0 flood)) = peers st /\
   timers (fst (onPeerData sample_parse st 0 flood)) = timers st).
Proof.
  intros st p chunk flood.
  assert (conn_store st !! 0 = Some p) as Hp by reflexivity.
  assert (js_length (buf p ++ chunk) <= MAX_PEER_BUFFER)%Z as Hfit
    by (vm_compute; discriminate).
  assert (MAX_PEER_BUFFER < js_length (buf p ++ flood))%Z as Hover
    by (vm_compute; reflexivity).
  split; [exact Hp|]. split; [reflexivity|]. split; [exact Hfit|]. split; [exact Hover|].
  destruct (peer_size_protections sample_parse st 0 p chunk Hp eq_refl)
    as (_ & Hin & _).
  destruct (peer_size_protections sample_parse st 0 p flood Hp eq_refl)
    as (_ & _ & Hout).
  specialize (Hin Hfit). specialize (Hout Hover).
  split.
  - destruct (onPeerData sample_parse st 0 chunk) as [st' eff].
    destruct Hin as (Heq & Hw & Hpeers & Hnd).
    split; [|split; [exact Hw | split; [exact Hpeers | exact Hnd]]].
    rewrite Heq. vm_compute. reflexivity.
  - destruct (onPeerData sample_parse st 0 flood) as [st' eff].
    destruct Hout as (He & Hw & _ & Hc & Hs & Hpeers & Ht).
    repeat split; assumption.
Defined.

(** A buffer with one complete line and an unterminated rest. *)
Lemma framing_round_trip_witness :
  let s := ("ab" ++ nl ++ "cd")%string in
  Forall (fun l => no_newline l = true) ["ab"%string] /\
  no_newline "cd" = true /\
  s = unsplit ["ab"%string] "cd" /\
  split_lines s = (["ab"%string], "cd"%string) /\
  unsplit (fst (split_lines s)) (snd (split_lines s)) = s.
Proof.
  intros s.
  assert (Forall (fun l => no_newline l = true) ["ab"%string]) as Hl
    by (repeat constructor).
  destruct (framing_round_trip s) as (H1 & _ & _ & _ & _ & H6).
  split; [exact Hl|]. split; [reflexivity|]. split; [reflexivity|].
  split; [apply (H6 ["ab"%string] "cd"%string Hl eq_refl eq_refl) | exact H1].
Defined.

(** On a control socket of the daemon that has joined "room": a chunk
    with a ping, a line that does not parse and the start of a third
    line; and a chunk of more than 1 MB. *)
Lemma ipc_data_handler_witness :
  let st := fst (run sample_scrypt sample_parse (init "a1b2c3d4") joined_room) in
  let chunk := ("P" ++ nl ++ "bad" ++ nl ++ "J")%string in
  let flood := chars 1048577 in
  exited st = false /\
  (js_length ("" ++ chunk) <= MAX_IPC_BUFFER)%Z /\
  (MAX_IPC_BUFFER < js_length ("" ++ flood))%Z /\
  (let r := onIPCData sample_scrypt sample_parse_command st 5 "" chunk in
   ipc_destroyed r = false /\ ipc_buf r = "J"%string /\ ipc_daemon r = st /\
   reachable sample_scrypt sample_parse (ipc_daemon r) /\
   Permutation (ipc_effects r) [EReply 5 ROk; EReply 5 (RError "Unexpected token")]) /\
  (ipc_effects (onIPCData sample_scrypt sample_parse_command st 5 "" flood) =
     [EReply 5 (RError "Request too large")] /\
   ipc_destroyed (onIPCData sample_scrypt sample_parse_command st 5 "" flood) = true /\
   ipc_daemon (onIPCData sample_scrypt sample_parse_command st 5 "" flood) = st).
Proof.
  intros st chunk flood.
  assert (reachable sample_scrypt sample_parse st) as Hreach
    by (exists "a1b2c3d4"%string, joined_room; reflexivity).
  assert (js_length ("" ++ chunk) <= MAX_IPC_BUFFER)%Z as Hfit
    by (vm_compute; discriminate).
  assert (MAX_IPC_BUFFER < js_length ("" ++ flood))%Z as Hover
    by (vm_compute; reflexivity).
  split; [reflexivity|]. split; [exact Hfit|]. split; [exact Hover|].
  destruct (ipc_data_handler sample_scrypt sample_parse sample_parse_command st 5 ""
              chunk eq_refl) as (_ & Hin).
  destruct (ipc_data_handler sample_scrypt sample_parse sample_parse_command st 5 ""
              flood eq_refl) as (Hout & _).
  specialize (Hin Hfit). specialize (Hout Hover).
  split; [|exact Hout].
  destruct Hin as (H1 & H2 & _ & H4 & H5 & H6).
  split; [exact H1|]. split; [rewrite H2; reflexivity|].
  split; [rewrite H4; reflexivity|]. split; [exact (H5 Hreach)|].
  exact H6.
Defined.


(** A join of "room", which is joined, and a ping in one chunk: the
    ping is answered first. *)
Lemma ipc_replies_can_overtake_witness :
  let st := fst (run sample_scrypt sample_parse (init "a1b2c3d4") joined_room) in
  let c1 := ("J" ++ String newline "")%string in
  let c2 := ("P" ++ String newline "")%string in
  no_newline "J" = true /\ no_newline "P" = true /\
  trim_is_empty "J" = false /\ trim_is_empty "P" = false /\
  sample_parse_command "J" = inr (Join "room" "s2") /\
  sample_parse_command "P" = inr Ping /\
  map_has "room" (channels st) = true /\
  replies_in_microtask sample_scrypt st Ping = false /\
  (js_length (c1 ++ c2) <= MAX_IPC_BUFFER)%Z /\
  let r := onIPCData sample_scrypt sample_parse_command st 5 "" (c1 ++ c2) in
  let r1 := onIPCData sample_scrypt sample_parse_command st 5 "" c1 in
  let r2 := onIPCData sample_scrypt sample_parse_command (ipc_daemon r1) 5 (ipc_buf r1) c2 in
  ipc_effects r = [EReply 5 ROk; EReply 5 (RJoined "room")] /\
  ipc_effects r1 ++ ipc_effects r2 = [EReply 5 (RJoined "room"); EReply 5 ROk].
Proof.
  intros st c1 c2.
  assert (js_length (c1 ++ c2) <= MAX_IPC_BUFFER)%Z as Hfit
    by (vm_compute; discriminate).
  repeat (split; [reflexivity|]). split; [exact Hfit|].
  pose proof (ipc_replies_can_overtake sample_scrypt sample_parse_command st 5
                "J" "P" "room" "s2" Ping eq_refl eq_refl eq_refl eq_refl eq_refl
                eq_refl eq_refl eq_refl Hfit) as T.
  destruct T as (T1 & T2 & _). split; [exact T1 | exact T2].
Defined.


(** The hello of a peer that has connected to the daemon that has
    joined "room". *)
Lemma hello_matches_by_topic_witness :
  let st := fst (run sample_scrypt sample_parse (init "a1b2c3d4")
                   (joined_room ++ [PeerConnect peer_key])) in
  let topics := [sample_topic "room" "s1"] in
  map_get peer_key (peers st) = Some 0 /\
  chan_store st !! 0 = Some room /\
  let '(st', eff) := _onPeerMsg st peer_key (PHello topics) in
  eff = [] /\ channels st' = channels st /\
  (knownTopics <$> conn_store st' !! 0) = Some (Some topics) /\
  exists ch', chan_store st' !! 0 = Some ch' /\ In peer_key (ch_peers ch').
Proof.
  intros st topics. split; [reflexivity|]. split; [reflexivity|].
  pose proof (hello_matches_by_topic st peer_key 0 topics eq_refl) as T.
  destruct (_onPeerMsg st peer_key (PHello topics)) as [st' eff].
  destruct T as (T1 & T2 & _ & _ & _ & T6 & _ & T8).
  split; [exact T1|]. split; [exact T2|]. split; [rewrite T6; reflexivity|].
  destruct (T8 0 room eq_refl) as (ch' & H1 & _ & H3).
  exists ch'. split; [exact H1|]. apply H3. right.
  split; [reflexivity|]. split; [reflexivity|]. left. reflexivity.
Defined.

(** A message record of the matched peer for the topic of "room", and
    one for a topic no channel has. *)
Lemma message_reaches_only_its_topic_witness :
  let st := fst (run sample_scrypt sample_parse (init "a1b2c3d4") peer_matched) in
  let t := sample_topic "room" "s1" in
  map_get peer_key (peers st) = Some 0 /\
  too_large (Some "hi"%string) = false /\
  (let '(st', eff) := _onPeerMsg st peer_key (PMsg (Some t) (Some "hi"%string) None None) in
   channels st' = channels st /\ peers st' = peers st /\
   conn_store st' = conn_store st /\
   (st', eff) = route st 0 {| from := "b2b2b2b2"; data := Some "hi"%string; ts := None |}) /\
  _onPeerMsg st peer_key (PMsg (Some "other"%string) (Some "hi"%string) None None) =
    (st, []).
Proof.
  intros st t. split; [reflexivity|]. split; [reflexivity|]. split.
  - pose proof (message_reaches_only_its_topic st peer_key (Some t) (Some "hi"%string)
                  None None) as T.
    destruct (_onPeerMsg st peer_key (PMsg (Some t) (Some "hi"%string) None None))
      as [st' eff].
    destruct T as (T1 & T2 & T3 & _ & _ & _ & T7).
    split; [exact T1|]. split; [exact T2|]. split; [exact T3|].
    destruct (T7 0 t eq_refl eq_refl eq_refl) as (r & ch & Hf & _ & _ & _ & Hr).
    + exists 0, (set_ch_peers [peer_key] room). repeat split.
    + assert (r = 0) as -> by (vm_compute in Hf; congruence). exact Hr.
  - pose proof (message_reaches_only_its_topic st peer_key (Some "other"%string)
                  (Some "hi"%string) None None) as T.
    destruct (_onPeerMsg st peer_key _) as [st' eff].
    destruct T as (_ & _ & _ & _ & _ & T6 & _).
    destruct T6 as [-> ->]; [|reflexivity].
    right. intros r ch Hreg Hch.
    destruct r as [|r]; [|vm_compute in Hch; discriminate].
    vm_compute in Hch. injection Hch as <-. vm_compute. discriminate.
Defined.

(** The connection of the matched peer closes. *)
Lemma close_unregisters_key_witness :
  let st := fst (run sample_scrypt sample_parse (init "a1b2c3d4") peer_matched) in
  conn_store st !! 0 = Some matched_peer /\
  closed matched_peer = false /\
  map_get peer_key (peers st) = Some 0 /\
  (ch_peers <$> chan_store st !! 0) = Some [peer_key] /\
  let '(st', eff) := onPeerClose st 0 in
  eff = [] /\
  map_get peer_key (peers st') = None /\
  (ch_peers <$> chan_store st' !! 0) = Some [] /\
  (forall msg, _onPeerMsg st' peer_key msg = (st', [])) /\
  onPeerClose st' 0 = (st', []).
Proof.
  intros st.
  assert (conn_store st !! 0 = Some matched_peer) as Hp by reflexivity.
  split; [exact Hp|]. split; [reflexivity|]. split; [reflexivity|].
  split; [reflexivity|].
  pose proof (close_unregisters_key sample_parse st 0 matched_peer Hp eq_refl) as T.
  cbv zeta in T.
  destruct (onPeerClose st 0) as [st' eff] eqn:E.
  destruct T as (T1 & T2 & _ & _ & _ & _ & _ & _ & T9 & _ & T11).
  split; [exact T1|]. split; [exact T2|]. split.
  - assert (st' = fst (onPeerClose st 0)) as -> by (rewrite E; reflexivity).
    reflexivity.
  - split; [exact T9 | exact T11].
Defined.

(** A join of "room" on a daemon that has joined nothing. *)
Lemma join_registers_channel_witness :
  let st := init "a1b2c3d4" in
  reachable sample_scrypt sample_parse st /\
  exited st = false /\
  map_has "room" (channels st) = false /\
  let '(st', eff) :=
    run sample_scrypt sample_parse st [Exec (Join "room" "s1") 1; Resume (next_id st)] in
  get_channel st' "room" = Some (0, room) /\
  replies_to 1 eff = [RJoined "room"] /\
  eff = [EDeriveTopic "room" "s1"; ESwarmJoin (sample_topic "room" "s1");
         EReply 1 (RJoined "room")].
Proof.
  intros st.
  assert (reachable sample_scrypt sample_parse st) as Hreach
    by (exists "a1b2c3d4"%string, []; reflexivity).
  split; [exact Hreach|]. split; [reflexivity|]. split; [reflexivity|].
  pose proof (join_registers_channel sample_scrypt sample_parse st "room" "s1" 1
                Hreach eq_refl eq_refl) as T.
  cbv zeta in T.
  destruct (run sample_scrypt sample_parse st [Exec (Join "room" "s1") 1; Resume (next_id st)])
    as [st' eff] eqn:E.
  destruct T as (_ & T2 & _).
  assert (st' = fst (run sample_scrypt sample_parse st
                       [Exec (Join "room" "s1") 1; Resume (next_id st)])) as Hst
    by (rewrite E; reflexivity).
  assert (eff = snd (run sample_scrypt sample_parse st
                       [Exec (Join "room" "s1") 1; Resume (next_id st)])) as Heff
    by (rewrite E; reflexivity).
  split; [rewrite Hst; reflexivity|]. split; [exact T2|].
  rewrite Heff. reflexivity.
Defined.

(** A join of "room" on a daemon a peer has connected to. *)
Lemma join_announces_topics_witness :
  let st := fst (run sample_scrypt sample_parse (init "a1b2c3d4") peer_announced) in
  reachable sample_scrypt sample_parse st /\
  exited st = false /\
  map_has "room" (channels st) = false /\
  writable_peers st = [0] /\
  let '(st', eff) :=
    run sample_scrypt sample_parse st [Exec (Join "room" "s1") 1; Resume (next_id st)] in
  eff = [EDeriveTopic "room" "s1"; ESwarmJoin (sample_topic "room" "s1");
         EPeerWrite 0 (WHello [sample_topic "room" "s1"] "a1b2c3d4");
         EReply 1 (RJoined "room")] /\
  topics_of st' = [sample_topic "room" "s1"].
Proof.
  intros st.
  assert (reachable sample_scrypt sample_parse st) as Hreach
    by (exists "a1b2c3d4"%string, peer_announced; reflexivity).
  split; [exact Hreach|]. split; [reflexivity|]. split; [reflexivity|].
  split; [reflexivity|].
  pose proof (join_announces_topics sample_scrypt sample_parse st "room" "s1" 1
                Hreach eq_refl eq_refl) as T.
  cbv zeta in T.
  destruct (run sample_scrypt sample_parse st [Exec (Join "room" "s1") 1; Resume (next_id st)])
    as [st' eff].
  destruct T as (T1 & T2 & _). split; [exact T1 | exact T2].
Defined.

(** The peer has announced the topic of "room" before the daemon joins
    it. *)
Lemma join_matches_known_peers_witness :
  let st := fst (run sample_scrypt sample_parse (init "a1b2c3d4") peer_announced) in
  reachable sample_scrypt sample_parse st /\
  exited st = false /\
  map_has "room" (channels st) = false /\
  announcers st (sample_topic "room" "s1") = [peer_key] /\
  let '(st', eff) :=
    run sample_scrypt sample_parse st [Exec (Join "room" "s1") 1; Resume (next_id st)] in
  exists ch, get_channel st' "room" = Some (0, ch) /\
    In peer_key (ch_peers ch) /\ In 0 (send_targets st' ch).
Proof.
  intros st.
  assert (reachable sample_scrypt sample_parse st) as Hreach
    by (exists "a1b2c3d4"%string, peer_announced; reflexivity).
  split; [exact Hreach|]. split; [reflexivity|]. split; [reflexivity|].
  split; [reflexivity|].
  pose proof (join_matches_known_peers sample_scrypt sample_parse st "room" "s1" 1
                Hreach eq_refl eq_refl) as T.
  cbv zeta in T.
  destruct (run sample_scrypt sample_parse st [Exec (Join "room" "s1") 1; Resume (next_id st)])
    as [st' eff].
  destruct T as (ch & T1 & T2 & _ & T4).
  exists ch. split; [exact T1|]. split.
  - apply T2. left. reflexivity.
  - apply T4. exists peer_key.
    eexists. split; [left; reflexivity|]. split; [reflexivity|].
    split; [reflexivity|]. reflexivity.
Defined.

(** The flush of "room" fails. *)
Lemma join_failure_leaves_unjoined_witness :
  let st := init "a1b2c3d4" in
  reachable sample_scrypt sample_parse st /\
  exited st = false /\
  map_has "room" (channels st) = false /\
  let '(st', eff) :=
    run sample_scrypt sample_parse st
      [Exec (Join "room" "s1") 1; Reject (next_id st) "swarm destroyed"] in
  eff = [EDeriveTopic "room" "s1"; ESwarmJoin (sample_topic "room" "s1");
         EReply 1 (RError "swarm destroyed")] /\
  get_channel st' "room" = None.
Proof.
  intros st.
  assert (reachable sample_scrypt sample_parse st) as Hreach
    by (exists "a1b2c3d4"%string, []; reflexivity).
  split; [exact Hreach|]. split; [reflexivity|]. split; [reflexivity|].
  pose proof (join_failure_leaves_unjoined sample_scrypt sample_parse st "room" "s1"
                "swarm destroyed" 1 Hreach eq_refl eq_refl) as T.
  cbv zeta in T.
  destruct (run sample_scrypt sample_parse st
              [Exec (Join "room" "s1") 1; Reject (next_id st) "swarm destroyed"])
    as [st' eff].
  destruct T as (T1 & _ & _ & T4 & _). split; [exact T1 | exact T4].
Defined.

(** The channel "room" with its one matched peer. *)
Lemma matched_peers_are_registered_witness :
  let st := fst (run sample_scrypt sample_parse (init "a1b2c3d4") peer_matched) in
  let ch := set_ch_peers [peer_key] room in
  reachable sample_scrypt sample_parse st /\
  get_channel st "room" = Some (0, ch) /\
  NoDup (ch_peers ch) /\
  (exists c p, map_get peer_key (peers st) = Some c /\
               conn_store st !! c = Some p /\ remoteKey p = peer_key) /\
  NoDup (send_targets st ch) /\
  length (send_targets st ch) <= length (ch_peers ch).
Proof.
  intros st ch.
  assert (reachable sample_scrypt sample_parse st) as Hreach
    by (exists "a1b2c3d4"%string, peer_matched; reflexivity).
  assert (get_channel st "room" = Some (0, ch)) as Hget by reflexivity.
  split; [exact Hreach|]. split; [exact Hget|].
  destruct (matched_peers_are_registered sample_scrypt sample_parse st "room" 0 ch
              Hreach Hget) as (T1 & T2 & _ & T4 & T5 & _).
  split; [exact T1|]. split; [apply T2; left; reflexivity|].
  split; [exact T4 | exact T5].
Defined.


(** The daemon leaves "room". *)
Lemma leave_forgets_channel_witness :
  let st := fst (run sample_scrypt sample_parse (init "a1b2c3d4") joined_room) in
  reachable sample_scrypt sample_parse st /\
  exited st = false /\
  get_channel st "room" = Some (0, room) /\
  let '(st', eff) :=
    run sample_scrypt sample_parse st [Exec (Leave "room") 9; Resume (next_id st)] in
  map_has "room" (channels st') = false /\
  _exec sample_scrypt st' (Read "room" false None) 5 =
    (st', [EReply 5 (RError "Not in channel: room")]) /\
  _exec sample_scrypt st' (Send "room" (Some "hi"%string)) 5 =
    (st', [EReply 5 (RError "Not in channel: room")]) /\
  _onPeerMsg st' peer_key (PMsg (Some (topicHex room)) (Some "hi"%string) None None) =
    (st', []).
Proof.
  intros st.
  assert (reachable sample_scrypt sample_parse st) as Hreach
    by (exists "a1b2c3d4"%string, joined_room; reflexivity).
  split; [exact Hreach|]. split; [reflexivity|]. split; [reflexivity|].
  pose proof (leave_forgets_channel sample_scrypt sample_parse st "room" 0 room 9
                Hreach eq_refl eq_refl) as T.
  destruct (run sample_scrypt sample_parse st [Exec (Leave "room") 9; Resume (next_id st)])
    as [st' eff].
  destruct T as (T1 & T2 & T3 & _ & T5 & _).
  split; [exact T1|]. split; [apply T2|]. split; [apply T3; reflexivity|].
  apply T5. intros n r' ch' Hin Hne Hch'.
  destruct Hin as [Hin | []]. injection Hin as <- <-. contradiction.
Defined.

(** Two message records of the matched peer while nobody reads. *)
Lemma buffered_messages_keep_order_witness :
  let st := fst (run sample_scrypt sample_parse (init "a1b2c3d4") peer_matched) in
  let ch := set_ch_peers [peer_key] room in
  let recs := [(Some "one"%string, Some "c4c4c4c4"%string, Some 1%Z);
               (Some "two"%string, None, None)] in
  let first := {| from := "c4c4c4c4"; data := Some "one"%string; ts := Some 1%Z |} in
  let second := {| from := "b2b2b2b2"; data := Some "two"%string; ts := None |} in
  (get_channel st "room" = Some (0, ch) /\
   waiters ch = [] /\
   map_get peer_key (peers st) = Some 0 /\
   find_topic (chan_store st) (topicHex ch) (channels st) = Some 0 /\
   Forall (fun rec => too_large (fst (fst rec)) = false) recs) /\
  let res :=
    fold_left (fun acc rec =>
                 (fst (_onPeerMsg (fst acc) peer_key
                         (PMsg (Some (topicHex ch)) (fst (fst rec)) (snd (fst rec))
                            (snd rec))),
                  snd acc ++
                  snd (_onPeerMsg (fst acc) peer_key
                         (PMsg (Some (topicHex ch)) (fst (fst rec)) (snd (fst rec))
                            (snd rec)))))
      recs (st, []) in
  snd res = [] /\
  get_channel (fst res) "room" = Some (0, set_messages [first; second] ch) /\
  snd (_exec sample_scrypt (fst res) (Read "room" true None) 5) =
    [EReply 5 (RMessages [first; second])].
Proof.
  intros st ch recs first second.
  assert (get_channel st "room" = Some (0, ch)) as Hget by reflexivity.
  assert (Forall (fun rec => too_large (fst (fst rec)) = false) recs) as Hfit
    by (repeat constructor).
  assert (waiters ch = []) as H1 by reflexivity.
  assert (map_get peer_key (peers st) = Some 0) as H2 by reflexivity.
  assert (find_topic (chan_store st) (topicHex ch) (channels st) = Some 0) as H3
    by (vm_compute; reflexivity).
  pose proof (buffered_messages_keep_order sample_scrypt st "room" peer_key 0 ch 0 recs
                Hget H1 H2 H3 Hfit) as T.
  split; [repeat split; assumption|].
  cbv zeta in T.
  intros res.
  change (let '(st', eff) := res in
          eff = [] /\
          get_channel st' "room" = Some (0, set_messages [first; second] ch) /\
          (forall r', r' <> 0 -> chan_store st' !! r' = chan_store st !! r') /\
          forall wait timeout sock,
            [first; second] <> [] \/ wait = false ->
            let '(st3, eff3) := _exec sample_scrypt st' (Read "room" wait timeout) sock in
            eff3 = [EReply sock (RMessages [first; second])] /\
            exists ch2, get_channel st3 "room" = Some (0, ch2) /\ messages ch2 = [])
    in T.
  clearbody res.
  destruct res as [st' eff].
  destruct T as (T1 & T2 & _ & T4).
  split; [exact T1|]. split; [exact T2|].
  specialize (T4 true None 5).
  cbn [fst].
  destruct (_exec sample_scrypt st' (Read "room" true None) 5) as [st3 eff3].
  apply T4. left. discriminate.
Defined.

(** Two joins of "room", with the secrets "s1" and "s2", before either
    topic is flushed. *)
Lemma concurrent_joins_last_flush_wins_witness :
  let st := init "a1b2c3d4" in
  let both := [Exec (Join "room" "s1") 1; Exec (Join "room" "s2") 2] in
  reachable sample_scrypt sample_parse st /\
  exited st = false /\
  map_has "room" (channels st) = false /\
  (let '(st', eff) := run sample_scrypt sample_parse st (both ++ [Resume 0; Resume 1]) in
   (topicHex <$> (snd <$> get_channel st' "room")) = Some (sample_topic "room" "s2") /\
   In (RJoined "room") (replies_to 1 eff) /\ In (RJoined "room") (replies_to 2 eff)) /\
  (let '(st', eff) := run sample_scrypt sample_parse st (both ++ [Resume 1; Resume 0]) in
   (topicHex <$> (snd <$> get_channel st' "room")) = Some (sample_topic "room" "s1") /\
   In (RJoined "room") (replies_to 1 eff) /\ In (RJoined "room") (replies_to 2 eff)).
Proof.
  intros st both.
  assert (reachable sample_scrypt sample_parse st) as Hreach
    by (exists "a1b2c3d4"%string, []; reflexivity).
  split; [exact Hreach|]. split; [reflexivity|]. split; [reflexivity|].
  destruct (concurrent_joins_last_flush_wins sample_scrypt sample_parse st "room"
              "s1" "s2" 1 2 Hreach eq_refl eq_refl) as [T U].
  split.
  - change (next_id st) with 0 in T. fold both in T.
    destruct (run sample_scrypt sample_parse st (both ++ [Resume 0; Resume 1]))
      as [st' eff].
    destruct T as (_ & T2 & T3 & (ch & G1 & G2 & _) & _).
    split; [rewrite G1; simpl; rewrite G2; reflexivity|]. split; assumption.
  - change (next_id st) with 0 in U. fold both in U.
    destruct (run sample_scrypt sample_parse st (both ++ [Resume 1; Resume 0]))
      as [st' eff].
    destruct U as (_ & U2 & U3 & (ch & G1 & G2 & _) & _).
    split; [rewrite G1; simpl; rewrite G2; reflexivity|]. split; assumption.
Defined.

(** The matched peer connects a second time. *)
Lemma peer_connection_registers_witness :
  let st := fst (run sample_scrypt sample_parse (init "a1b2c3d4") peer_matched) in
  let ch := set_ch_peers [peer_key] room in
  reachable sample_scrypt sample_parse st /\
  map_get peer_key (peers st) = Some 0 /\
  In peer_key (ch_peers ch) /\
  let '(st', eff) := _onPeer st peer_key in
  eff = [EPeerWrite 1 (WHello [sample_topic "room" "s1"] "a1b2c3d4")] /\
  map_get peer_key (peers st') = Some 1 /\
  conn_store st' !! 0 = Some matched_peer /\
  In 1 (send_targets st' ch) /\ ~ In 0 (send_targets st' ch).
Proof.
  intros st ch.
  assert (reachable sample_scrypt sample_parse st) as Hreach
    by (exists "a1b2c3d4"%string, peer_matched; reflexivity).
  split; [exact Hreach|]. split; [reflexivity|]. split; [left; reflexivity|].
  pose proof (peer_connection_registers sample_scrypt sample_parse st peer_key) as T.
  cbv zeta in T.
  destruct (_onPeer st peer_key) as [st' eff].
  destruct T as (T1 & T2 & _ & _ & T5 & _ & _ & _ & T9 & T10).
  split; [exact T1|]. split; [exact T2|]. split; [apply T5; reflexivity|].
  split; [apply T9; left; reflexivity|].
  apply (T10 Hreach 0 ch). reflexivity.
Defined.

(** A secret and an id drawn from a source of equal bytes. *)
Lemma generated_secret_is_valid_witness :
  (forall size, length (sample_randomBytes size) = size) /\
  generateSecret sample_randomBytes = "a7a7a7a7a7a7a7a7a7a7a7a7a7a7a7a7"%string /\
  agentId sample_randomBytes = "a7a7a7a7"%string /\
  validateSecret (Some (generateSecret sample_randomBytes)) =
    {| valid := true; message := None |} /\
  String.length (generateSecret sample_randomBytes) = 32 /\
  String.length (agentId sample_randomBytes) = 8.
Proof.
  assert (forall size, length (sample_randomBytes size) = size) as Hlen
    by (intros size; apply repeat_length).
  split; [exact Hlen|]. split; [reflexivity|]. split; [reflexivity|].
  destruct (generated_secret_is_valid sample_randomBytes Hlen)
    as (T1 & T2 & _ & T4 & _).
  split; [exact T1|]. split; [exact T2 | exact T4].
Defined.

(** A secret of 16 characters, one of 15, and none. *)
Lemma validateSecret_accepts_witness :
  (16 <= js_length "0123456789abcdef")%Z /\
  valid (validateSecret (Some "0123456789abcdef"%string)) = true /\
  message (validateSecret (Some "0123456789abcdef"%string)) = None /\
  valid (validateSecret (Some "0123456789abcde"%string)) = false /\
  message (validateSecret (Some "0123456789abcde"%string)) = Some SECRET_TOO_SHORT /\
  validateSecret None = {| valid := false; message := Some SECRET_TOO_SHORT |}.
Proof.
  assert (16 <= js_length "0123456789abcdef")%Z as H16 by (vm_compute; discriminate).
  split; [exact H16|].
  destruct (validateSecret_accepts (Some "0123456789abcdef"%string))
    as (T1 & _ & T3 & T4 & _).
  destruct (validateSecret_accepts (Some "0123456789abcde"%string))
    as (_ & U2 & _).
  assert (valid (validateSecret (Some "0123456789abcdef"%string)) = true) as Hv
    by (apply T1; exists "0123456789abcdef"%string; split; [reflexivity | exact H16]).
  split; [exact Hv|]. split; [apply T3, Hv|].
  split; [reflexivity|]. split; [apply U2; reflexivity | exact T4].
Defined.

(** The channel "a:b" with the secret "c", and the channel "a" with the
    secret "b:c", under the digest that returns its input. *)
Lemma digest_topic_moves_colon_witness :
  Digest.deriveTopic (fun text => text) "a:b" "c" = "walkie:a:b:c"%string /\
  Digest.deriveTopic (fun text => text) "a" "b:c" = "walkie:a:b:c"%string /\
  Digest.deriveTopic (fun text => text) ("a" ++ ":" ++ "b") "c" =
    Digest.deriveTopic (fun text => text) "a" ("b" ++ ":" ++ "c").
Proof.
  split; [reflexivity|]. split; [reflexivity|].
  exact (proj1 (digest_topic_moves_colon (fun text => text) "a" "b" "c")).
Defined.
